(** * The IBS time-stepping integrator (src/cpp/src/OrdDiffEq.cpp)

    A shallow embedding of the two [ODE] overloads of OrdDiffEq.cpp and the
    properties their specification states about them.

    - C++ [double] is IEEE 754 binary64: it is modelled by Rocq's primitive
      [float], whose [+ - * / sqrt abs] and comparisons are the same
      operations, so the embedding runs on the very numbers the code sees.
    - C++ [int] is modelled by [Z]; the only conversion that can leave the
      [int] range, [(int)(10 * taum / ddt)], is undefined there, as in C++.
    - [vector<double>] is a [list float] that grows at its end; [v[i]] is a
      lookup that is undefined out of range.
    - The lattice and growth-rate routines that the file only calls (their
      headers are not part of the sources) are the fields of [Externals]:
      functions of their arguments, whose [double*] results are read as
      arrays that later calls leave alone.
    - Every arithmetic operation is rounded on its own, in the order the
      C++ expressions fix (no fused multiply-add).
    - The diagnostic output guarded by [debug_output] is not modelled. *)

From Stdlib Require Import ZArith Floats Uint63 Bool Lia.
From stdpp Require Import base option list gmap strings.

Local Open Scope Z_scope.

(** ** Results of a run *)

(** A run either returns, or has undefined behaviour in C++ (an index out of
    range, an unsupported model identifier, a conversion to [int] out of
    range).  [OutOfFuel] belongs to the embedding of the loops only; the entry
    points never produce it ([adaptive_ODE_fuel], [fixed_ODE_fuel]). *)
Inductive result (A : Type) : Type :=
| Ok (a : A)
| Undefined
| OutOfFuel.
Arguments Ok {A} a.
Arguments Undefined {A}.
Arguments OutOfFuel {A}.

Definition bind {A B : Type} (m : result A) (f : A -> result B) : result B :=
  match m with
  | Ok a => f a
  | Undefined => Undefined
  | OutOfFuel => OutOfFuel
  end.

Notation "'do' x <- m ; k" := (bind m (fun x => k))
  (at level 10, x name, m at level 100, k at level 200,
   format "'[v' 'do'  x  <-  m ; '/' k ']'").

(** ** double and int *)

Module Dbl.

(** [std::max(a, b)] is [(a < b) ? b : a] and [std::min(a, b)] is
    [(b < a) ? b : a]; the order of the arguments matters on NaN. *)
Definition max (a b : float) : float := if (a <? b)%float then b else a.
Definition min (a b : float) : float := if (b <? a)%float then b else a.

Definition fabs (x : float) : float := PrimFloat.abs x.
Definition sqrt (x : float) : float := PrimFloat.sqrt x.

Definition INT_MIN : Z := - 2 ^ 31.
Definition INT_MAX : Z := 2 ^ 31 - 1.

(** [(double)n] for an [int n]: exact. *)
Definition of_int (n : Z) : float :=
  if n <? 0 then (- PrimFloat.of_uint63 (Uint63.of_Z (- n)))%float
  else PrimFloat.of_uint63 (Uint63.of_Z n).

(** [(int)x]: the fractional part is discarded; undefined when the
    truncated value is not an [int] (NaN and the infinities included). *)
Definition to_int (x : float) : result Z :=
  match Prim2SF x with
  | S754_zero _ => Ok 0
  | S754_finite s m e =>
      let mag := Z.shiftl (Z.pos m) e in
      let v := if s then - mag else mag in
      if (INT_MIN <=? v) && (v <=? INT_MAX) then Ok v else Undefined
  | _ => Undefined
  end.

Definition is_nan (x : float) : bool :=
  match Prim2SF x with S754_nan => true | _ => false end.
(** finite, and neither [+0] nor [-0] *)
Definition is_number (x : float) : bool :=
  match Prim2SF x with S754_finite _ _ _ => true | _ => false end.

End Dbl.

(** ** vector<double> *)

Abbreviation vec := (list float) (only parsing).

(** [v[i]] for an [int i]. *)
Definition vec_at (v : vec) (i : Z) : result float :=
  if i <? 0 then Undefined
  else match v !! Z.to_nat i with
       | Some x => Ok x
       | None => Undefined
       end.

(** [v.push_back(x)] *)
Definition push_back (v : vec) (x : float) : vec := v ++ [x].

(** A [double*] result of a collaborator, read at constant indices. *)
Definition array : Type := nat -> float.

(** ** map<string, double> *)

Abbreviation twiss_t := (gmap string float) (only parsing).
Abbreviation twissdata_t := (gmap string (list float)) (only parsing).

(** [m[k]] on a [std::map]: a missing key is inserted with value [0.0]. *)
Definition map_index (m : twiss_t) (k : string) : float * twiss_t :=
  match m !! k with
  | Some v => (v, m)
  | None => (0%float, <[k := 0%float]> m)
  end.

(** ** The collaborators *)

(** The functions and constants OrdDiffEq.cpp takes from its headers
    (CoulombLogFunctions, Integrators, Models, NumericFunctions,
    RadiationDamping, twiss), with the argument lists of their call sites. *)
Record Externals : Type := {
  emass : float;
  pmass : float;
  clight : float;
  pi : float;
  BetaRelativisticFromGamma : float -> float;
  ParticleRadius : Z -> float -> float;
  eta : float -> float -> float;
  RadiationDampingLattice : twissdata_t -> array;
  RadiationLossesPerTurn : twiss_t -> float -> float -> float;
  SynchronuousPhase :
    float -> float -> float -> float -> Z -> list float -> list float ->
    float -> float;
  SynchrotronTune :
    float -> float -> float -> Z -> list float -> list float -> float ->
    float -> float -> float;
  RadiationDampingLifeTimesAndEquilibriumEmittancesWithPartitionNumbers :
    twiss_t -> array -> float -> float -> array;
  sigefromsigs : float -> float -> float -> float -> float -> float;
  SigeFromRFAndSigs :
    float -> float -> float -> Z -> list float -> list float -> float ->
    float -> float -> float -> float -> bool -> float;
  sigsfromsige : float -> float -> float -> float -> float;
  (* the growth-rate models: pnumber, ex, ey, sigs, sige, twiss, ... *)
  PiwinskiSmooth :
    float -> float -> float -> float -> float -> twiss_t -> float -> array;
  PiwinskiLattice :
    float -> float -> float -> float -> float -> twiss_t -> twissdata_t ->
    float -> array;
  PiwinskiLatticeModified :
    float -> float -> float -> float -> float -> twiss_t -> twissdata_t ->
    float -> array;
  Nagaitsev :
    float -> float -> float -> float -> float -> twiss_t -> twissdata_t ->
    float -> array;
  Nagaitsevtailcut :
    float -> float -> float -> float -> float -> twiss_t -> twissdata_t ->
    float -> float -> array;
  ibsmadx :
    float -> float -> float -> float -> float -> twiss_t -> twissdata_t ->
    float -> bool -> array;
  ibsmadxtailcut :
    float -> float -> float -> float -> float -> twiss_t -> twissdata_t ->
    float -> float -> array;
  BjorkenMtingwa2 :
    float -> float -> float -> float -> float -> twiss_t -> twissdata_t ->
    float -> array;
  BjorkenMtingwa :
    float -> float -> float -> float -> float -> twiss_t -> twissdata_t ->
    float -> array;
  BjorkenMtingwatailcut :
    float -> float -> float -> float -> float -> twiss_t -> twissdata_t ->
    float -> float -> array;
  ConteMartini :
    float -> float -> float -> float -> float -> twiss_t -> twissdata_t ->
    float -> array;
  ConteMartinitailcut :
    float -> float -> float -> float -> float -> twiss_t -> twissdata_t ->
    float -> float -> array;
  MadxIBS :
    float -> float -> float -> float -> float -> twiss_t -> twissdata_t ->
    float -> array;
}.

(** ** What both entry points compute before their loop *)

(** The values of lines 170-216 (adaptive overload) and 558-602 (fixed-step
    overload), which are the same statements in both. *)
Record Setup : Type := {
  twiss' : twiss_t;        (* the caller's map after the seven [twiss[..]] *)
  coupling : float;
  gamma : float;
  pc : float;
  gammatr : float;
  mass : float;
  charge : float;
  q1 : float;
  len : float;
  aatom : float;
  betar : float;
  r0 : float;
  trev : float;
  frev : float;
  omega : float;
  neta : float;
  epsilon : float;
  radint : array;
  U0 : float;
  phis : float;
  qs : float;
  omegas : float;
  equi : array;
  tauradx : float;
  taurady : float;
  taurads : float;
  sigeoe2 : float;
  ey0_coupled : float;
}.

(** The variables of a run that change in the loop: the four vectors of the
    caller, the callee's [sige] and [sige2], the loop variable [i], the
    growth rates last returned ([ibs]) and the step size [ddt]. *)
Record State : Type := {
  st_t : vec;
  st_ex : vec;
  st_ey : vec;
  st_sigs : vec;
  st_sige : vec;          (* the callee's copy: [sige] is passed by value *)
  st_sige2 : vec;         (* local to the callee *)
  st_i : Z;
  st_ibs : array;
  st_ddt : float;
}.

(** The five vectors of the caller.  [t], [ex], [ey] and [sigs] are passed
    by reference ([vector<double> &]); [sige] is passed by value
    ([vector<double> sige]), so the callee works on a copy of it. *)
Record Caller : Type := {
  c_t : vec;
  c_ex : vec;
  c_ey : vec;
  c_sigs : vec;
  c_sige : vec;
}.

(** What the caller holds when the call has returned in state [st]. *)
Definition after_call (c : Caller) (st : State) : Caller :=
  {| c_t := st_t st; c_ex := st_ex st; c_ey := st_ey st;
     c_sigs := st_sigs st; c_sige := c_sige c |}.

Section Integrator.

Context (E : Externals).

(** *** Sanitizing the settings (lines 150-167 and 543-556) *)

Definition sanitize_method (method : string) : string :=
  if negb (String.eqb method "rlx" || String.eqb method "der") then "der"
  else method.

Definition sanitize_threshold (threshold : float) : float :=
  if (1 <? threshold)%float || (threshold <? 0x1.0c6f7a0b5ed8dp-20)%float
  then 0x1.a36e2eb1c432dp-14%float     (* 1e-4 *)
  else threshold.

Definition sanitize_coupling (couplingpercentage : Z) : Z :=
  if (couplingpercentage >? 100) || (couplingpercentage <? 0) then 0
  else couplingpercentage.

(** *** Lattice quantities (lines 170-216 and 558-602) *)

Definition lattice_setup (twiss : twiss_t) (twissdata : twissdata_t)
    (nrf : Z) (harmon voltages : list float) (couplingpercentage : Z)
    : Setup :=
  let coupling := (Dbl.of_int couplingpercentage / 100)%float in
  let '(gamma, twiss) := map_index twiss "GAMMA" in
  let '(pc, twiss) := map_index twiss "PC" in
  let '(gammatr, twiss) := map_index twiss "GAMMATR" in
  let '(mass, twiss) := map_index twiss "MASS" in
  let '(charge, twiss) := map_index twiss "CHARGE" in
  let '(q1, twiss) := map_index twiss "Q1" in
  let '(len, twiss) := map_index twiss "LENGTH" in
  let aatom := (emass E / pmass E)%float in
  let betar := BetaRelativisticFromGamma E gamma in
  let r0 := ParticleRadius E 1 aatom in
  let trev := (len / (betar * clight E))%float in
  let frev := (1 / trev)%float in
  let omega := (2 * pi E * frev)%float in
  let neta := eta E gamma gammatr in
  let epsilon := 0x1.0c6f7a0b5ed8dp-20%float in      (* 1.0e-6 *)
  let radint := RadiationDampingLattice E twissdata in
  let U0 := RadiationLossesPerTurn E twiss (radint 1%nat) aatom in
  let phis :=
    SynchronuousPhase E 0 173 U0 charge nrf harmon voltages epsilon in
  let qs :=
    SynchrotronTune E omega U0 charge nrf harmon voltages phis neta pc in
  let omegas := (qs * omega)%float in
  let equi :=
    RadiationDampingLifeTimesAndEquilibriumEmittancesWithPartitionNumbers
      E twiss radint aatom qs in
  let tauradx := equi 0%nat in
  let taurady := equi 1%nat in
  let taurads := equi 2%nat in
  let sigeoe2 := equi 5%nat in
  let ey0_coupled := Dbl.max (coupling * equi 3%nat) (equi 4%nat) in
  {| twiss' := twiss; coupling := coupling; gamma := gamma; pc := pc;
     gammatr := gammatr; mass := mass; charge := charge; q1 := q1;
     len := len; aatom := aatom; betar := betar; r0 := r0; trev := trev;
     frev := frev; omega := omega; neta := neta; epsilon := epsilon;
     radint := radint; U0 := U0; phis := phis; qs := qs; omegas := omegas;
     equi := equi; tauradx := tauradx; taurady := taurady;
     taurads := taurads; sigeoe2 := sigeoe2; ey0_coupled := ey0_coupled |}.

(** *** The growth-rate switch (lines 263-315, 383-474, 655-707, 737-828)

    The switch has no default: with another model identifier [ibs], [aes],
    [aex] and [aey] are read uninitialised. *)
Definition growth_rates (S : Setup) (twissdata : twissdata_t) (model : Z)
    (pnumber ex ey sigs sige : float) : result array :=
  let tw := twiss' S in
  match model with
  | 1 => Ok (PiwinskiSmooth E pnumber ex ey sigs sige tw (r0 S))
  | 2 => Ok (PiwinskiLattice E pnumber ex ey sigs sige tw twissdata (r0 S))
  | 3 => Ok (PiwinskiLatticeModified E pnumber ex ey sigs sige tw twissdata
               (r0 S))
  | 4 => Ok (Nagaitsev E pnumber ex ey sigs sige tw twissdata (r0 S))
  | 5 => Ok (Nagaitsevtailcut E pnumber ex ey sigs sige tw twissdata (r0 S)
               (aatom S))
  | 6 => Ok (ibsmadx E pnumber ex ey sigs sige tw twissdata (r0 S) false)
  | 7 => Ok (ibsmadxtailcut E pnumber ex ey sigs sige tw twissdata (r0 S)
               (aatom S))
  | 8 => Ok (BjorkenMtingwa2 E pnumber ex ey sigs sige tw twissdata (r0 S))
  | 9 => Ok (BjorkenMtingwa E pnumber ex ey sigs sige tw twissdata (r0 S))
  | 10 => Ok (BjorkenMtingwatailcut E pnumber ex ey sigs sige tw twissdata
                (r0 S) (aatom S))
  | 11 => Ok (ConteMartini E pnumber ex ey sigs sige tw twissdata (r0 S))
  | 12 => Ok (ConteMartinitailcut E pnumber ex ey sigs sige tw twissdata
                (r0 S) (aatom S))
  | 13 => Ok (MadxIBS E pnumber ex ey sigs sige tw twissdata (r0 S))
  | _ => Undefined
  end.

(** The switch at the point of index [k]:
    [model(pnumber, ex[k], ey[k], sigs[k], sige[k], ...)]. *)
Definition growth_rates_at (S : Setup) (twissdata : twissdata_t)
    (model : Z) (pnumber : float) (ex ey sigs sige : vec) (k : Z)
    : result array :=
  do exk <- vec_at ex k;
  do eyk <- vec_at ey k;
  do sigsk <- vec_at sigs k;
  do sigek <- vec_at sige k;
  growth_rates S twissdata model pnumber exk eyk sigsk sigek.

(** *** The smallest and the largest time scale

    [min(tauradx, taurady)], then [min] with [taurads], [1.0 / ibs[0]],
    [1.0 / ibs[1]] and [1.0 / ibs[2]] in turn (lines 326-330 and 375-379);
    the same with [max] (lines 318-322). *)
Definition tau_min (S : Setup) (ibs : array) : float :=
  let ddt := Dbl.min (tauradx S) (taurady S) in
  let ddt := Dbl.min ddt (taurads S) in
  let ddt := Dbl.min ddt (1 / ibs 0%nat)%float in
  let ddt := Dbl.min ddt (1 / ibs 1%nat)%float in
  let ddt := Dbl.min ddt (1 / ibs 2%nat)%float in
  ddt.

Definition tau_max (S : Setup) (ibs : array) : float :=
  let taum := Dbl.max (tauradx S) (taurady S) in
  let taum := Dbl.max taum (taurads S) in
  let taum := Dbl.max taum (1 / ibs 0%nat)%float in
  let taum := Dbl.max taum (1 / ibs 1%nat)%float in
  let taum := Dbl.max taum (1 / ibs 2%nat)%float in
  taum.

(** *** The two stepping schemes

    Both are written once here; the two overloads contain the same
    statements (lines 485-498 and 843-856, lines 500-512 and 858-870).
    [i] is the loop variable after [i++]; [st] holds the vectors before
    the step. *)

Definition dxdt (S : Setup) (ex_prev aex : float) : float :=
  ((- (ex_prev - equi S 3%nat)) * 2 / tauradx S + ex_prev * 2 * aex)%float.
Definition dydt (S : Setup) (ey_prev aey : float) : float :=
  ((- (ey_prev - ey0_coupled S)) * 2 / taurady S + ey_prev * 2 * aey)%float.
Definition dedt (S : Setup) (sige_prev aes : float) : float :=
  ((- (sige_prev - Dbl.sqrt (equi S 5%nat))) / taurads S
   + sige_prev * aes)%float.

Definition relaxation_update (S : Setup) (ibs : array) (ddt : float)
    (ratio_x ratio_y ratio_s : float) (i : Z) (st : State)
    : result State :=
  let xfactor := (1 / (1 - ratio_x))%float in
  let yfactor := (1 / (1 - ratio_y))%float in
  let sfactor := (1 / (1 - ratio_s))%float in
  do t_prev <- vec_at (st_t st) (i - 1);
  let t := push_back (st_t st) (t_prev + ddt)%float in
  do ex_prev <- vec_at (st_ex st) (i - 1);
  let ex :=
    push_back (st_ex st)
      (ex_prev + ddt * (xfactor * equi S 3%nat - ex_prev))%float in
  do ey_prev <- vec_at (st_ey st) (i - 1);
  let ey :=
    push_back (st_ey st)
      (ey_prev
       + ddt * (((1 - coupling S) * yfactor + coupling S * xfactor)
                * ey0_coupled S - ey_prev))%float in
  do sige_prev <- vec_at (st_sige st) (i - 1);
  let sige :=
    push_back (st_sige st)
      (sige_prev
       + ddt * (sfactor * Dbl.sqrt (equi S 5%nat) - sige_prev))%float in
  do sige_i <- vec_at sige i;
  let sige2 := push_back (st_sige2 st) (sige_i * sige_i)%float in
  let sigs :=
    push_back (st_sigs st)
      (sigsfromsige E sige_i (gamma S) (gammatr S) (omegas S)) in
  Ok {| st_t := t; st_ex := ex; st_ey := ey; st_sigs := sigs;
        st_sige := sige; st_sige2 := sige2; st_i := i; st_ibs := ibs;
        st_ddt := ddt |}.

Definition derivative_update (S : Setup) (ibs : array) (ddt : float)
    (aes aex aey : float) (i : Z) (st : State) : result State :=
  do ex_prev <- vec_at (st_ex st) (i - 1);
  let dxdt := dxdt S ex_prev aex in
  do ey_prev <- vec_at (st_ey st) (i - 1);
  let dydt := dydt S ey_prev aey in
  do sige_prev <- vec_at (st_sige st) (i - 1);
  let dedt := dedt S sige_prev aes in
  do t_prev <- vec_at (st_t st) (i - 1);
  let t := push_back (st_t st) (t_prev + ddt)%float in
  let ex := push_back (st_ex st) (ex_prev + ddt * dxdt)%float in
  let ey := push_back (st_ey st) (ey_prev + ddt * dydt)%float in
  let sige := push_back (st_sige st) (sige_prev + ddt * dedt)%float in
  do sige_i <- vec_at sige i;
  let sige2 := push_back (st_sige2 st) (sige_i * sige_i)%float in
  let sigs :=
    push_back (st_sigs st)
      (sigsfromsige E sige_i (gamma S) (gammatr S) (omegas S)) in
  Ok {| st_t := t; st_ex := ex; st_ey := ey; st_sigs := sigs;
        st_sige := sige; st_sige2 := sige2; st_i := i; st_ibs := ibs;
        st_ddt := ddt |}.

(** *** do { body } while (cond)

    [body] runs before [cond] is first looked at.  [fuel] bounds the
    number of iterations of the embedding. *)
Fixpoint do_while (body : State -> result State)
    (cond : State -> result bool) (fuel : nat) (st : State)
    : result State :=
  match fuel with
  | O => OutOfFuel
  | S fuel' =>
      do st' <- body st;
      do c <- cond st';
      if c then do_while body cond fuel' st' else Ok st'
  end.

End Integrator.

(** ** The adaptive-threshold entry point (lines 141-535) *)

Module Adaptive.
Section ODE.

Context (E : Externals).

Definition MaxSteps : Z := 10000.

(** [int ms = (int)(10 * taum / ddt); ms = min(ms, MaxSteps);] with
    [taum = min(tau_max, 1.0)] (lines 317-337). *)
Definition budget (S : Setup) (ibs : array) : result Z :=
  let taum := Dbl.min (tau_max S ibs) 1 in
  let ddt := tau_min S ibs in
  do ms <- Dbl.to_int (10 * taum / ddt)%float;
  Ok (Z.min ms MaxSteps).

(** The step size of one iteration (lines 375-380): from the growth rates
    [ibs] as they are when the iteration starts. *)
Definition step_size (S : Setup) (ibs : array) : float :=
  (tau_min S ibs / 2)%float.

(** One iteration (lines 374-513). *)
Definition body (S : Setup) (twissdata : twissdata_t) (model : Z)
    (pnumber : float) (method : string) (st : State) : result State :=
  let ddt := step_size S (st_ibs st) in
  do ibs <- growth_rates_at E S twissdata model pnumber
              (st_ex st) (st_ey st) (st_sigs st) (st_sige st) (st_i st);
  let aes := ibs 0%nat in
  let aex := ibs 1%nat in
  let aey := ibs 2%nat in
  let i := st_i st + 1 in
  if String.eqb method "rlx" then
    let ddt := (ddt * 4)%float in
    let ratio_x := (tauradx S * aex)%float in
    let ratio_y := (taurady S * aey)%float in
    let ratio_s := (taurads S * aes)%float in
    relaxation_update E S ibs ddt ratio_x ratio_y ratio_s i st
  else
    derivative_update E S ibs ddt aes aex aey i st.

(** [fabs((v[i] - v[i - 1]) / v[i - 1])] *)
Definition rel_change (v : vec) (i : Z) : result float :=
  do a <- vec_at v i;
  do b <- vec_at v (i - 1);
  Ok (Dbl.fabs ((a - b) / b)).

(** The loop condition (lines 516-518), with the short circuits of [&&]
    and [||]. *)
Definition cond (ms : Z) (threshold : float) (st : State) : result bool :=
  let i := st_i st in
  if i <? ms then
    do cx <- rel_change (st_ex st) i;
    if (threshold <? cx)%float then Ok true
    else
      do cy <- rel_change (st_ey st) i;
      if (threshold <? cy)%float then Ok true
      else
        do cs <- rel_change (st_sigs st) i;
        Ok (threshold <? cs)%float
  else Ok false.

(** The seed [sige0] appended to [sige] before the loop (lines 217-253):
    the value of line 217 is overwritten at line 240. *)
Definition seed_sige (S : Setup) (nrf : Z) (harmon voltages : list float)
    : float :=
  let sige0 :=
    sigefromsigs E (omega S) (equi S 6%nat) (qs S) (gamma S) (gammatr S) in
  let sige0 :=
    SigeFromRFAndSigs E (equi S 6%nat) (U0 S) (charge S) nrf harmon voltages
      (gamma S) (gammatr S) (pc S) (len S) (phis S) false in
  sige0.

Definition ODE (twiss : twiss_t) (twissdata : twissdata_t) (nrf : Z)
    (harmon voltages : list float) (t ex ey sigs sige : vec) (model : Z)
    (pnumber : float) (couplingpercentage : Z) (threshold : float)
    (method : string) : result State :=
  let method := sanitize_method method in
  let threshold := sanitize_threshold threshold in
  let couplingpercentage := sanitize_coupling couplingpercentage in
  let S :=
    lattice_setup E twiss twissdata nrf harmon voltages couplingpercentage in
  let sige0 := seed_sige S nrf harmon voltages in
  let sige := push_back sige sige0 in
  do sige_0 <- vec_at sige 0;
  let sige2 := push_back [] (sige_0 * sige_0)%float in
  let i := 0 in
  do ibs <- growth_rates_at E S twissdata model pnumber ex ey sigs sige 0;
  do ms <- budget S ibs;
  let ddt := tau_min S ibs in
  do_while (body S twissdata model pnumber method) (cond ms threshold)
    (Z.to_nat (Z.max 1 ms))
    {| st_t := t; st_ex := ex; st_ey := ey; st_sigs := sigs;
       st_sige := sige; st_sige2 := sige2; st_i := i; st_ibs := ibs;
       st_ddt := ddt |}.

(** The call as the caller sees it. *)
Definition call (twiss : twiss_t) (twissdata : twissdata_t) (nrf : Z)
    (harmon voltages : list float) (c : Caller) (model : Z)
    (pnumber : float) (couplingpercentage : Z) (threshold : float)
    (method : string) : result Caller :=
  do st <- ODE twiss twissdata nrf harmon voltages
             (c_t c) (c_ex c) (c_ey c) (c_sigs c) (c_sige c)
             model pnumber couplingpercentage threshold method;
  Ok (after_call c st).

End ODE.
End Adaptive.

(** ** The fixed-step entry point (lines 537-891) *)

Module Fixed.
Section ODE.

Context (E : Externals).

(** One iteration (lines 719-871).  [ddt] is a variable of the function:
    a halving (line 840) stays in force for the iterations that follow. *)
Definition body (S : Setup) (twissdata : twissdata_t) (model : Z)
    (pnumber : float) (method : string) (st : State) : result State :=
  let ddt := st_ddt st in
  do ibs <- growth_rates_at E S twissdata model pnumber
              (st_ex st) (st_ey st) (st_sigs st) (st_sige st) (st_i st);
  let aes := ibs 0%nat in
  let aex := ibs 1%nat in
  let aey := ibs 2%nat in
  let i := st_i st + 1 in
  if String.eqb method "rlx" then
    let ratio_x := (tauradx S * aex)%float in
    let ratio_y := (taurady S * aey)%float in
    let ratio_s := (taurads S * aes)%float in
    let ddt :=
      if (1 <=? ratio_x)%float || (1 <=? ratio_y)%float
         || (1 <=? ratio_s)%float
      then (ddt / 2)%float else ddt in
    relaxation_update E S ibs ddt ratio_x ratio_y ratio_s i st
  else
    derivative_update E S ibs ddt aes aex aey i st.

(** [while (i < nsteps)] (line 874) *)
Definition cond (nsteps : Z) (st : State) : result bool :=
  Ok (st_i st <? nsteps).

(** The seed [sige0] appended to [sige] before the loop (lines 625-645):
    the values of lines 625 and 631 are overwritten at line 639. *)
Definition seed_sige (S : Setup) (nrf : Z) (harmon voltages : list float)
    (sigs_0 : float) : float :=
  let sige0 :=
    sigefromsigs E (omega S) (equi S 6%nat) (qs S) (gamma S) (gammatr S) in
  let sige0 :=
    SigeFromRFAndSigs E (equi S 6%nat) (U0 S) (charge S) nrf harmon voltages
      (gamma S) (gammatr S) (pc S) (len S) (phis S) false in
  let sige0 :=
    SigeFromRFAndSigs E sigs_0 (U0 S) (charge S) nrf harmon voltages
      (gamma S) (gammatr S) (pc S) (len S) (phis S) false in
  sige0.

Definition ODE (twiss : twiss_t) (twissdata : twissdata_t) (nrf : Z)
    (harmon voltages : list float) (t ex ey sigs sige : vec) (model : Z)
    (pnumber : float) (nsteps : Z) (stepsize : float)
    (couplingpercentage : Z) (method : string) : result State :=
  let couplingpercentage := sanitize_coupling couplingpercentage in
  let method := sanitize_method method in
  let S :=
    lattice_setup E twiss twissdata nrf harmon voltages couplingpercentage in
  let ddt := stepsize in
  do sigs_0 <- vec_at sigs 0;
  let sige0 := seed_sige S nrf harmon voltages sigs_0 in
  let sige := push_back sige sige0 in
  do sige_0 <- vec_at sige 0;
  let sige2 := push_back [] (sige_0 * sige_0)%float in
  let i := 0 in
  do ibs <- growth_rates_at E S twissdata model pnumber ex ey sigs sige 0;
  do_while (body S twissdata model pnumber method) (cond nsteps)
    (Z.to_nat (Z.max 1 nsteps))
    {| st_t := t; st_ex := ex; st_ey := ey; st_sigs := sigs;
       st_sige := sige; st_sige2 := sige2; st_i := i; st_ibs := ibs;
       st_ddt := ddt |}.

(** The call as the caller sees it. *)
Definition call (twiss : twiss_t) (twissdata : twissdata_t) (nrf : Z)
    (harmon voltages : list float) (c : Caller) (model : Z)
    (pnumber : float) (nsteps : Z) (stepsize : float)
    (couplingpercentage : Z) (method : string) : result Caller :=
  do st <- ODE twiss twissdata nrf harmon voltages
             (c_t c) (c_ex c) (c_ey c) (c_sigs c) (c_sige c)
             model pnumber nsteps stepsize couplingpercentage method;
  Ok (after_call c st).

End ODE.
End Fixed.

(** ** Vocabulary of the statements *)

(** [w] is [v] with [n] elements appended: nothing is removed or changed. *)
Definition appended (n : nat) (v w : vec) : Prop :=
  exists l, w = v ++ l /\ length l = n.

(** [b] is [a] after [n] iterations: the loop variable has advanced by [n]
    and each of the six vectors has [n] new elements at its end. *)
Record extends (n : nat) (a b : State) : Prop := {
  ext_i : st_i b = st_i a + Z.of_nat n;
  ext_t : appended n (st_t a) (st_t b);
  ext_ex : appended n (st_ex a) (st_ex b);
  ext_ey : appended n (st_ey a) (st_ey b);
  ext_sigs : appended n (st_sigs a) (st_sigs b);
  ext_sige : appended n (st_sige a) (st_sige b);
  ext_sige2 : appended n (st_sige2 a) (st_sige2 b);
}.

(** The loop variable is a valid index of the five vectors that are read. *)
Record ready (st : State) : Prop := {
  ready_i : 0 <= st_i st;
  ready_t : st_i st < Z.of_nat (length (st_t st));
  ready_ex : st_i st < Z.of_nat (length (st_ex st));
  ready_ey : st_i st < Z.of_nat (length (st_ey st));
  ready_sigs : st_i st < Z.of_nat (length (st_sigs st));
  ready_sige : st_i st < Z.of_nat (length (st_sige st));
}.

(** The step size the adaptive body applies in state [st]. *)
Definition adaptive_ddt (S : Setup) (method : string) (st : State) : float :=
  if String.eqb method "rlx" then (Adaptive.step_size S (st_ibs st) * 4)%float
  else Adaptive.step_size S (st_ibs st).

(** The step size the fixed-step body applies in state [st] when the switch
    has returned [ibs]: the current [ddt], halved in the relaxation scheme
    when a ratio is at least 1. *)
Definition fixed_ddt (S : Setup) (method : string) (st : State) (ibs : array)
    : float :=
  if String.eqb method "rlx" then
    if (1 <=? tauradx S * ibs 1%nat)%float
       || (1 <=? taurady S * ibs 2%nat)%float
       || (1 <=? taurads S * ibs 0%nat)%float
    then (st_ddt st / 2)%float else st_ddt st
  else st_ddt st.

(** ** A small instance of the collaborators, to run the code on *)

(** Seven values for [equi[0..6]]: the three damping times, the natural
    emittances, the squared equilibrium energy spread and the equilibrium
    bunch length. *)
Definition sample_equi (taux tauy taus ex0 ey0 sige0sq sigsinf : float)
    : array :=
  fun k =>
    match k with
    | 0 => taux | 1 => tauy | 2 => taus | 3 => ex0 | 4 => ey0
    | 5 => sige0sq | _ => sigsinf
    end%nat.

(** Three growth rates [(aes, aex, aey)] as an [ibs] array. *)
Definition rates (aes aex aey : float) : array :=
  fun k => match k with 0 => aes | 1 => aex | _ => aey end%nat.

(** Collaborators with equilibria [eq], every growth-rate model equal to
    [ibs] (a function of [ex], [ey], [sigs] and [sige]), and energy spread
    and bunch length equal to each other ([SigeFromRFAndSigs] and
    [sigsfromsige] return their first argument). *)
Definition sample (eq : array) (ibs : float -> float -> float -> float -> array)
    : Externals :=
  {| emass := 1; pmass := 1; clight := 1; pi := 1;
     BetaRelativisticFromGamma := fun _ => 1;
     ParticleRadius := fun _ _ => 1;
     eta := fun _ _ => 1;
     RadiationDampingLattice := fun _ _ => 1%float;
     RadiationLossesPerTurn := fun _ _ _ => 1;
     SynchronuousPhase := fun _ _ _ _ _ _ _ _ => 0;
     SynchrotronTune := fun _ _ _ _ _ _ _ _ _ => 1;
     RadiationDampingLifeTimesAndEquilibriumEmittancesWithPartitionNumbers :=
       fun _ _ _ _ => eq;
     sigefromsigs := fun _ sigs _ _ _ => sigs;
     SigeFromRFAndSigs := fun sigs _ _ _ _ _ _ _ _ _ _ _ => sigs;
     sigsfromsige := fun sige _ _ _ => sige;
     PiwinskiSmooth := fun _ ex ey sigs sige _ _ => ibs ex ey sigs sige;
     PiwinskiLattice := fun _ ex ey sigs sige _ _ _ => ibs ex ey sigs sige;
     PiwinskiLatticeModified :=
       fun _ ex ey sigs sige _ _ _ => ibs ex ey sigs sige;
     Nagaitsev := fun _ ex ey sigs sige _ _ _ => ibs ex ey sigs sige;
     Nagaitsevtailcut := fun _ ex ey sigs sige _ _ _ _ => ibs ex ey sigs sige;
     ibsmadx := fun _ ex ey sigs sige _ _ _ _ => ibs ex ey sigs sige;
     ibsmadxtailcut := fun _ ex ey sigs sige _ _ _ _ => ibs ex ey sigs sige;
     BjorkenMtingwa2 := fun _ ex ey sigs sige _ _ _ => ibs ex ey sigs sige;
     BjorkenMtingwa := fun _ ex ey sigs sige _ _ _ => ibs ex ey sigs sige;
     BjorkenMtingwatailcut :=
       fun _ ex ey sigs sige _ _ _ _ => ibs ex ey sigs sige;
     ConteMartini := fun _ ex ey sigs sige _ _ _ => ibs ex ey sigs sige;
     ConteMartinitailcut :=
       fun _ ex ey sigs sige _ _ _ _ => ibs ex ey sigs sige;
     MadxIBS := fun _ ex ey sigs sige _ _ _ => ibs ex ey sigs sige |}%float.

(** The equilibria of the sample runs: damping times 0.5 s, natural
    emittances 2 and 1, squared energy spread 4, bunch length 3. *)
Definition demo_equi : array := sample_equi 0.5 0.5 0.5 2 1 4 3.

(** Collaborators without intrabeam scattering: all growth rates are 0. *)
Definition demo : Externals := sample demo_equi (fun _ _ _ _ => rates 0 0 0).

(** The caller of the sample runs: one seed in each of the five series. *)
Definition demo_caller : Caller :=
  {| c_t := [0%float]; c_ex := [1%float]; c_ey := [1%float];
     c_sigs := [5%float]; c_sige := [7%float] |}.

(** The energy spread that one step of the selected scheme makes of
    [sige_prev], with step size [ddt] and longitudinal growth rate [aes]
    (lines 483-496 and 504-510; lines 836-854 and 862-868). *)
Definition advance_sige (S : Setup) (method : string)
    (ddt aes sige_prev : float) : float :=
  if String.eqb method "rlx" then
    (sige_prev
     + ddt * (1 / (1 - taurads S * aes) * Dbl.sqrt (equi S 5%nat)
              - sige_prev))%float
  else (sige_prev + ddt * dedt S sige_prev aes)%float.

(** Inputs the code can run on: a model that the switch knows and a seed
    in each of the four series that are read at index 0. *)
Definition seeded (model : Z) (t ex ey sigs : vec) : Prop :=
  1 <= model <= 13 /\ t <> [] /\ ex <> [] /\ ey <> [] /\ sigs <> [].

(** For the adaptive entry point, moreover, the growth rates of the initial
    point give a step budget [(int)(10 * taum / ddt)] that is an [int]. *)
Definition budgeted (E : Externals) (twiss : twiss_t)
    (twissdata : twissdata_t) (nrf : Z) (harmon voltages : list float)
    (ex ey sigs sige : vec) (model : Z) (pnumber : float)
    (couplingpercentage : Z) : Prop :=
  let S :=
    lattice_setup E twiss twissdata nrf harmon voltages
      (sanitize_coupling couplingpercentage) in
  exists ibs0 ms,
    growth_rates_at E S twissdata model pnumber ex ey sigs
      (push_back sige (Adaptive.seed_sige E S nrf harmon voltages)) 0
    = Ok ibs0 /\
    Adaptive.budget S ibs0 = Ok ms.

(** The relative change of series [v] at index [k] is above, or not above,
    the threshold: [fabs((v[k] - v[k - 1]) / v[k - 1]) > threshold] is true,
    or false. *)
Definition exceeds (threshold : float) (v : vec) (k : Z) : Prop :=
  exists c, Adaptive.rel_change v k = Ok c /\ (threshold <? c)%float = true.
Definition within (threshold : float) (v : vec) (k : Z) : Prop :=
  exists c, Adaptive.rel_change v k = Ok c /\ (threshold <? c)%float = false.

(** Collaborators with a horizontal growth rate of 2, so that
    [tauradx * aex = 1], and of 4, so that [tauradx * aex = 2]. *)
Definition demo_resonant : Externals :=
  sample demo_equi (fun _ _ _ _ => rates 0 2 0).
Definition demo_unstable : Externals :=
  sample demo_equi (fun _ _ _ _ => rates 0 4 0).

(** Collaborators whose horizontal growth rate is the emittance [ex]: the
    growth rates depend on the point they are evaluated at. *)
Definition demo_growing : Externals :=
  sample demo_equi (fun ex _ _ _ => rates 0 ex 0).

(** The sample ring at rest, before the first iteration of a fixed-step
    run with step size 0.125: [ex = equi[3] = 2], [ey = ey0_coupled = 1],
    [sige = sqrt(equi[5]) = 2], and the bunch length 2 that [sigsfromsige]
    makes of that energy spread.  The energy spread is the only entry of
    [sige]. *)
Definition demo_setup : Setup := lattice_setup demo ∅ ∅ 1 [] [] 0.


(** ** The derivative scheme, step by step *)

(** [b] is [a] after one iteration of the derivative scheme with step size
    [ddt]: with the growth rates [ibs] of the point with index [i], the
    time is advanced by [ddt] and [ex], [ey] and [sige] by [ddt] times the
    derivatives [dxdt], [dydt] and [dedt] (lines 500-510 and 858-868). *)
Definition derivative_step (E : Externals) (S : Setup)
    (twissdata : twissdata_t) (model : Z) (pnumber : float) (ddt : float)
    (a b : State) : Prop :=
  exists ibs t_prev x y s,
    growth_rates_at E S twissdata model pnumber
      (st_ex a) (st_ey a) (st_sigs a) (st_sige a) (st_i a) = Ok ibs /\
    vec_at (st_t a) (st_i a) = Ok t_prev /\
    vec_at (st_ex a) (st_i a) = Ok x /\
    vec_at (st_ey a) (st_i a) = Ok y /\
    vec_at (st_sige a) (st_i a) = Ok s /\
    st_t b = push_back (st_t a) (t_prev + ddt)%float /\
    st_ex b = push_back (st_ex a) (x + ddt * dxdt S x (ibs 1%nat))%float /\
    st_ey b = push_back (st_ey a) (y + ddt * dydt S y (ibs 2%nat))%float /\
    st_sige b
    = push_back (st_sige a) (s + ddt * dedt S s (ibs 0%nat))%float.

(** The same, read off the state [st] a run has returned: its iteration
    with loop variable [k] was a derivative step with step size [ddt].
    [nt], [nx], [ny] and [ne] are the lengths that [t], [ex], [ey] and
    [sige] had when the loop was entered, so that the elements appended by
    that iteration are at these indices plus [k]. *)
Definition takes_derivative_step (E : Externals) (S : Setup)
    (twissdata : twissdata_t) (model : Z) (pnumber : float)
    (nt nx ny ne : nat) (st : State) (k : Z) (ddt : float) : Prop :=
  exists ibs tk x y s,
    growth_rates_at E S twissdata model pnumber
      (st_ex st) (st_ey st) (st_sigs st) (st_sige st) k = Ok ibs /\
    vec_at (st_t st) k = Ok tk /\
    vec_at (st_ex st) k = Ok x /\
    vec_at (st_ey st) k = Ok y /\
    vec_at (st_sige st) k = Ok s /\
    vec_at (st_t st) (Z.of_nat nt + k) = Ok (tk + ddt)%float /\
    vec_at (st_ex st) (Z.of_nat nx + k)
    = Ok (x + ddt * dxdt S x (ibs 1%nat))%float /\
    vec_at (st_ey st) (Z.of_nat ny + k)
    = Ok (y + ddt * dydt S y (ibs 2%nat))%float /\
    vec_at (st_sige st) (Z.of_nat ne + k)
    = Ok (s + ddt * dedt S s (ibs 0%nat))%float.

(** ** Writing the series to a file (lines 31-53) *)

(** [int n = s;] for a [size_t s]: the value modulo 2^32, read as a signed
    32-bit integer. *)
Definition int_of_size (s : nat) : Z :=
  let z := Z.of_nat s mod 2 ^ 32 in
  if z <? 2 ^ 31 then z else z - 2 ^ 32.

(** What [endl] puts on the stream: a line feed. *)
Definition endl : string := String (Ascii.ascii_of_nat 10) EmptyString.

(** What a call of [WriteToFile] has written: the content of the file,
    when the stream could be opened, and the text sent to [cout]. *)
Record Written : Type := {
  csvfile : option string;
  cout : string;
}.

Section Csv.

(** [csvfile << x] for a [double x]: the text the stream makes of [x]. *)
Context (put_double : float -> string).

(** The text of one row: [t[i] << "," << ex[i] << "," << ey[i] << ","
    << sigs[i] << endl]. *)
Definition csv_row (ti exi eyi sigsi : float) : string :=
  String.append (put_double ti)
    (String.append ","
       (String.append (put_double exi)
          (String.append ","
             (String.append (put_double eyi)
                (String.append ","
                   (String.append (put_double sigsi) endl)))))).

(** [for (int i = 0; i < num_of_rows; i++) csvfile << t[i] << ...;] entered
    with loop variable [i] and the text [csv] written so far. *)
Fixpoint write_rows (t ex ey sigs : vec) (num_of_rows : Z) (fuel : nat)
    (i : Z) (csv : string) : result string :=
  if i <? num_of_rows then
    match fuel with
    | O => OutOfFuel
    | S fuel' =>
        do ti <- vec_at t i;
        do exi <- vec_at ex i;
        do eyi <- vec_at ey i;
        do sigsi <- vec_at sigs i;
        write_rows t ex ey sigs num_of_rows fuel' (i + 1)
          (String.append csv (csv_row ti exi eyi sigsi))
    end
  else Ok csv.

(** [WriteToFile(filename, t, ex, ey, sigs)]; [is_open] tells whether the
    stream on [filename] could be opened. *)
Definition WriteToFile (is_open : bool) (t ex ey sigs : vec)
    : result Written :=
  if is_open then
    let num_of_rows :=
      int_of_size
        (Nat.min (length t)
           (Nat.min (length ex) (Nat.min (length ey) (length sigs)))) in
    let csv := String.append "t,ex,ey,sigs" endl in
    do csv <- write_rows t ex ey sigs num_of_rows (Z.to_nat num_of_rows) 0 csv;
    Ok {| csvfile := Some csv; cout := "" |}
  else
    Ok {| csvfile := None; cout := "File could not be opened" |}.

(** The rows of four series written side by side, as long as all four have
    an element. *)
Fixpoint csv_rows (t ex ey sigs : vec) : list string :=
  match t, ex, ey, sigs with
  | ti :: t', exi :: ex', eyi :: ey', sigsi :: sigs' =>
      csv_row ti exi eyi sigsi :: csv_rows t' ex' ey' sigs'
  | _, _, _, _ => []
  end.

End Csv.

(** The texts of a list, one after the other. *)
Definition join (l : list string) : string :=
  fold_right String.append EmptyString l.

(** ** More vocabulary *)

(** [x] divided by two [h] times. *)
Fixpoint halved (h : nat) (x : float) : float :=
  match h with
  | O => x
  | S h' => (halved h' x / 2)%float
  end.

(** The seven keys of the twiss header that both entry points read. *)
Definition twiss_keys : list string :=
  ["GAMMA"; "PC"; "GAMMATR"; "MASS"; "CHARGE"; "Q1"; "LENGTH"].

(** The step size in force is the caller's, halved [h] times, and at most
    once per iteration made. *)
Definition halved_so_far (method : string) (stepsize : float) (st : State)
    : Prop :=
  0 <= st_i st /\
  exists h : nat,
    Z.of_nat h <= st_i st /\ st_ddt st = halved h stepsize /\
    (method <> "rlx" -> h = 0%nat).

(** A sample of the text a stream makes of a [double], to run
    [WriteToFile] on: it tells numbers below 2 from the others. *)
Definition demo_put_double (x : float) : string :=
  if (x <? 2)%float then "a" else "b".

(** The emittances appended by one iteration of scheme [method] with step
    size [ddt] and growth rates [aex] and [aey], from the emittances
    [ex_prev] and [ey_prev] it reads. *)
Definition advance_ex (S : Setup) (method : string)
    (ddt aex ex_prev : float) : float :=
  if String.eqb method "rlx" then
    (ex_prev
     + ddt * (1 / (1 - tauradx S * aex) * equi S 3%nat - ex_prev))%float
  else (ex_prev + ddt * dxdt S ex_prev aex)%float.
Definition advance_ey (S : Setup) (method : string)
    (ddt aex aey ey_prev : float) : float :=
  if String.eqb method "rlx" then
    (ey_prev
     + ddt * (((1 - coupling S) * (1 / (1 - taurady S * aey))
               + coupling S * (1 / (1 - tauradx S * aex)))
              * ey0_coupled S - ey_prev))%float
  else (ey_prev + ddt * dydt S ey_prev aey)%float.

(** What one iteration of a body appends to [t], [ex] and [ey], from the
    growth rates [ibs] of the point with index [i]. *)
Definition emittance_step (E : Externals) (S : Setup)
    (twissdata : twissdata_t) (model : Z) (pnumber : float)
    (method : string) (a b : State) : Prop :=
  exists ibs ddt t_prev ex_prev ey_prev,
    growth_rates_at E S twissdata model pnumber
      (st_ex a) (st_ey a) (st_sigs a) (st_sige a) (st_i a) = Ok ibs /\
    vec_at (st_t a) (st_i a) = Ok t_prev /\
    vec_at (st_ex a) (st_i a) = Ok ex_prev /\
    vec_at (st_ey a) (st_i a) = Ok ey_prev /\
    st_t b = push_back (st_t a) (t_prev + ddt)%float /\
    st_ex b
    = push_back (st_ex a)
        (advance_ex S method ddt (ibs 1%nat) ex_prev) /\
    st_ey b
    = push_back (st_ey a)
        (advance_ey S method ddt (ibs 1%nat) (ibs 2%nat) ey_prev).

(** * Properties *)

(** ** Results *)

Lemma bind_Ok {A B : Type} (m : result A) (f : A -> result B) (b : B) :
  bind m f = Ok b -> exists a, m = Ok a /\ f a = Ok b.
Proof. destruct m as [a| |]; simpl; intros H; try discriminate; eauto. Qed.

(** ** Vectors *)

Lemma vec_at_Some (v : vec) (i : Z) (x : float) :
  vec_at v i = Ok x <-> 0 <= i /\ v !! Z.to_nat i = Some x.
Proof.
  unfold vec_at. destruct (Z.ltb_spec i 0) as [Hi|Hi].
  - split; [discriminate | lia].
  - destruct (v !! Z.to_nat i) as [y|]; split.
    + intros [= ->]. auto.
    + intros [_ [= ->]]. reflexivity.
    + discriminate.
    + intros [_ [=]].
Qed.

Lemma vec_at_range (v : vec) (i : Z) (x : float) :
  vec_at v i = Ok x -> 0 <= i < Z.of_nat (length v).
Proof.
  intros [Hi Hx]%vec_at_Some. apply lookup_lt_Some in Hx. lia.
Qed.

Lemma vec_at_defined (v : vec) (i : Z) :
  0 <= i < Z.of_nat (length v) -> exists x, vec_at v i = Ok x.
Proof.
  intros Hi. destruct (lookup_lt_is_Some_2 v (Z.to_nat i)) as [x Hx]; [lia|].
  exists x. apply vec_at_Some. split; [lia | exact Hx].
Qed.

Lemma vec_at_app (v l : vec) (i : Z) (x : float) :
  vec_at v i = Ok x -> vec_at (v ++ l) i = Ok x.
Proof.
  intros [Hi Hx]%vec_at_Some. apply vec_at_Some. split; [exact Hi|].
  rewrite lookup_app_l; [exact Hx | by eapply lookup_lt_Some].
Qed.

Lemma vec_at_app_inv (v l : vec) (i : Z) (x : float) :
  i < Z.of_nat (length v) -> vec_at (v ++ l) i = Ok x -> vec_at v i = Ok x.
Proof.
  intros Hlt [Hi Hx]%vec_at_Some. apply vec_at_Some. split; [exact Hi|].
  rewrite lookup_app_l in Hx; [exact Hx | lia].
Qed.

Lemma vec_at_push_back_new (v : vec) (x : float) :
  vec_at (push_back v x) (Z.of_nat (length v)) = Ok x.
Proof.
  apply vec_at_Some. split; [lia|]. rewrite Nat2Z.id. unfold push_back.
  rewrite lookup_app_r; [|lia]. by rewrite Nat.sub_diag.
Qed.

Lemma vec_at_no_fuel (v : vec) (i : Z) : vec_at v i <> OutOfFuel.
Proof.
  unfold vec_at. destruct (i <? 0); [discriminate|].
  destruct (v !! Z.to_nat i); discriminate.
Qed.

Lemma appended_push_back (v : vec) (x : float) : appended 1 v (push_back v x).
Proof. exists [x]. auto. Qed.

Lemma appended_trans (n m : nat) (u v w : vec) :
  appended n u v -> appended m v w -> appended (n + m) u w.
Proof.
  intros (l1 & -> & <-) (l2 & -> & <-). exists (l1 ++ l2).
  by rewrite app_assoc, length_app.
Qed.

Lemma appended_length (n : nat) (v w : vec) :
  appended n v w -> length w = (length v + n)%nat.
Proof. intros (l & -> & <-). by rewrite length_app. Qed.

Lemma appended_vec_at (n : nat) (v w : vec) (i : Z) (x : float) :
  appended n v w -> vec_at v i = Ok x -> vec_at w i = Ok x.
Proof. intros (l & -> & _). apply vec_at_app. Qed.

Lemma appended_vec_at_inv (n : nat) (v w : vec) (i : Z) (x : float) :
  appended n v w -> i < Z.of_nat (length v) -> vec_at w i = Ok x ->
  vec_at v i = Ok x.
Proof. intros (l & -> & _). apply vec_at_app_inv. Qed.

(** ** One history extends another *)

Lemma extends_trans (n m : nat) (a b c : State) :
  extends n a b -> extends m b c -> extends (n + m) a c.
Proof.
  intros [] []. split; try (eapply appended_trans; eassumption). lia.
Qed.

(** ** One step of either scheme *)

(** Reduces a hypothesis [... = Ok st'] on a sequence of [do]s to the
    equations of its steps. *)
Ltac run_inv H :=
  repeat (let x := fresh "x" in
          let Hx := fresh "H" x in
          apply bind_Ok in H; destruct H as (x & Hx & H)).

Section Steps.

Context (E : Externals) (S : Setup).

Lemma relaxation_update_extends ibs ddt rx ry rs i st st' :
  relaxation_update E S ibs ddt rx ry rs i st = Ok st' ->
  i = st_i st + 1 ->
  extends 1 st st' /\ st_ibs st' = ibs /\ st_ddt st' = ddt.
Proof.
  unfold relaxation_update. intros H Hi. run_inv H.
  injection H as <-. simpl.
  split; [|auto]. split; simpl; try apply appended_push_back. lia.
Qed.

Lemma derivative_update_extends ibs ddt aes aex aey i st st' :
  derivative_update E S ibs ddt aes aex aey i st = Ok st' ->
  i = st_i st + 1 ->
  extends 1 st st' /\ st_ibs st' = ibs /\ st_ddt st' = ddt.
Proof.
  unfold derivative_update. intros H Hi. run_inv H.
  injection H as <-. simpl.
  split; [|auto]. split; simpl; try apply appended_push_back. lia.
Qed.

Lemma extends_ready (a b : State) : extends 1 a b -> ready a -> ready b.
Proof.
  intros [Hi Ht Hx Hy Hs He _] [].
  apply appended_length in Ht, Hx, Hy, Hs, He.
  split; lia.
Qed.

Lemma relaxation_update_defined ibs ddt rx ry rs st :
  ready st ->
  exists st', relaxation_update E S ibs ddt rx ry rs (st_i st + 1) st = Ok st'.
Proof.
  intros []. unfold relaxation_update.
  replace (st_i st + 1 - 1) with (st_i st) by lia.
  destruct (vec_at_defined (st_t st) (st_i st)) as [a ->]; [lia|].
  destruct (vec_at_defined (st_ex st) (st_i st)) as [b ->]; [lia|].
  destruct (vec_at_defined (st_ey st) (st_i st)) as [c ->]; [lia|].
  destruct (vec_at_defined (st_sige st) (st_i st)) as [d ->]; [lia|].
  simpl.
  match goal with
  | |- context [vec_at (push_back ?v ?x) ?k] =>
      destruct (vec_at_defined (push_back v x) k) as [e ->];
      [unfold push_back; rewrite length_app; simpl; lia|]
  end.
  simpl. eauto.
Qed.

Lemma derivative_update_defined ibs ddt aes aex aey st :
  ready st ->
  exists st',
    derivative_update E S ibs ddt aes aex aey (st_i st + 1) st = Ok st'.
Proof.
  intros []. unfold derivative_update.
  replace (st_i st + 1 - 1) with (st_i st) by lia.
  destruct (vec_at_defined (st_ex st) (st_i st)) as [b ->]; [lia|].
  destruct (vec_at_defined (st_ey st) (st_i st)) as [c ->]; [lia|].
  destruct (vec_at_defined (st_sige st) (st_i st)) as [d ->]; [lia|].
  destruct (vec_at_defined (st_t st) (st_i st)) as [a ->]; [lia|].
  simpl.
  match goal with
  | |- context [vec_at (push_back ?v ?x) ?k] =>
      destruct (vec_at_defined (push_back v x) k) as [e ->];
      [unfold push_back; rewrite length_app; simpl; lia|]
  end.
  simpl. eauto.
Qed.

(** The switch returns for the thirteen models, and only for them. *)
Lemma growth_rates_defined twissdata model pnumber ex ey sigs sige :
  1 <= model <= 13 ->
  exists ibs,
    growth_rates E S twissdata model pnumber ex ey sigs sige = Ok ibs.
Proof.
  intros Hm. unfold growth_rates.
  assert (model = 1 \/ model = 2 \/ model = 3 \/ model = 4 \/ model = 5 \/
          model = 6 \/ model = 7 \/ model = 8 \/ model = 9 \/ model = 10 \/
          model = 11 \/ model = 12 \/ model = 13) as Hc by lia.
  repeat destruct Hc as [-> | Hc]; try subst model; eauto.
Qed.

Lemma growth_rates_model twissdata model pnumber ex ey sigs sige ibs :
  growth_rates E S twissdata model pnumber ex ey sigs sige = Ok ibs ->
  1 <= model <= 13.
Proof.
  unfold growth_rates.
  destruct model as [|p|p]; try discriminate.
  repeat match goal with
         | |- context [match ?q with xH => _ | _ => _ end] =>
             destruct q; try discriminate
         end; intros _; lia.
Qed.

Lemma growth_rates_at_defined twissdata model pnumber ex ey sigs sige k :
  1 <= model <= 13 ->
  0 <= k ->
  k < Z.of_nat (length ex) -> k < Z.of_nat (length ey) ->
  k < Z.of_nat (length sigs) -> k < Z.of_nat (length sige) ->
  exists ibs,
    growth_rates_at E S twissdata model pnumber ex ey sigs sige k = Ok ibs.
Proof.
  intros Hm Hk Hx Hy Hs He. unfold growth_rates_at.
  destruct (vec_at_defined ex k) as [a ->]; [lia|].
  destruct (vec_at_defined ey k) as [b ->]; [lia|].
  destruct (vec_at_defined sigs k) as [c ->]; [lia|].
  destruct (vec_at_defined sige k) as [d ->]; [lia|].
  simpl. by apply growth_rates_defined.
Qed.

End Steps.

(** ** The do-while loop *)

Section Loop.

Context (body : State -> result State) (cond : State -> result bool).

(** The body runs at least once, whatever [cond] says. *)
Lemma do_while_first fuel st st' :
  do_while body cond fuel st = Ok st' -> exists st1, body st = Ok st1.
Proof.
  destruct fuel as [|fuel]; [discriminate|]. simpl. intros H.
  apply bind_Ok in H as (st1 & H1 & _). eauto.
Qed.

Section Partial.

Hypothesis body_extends : forall a b, body a = Ok b -> extends 1 a b.

(** A loop that returns has run [n >= 1] times and left on a false
    condition. *)
Lemma do_while_extends fuel st st' :
  do_while body cond fuel st = Ok st' ->
  exists n, (1 <= n <= fuel)%nat /\ extends n st st' /\ cond st' = Ok false.
Proof.
  revert st. induction fuel as [|fuel IH]; intros st H; [discriminate|].
  simpl in H. apply bind_Ok in H as (st1 & H1 & H).
  apply bind_Ok in H as (c & Hc & H). apply body_extends in H1.
  destruct c.
  - apply IH in H as (n & Hn & Hext & Hstop). exists (1 + n)%nat.
    split; [lia|]. split; [|exact Hstop]. by eapply extends_trans.
  - injection H as <-. exists 1%nat. split; [lia|]. auto.
Qed.

(** Every value the loop variable had before the last one belongs to an
    iteration after which the condition was true. *)
Lemma do_while_continued fuel st st' k :
  do_while body cond fuel st = Ok st' ->
  st_i st < k < st_i st' ->
  exists mid m, st_i mid = k /\ cond mid = Ok true /\ extends m mid st'.
Proof.
  revert st. induction fuel as [|fuel IH]; intros st H Hk; [discriminate|].
  simpl in H. apply bind_Ok in H as (st1 & H1 & H).
  apply bind_Ok in H as (c & Hc & H). apply body_extends in H1.
  pose proof (ext_i _ _ _ H1) as Hi.
  destruct c.
  - destruct (Z.eq_dec k (st_i st1)) as [->|Hne].
    + apply do_while_extends in H as (n & _ & Hext & _). eauto.
    + apply (IH st1 H). lia.
  - injection H as <-. lia.
Qed.

End Partial.

Section Total.

Context (I : State -> Prop) (mu : State -> nat).

Hypothesis step :
  forall st, I st ->
  exists st' c, body st = Ok st' /\ cond st' = Ok c /\ I st' /\
                (c = true -> (1 <= mu st' < mu st)%nat).

(** With an invariant that keeps body and condition defined and a
    measure that the continuing iterations decrease, the loop returns. *)
Lemma do_while_defined fuel st :
  I st -> (1 <= fuel)%nat -> (mu st <= fuel)%nat ->
  exists st', do_while body cond fuel st = Ok st'.
Proof.
  revert st. induction fuel as [|fuel IH]; intros st HI H1 Hmu; [lia|].
  destruct (step st HI) as (st1 & c & Hb & Hc & HI1 & Hdec).
  simpl. rewrite Hb. simpl. rewrite Hc. simpl. destruct c; [|eauto].
  specialize (Hdec eq_refl). apply IH; [exact HI1 | lia | lia].
Qed.

End Total.

Section Fuel.

Context (bound : Z).

Hypothesis body_i : forall a b, body a = Ok b -> st_i b = st_i a + 1.
Hypothesis body_no_fuel : forall a, body a <> OutOfFuel.
Hypothesis cond_no_fuel : forall a, cond a <> OutOfFuel.
Hypothesis cond_bound : forall a, cond a = Ok true -> st_i a < bound.

(** The fuel the entry points give is never used up. *)
Lemma do_while_no_fuel fuel st :
  (1 <= fuel)%nat -> (Z.to_nat (bound - st_i st) <= fuel)%nat ->
  do_while body cond fuel st <> OutOfFuel.
Proof.
  revert st. induction fuel as [|fuel IH]; intros st H1 Hmu; [lia|].
  simpl. destruct (body st) as [st1| |] eqn:Hb; simpl;
    [|discriminate|by apply body_no_fuel in Hb].
  destruct (cond st1) as [c| |] eqn:Hc; simpl;
    [|discriminate|by apply cond_no_fuel in Hc].
  destruct c; [|discriminate].
  apply cond_bound in Hc. apply body_i in Hb. apply IH; lia.
Qed.

End Fuel.

End Loop.

(** ** The loop bodies *)

Section Bodies.

Context (E : Externals) (S : Setup) (twissdata : twissdata_t) (model : Z)
        (pnumber : float) (method : string).

Lemma adaptive_body_Ok st st' :
  Adaptive.body E S twissdata model pnumber method st = Ok st' ->
  extends 1 st st' /\
  st_ddt st' = adaptive_ddt S method st /\
  growth_rates_at E S twissdata model pnumber
    (st_ex st) (st_ey st) (st_sigs st) (st_sige st) (st_i st)
  = Ok (st_ibs st').
Proof.
  unfold Adaptive.body, adaptive_ddt. intros H.
  apply bind_Ok in H as (ibs & Hibs & H).
  destruct (String.eqb method "rlx").
  - apply relaxation_update_extends in H as (? & -> & ->); auto.
  - apply derivative_update_extends in H as (? & -> & ->); auto.
Qed.

Lemma adaptive_body_defined st :
  1 <= model <= 13 -> ready st ->
  exists st', Adaptive.body E S twissdata model pnumber method st = Ok st'.
Proof.
  intros Hm Hr. unfold Adaptive.body.
  destruct (growth_rates_at_defined E S twissdata model pnumber
              (st_ex st) (st_ey st) (st_sigs st) (st_sige st) (st_i st))
    as [ibs ->]; try apply Hr; [exact Hm|].
  simpl. destruct (String.eqb method "rlx").
  - by apply relaxation_update_defined.
  - by apply derivative_update_defined.
Qed.

Lemma fixed_body_Ok st st' :
  Fixed.body E S twissdata model pnumber method st = Ok st' ->
  extends 1 st st' /\
  st_ddt st' = fixed_ddt S method st (st_ibs st') /\
  growth_rates_at E S twissdata model pnumber
    (st_ex st) (st_ey st) (st_sigs st) (st_sige st) (st_i st)
  = Ok (st_ibs st').
Proof.
  unfold Fixed.body, fixed_ddt. intros H.
  apply bind_Ok in H as (ibs & Hibs & H).
  destruct (String.eqb method "rlx").
  - apply relaxation_update_extends in H as (? & -> & ->); auto.
  - apply derivative_update_extends in H as (? & -> & ->); auto.
Qed.

Lemma fixed_body_defined st :
  1 <= model <= 13 -> ready st ->
  exists st', Fixed.body E S twissdata model pnumber method st = Ok st'.
Proof.
  intros Hm Hr. unfold Fixed.body.
  destruct (growth_rates_at_defined E S twissdata model pnumber
              (st_ex st) (st_ey st) (st_sigs st) (st_sige st) (st_i st))
    as [ibs ->]; try apply Hr; [exact Hm|].
  simpl. destruct (String.eqb method "rlx").
  - by apply relaxation_update_defined.
  - by apply derivative_update_defined.
Qed.

End Bodies.

(** ** The iterations of a run, one by one *)

Lemma appended_refl (v : vec) : appended 0 v v.
Proof. exists []. by rewrite app_nil_r. Qed.

Lemma extends_refl (st : State) : extends 0 st st.
Proof. split; try apply appended_refl. simpl. lia. Qed.

Section Iterations.

Context (body : State -> result State) (cond : State -> result bool)
        (J : State -> Prop).

Hypothesis body_extends : forall a b, body a = Ok b -> extends 1 a b.
Hypothesis J_step : forall a b, J a -> body a = Ok b -> J b.

(** For every value [k] that the loop variable has when an iteration
    starts, the run contains that iteration: a state [a] with [i = k]
    reached from the initial one, on which [J] holds, and the state
    [b] that the body makes of it, which the final state extends. *)
Lemma do_while_steps fuel st st' k :
  J st -> do_while body cond fuel st = Ok st' ->
  st_i st <= k < st_i st' ->
  exists a b n m,
    extends n st a /\ J a /\ st_i a = k /\ body a = Ok b /\ extends m b st'.
Proof.
  revert st. induction fuel as [|fuel IH]; intros st HJ H Hk; [discriminate|].
  simpl in H. apply bind_Ok in H as (st1 & H1 & H).
  apply bind_Ok in H as (c & Hc & H).
  pose proof (body_extends _ _ H1) as Hext.
  pose proof (ext_i _ _ _ Hext) as Hi.
  destruct (Z.eq_dec k (st_i st)) as [->|Hne].
  - exists st, st1, 0%nat. destruct c.
    + apply (do_while_extends body cond body_extends) in H
        as (m & _ & Hm & _).
      exists m. auto using extends_refl.
    + injection H as <-. exists 0%nat. auto using extends_refl.
  - destruct c; [|injection H as <-; lia].
    destruct (IH st1 (J_step _ _ HJ H1) H) as (a & b & n & m & Ha & Hrest);
      [lia|].
    exists a, b, (1 + n)%nat, m. split; [|exact Hrest].
    by eapply extends_trans.
Qed.

End Iterations.

Section BodyFacts.

Context (E : Externals) (S : Setup) (twissdata : twissdata_t) (model : Z)
        (pnumber : float) (method : string).

Lemma growth_rates_at_appended n ex ey sigs sige ex' ey' sigs' sige' k ibs :
  appended n ex ex' -> appended n ey ey' -> appended n sigs sigs' ->
  appended n sige sige' ->
  growth_rates_at E S twissdata model pnumber ex ey sigs sige k = Ok ibs ->
  growth_rates_at E S twissdata model pnumber ex' ey' sigs' sige' k = Ok ibs.
Proof.
  intros Ax Ay As Ae H. unfold growth_rates_at in *.
  apply bind_Ok in H as (a & Ha & H). apply bind_Ok in H as (b & Hb & H).
  apply bind_Ok in H as (c & Hc & H). apply bind_Ok in H as (d & Hd & H).
  rewrite (appended_vec_at _ _ _ _ _ Ax Ha), (appended_vec_at _ _ _ _ _ Ay Hb).
  rewrite (appended_vec_at _ _ _ _ _ As Hc), (appended_vec_at _ _ _ _ _ Ae Hd).
  exact H.
Qed.

Lemma growth_rates_at_extends n a b k ibs :
  extends n a b ->
  growth_rates_at E S twissdata model pnumber
    (st_ex a) (st_ey a) (st_sigs a) (st_sige a) k = Ok ibs ->
  growth_rates_at E S twissdata model pnumber
    (st_ex b) (st_ey b) (st_sigs b) (st_sige b) k = Ok ibs.
Proof. intros []. by apply growth_rates_at_appended with n. Qed.

(** What either scheme appends: the time advanced by [ddt]; the bunch
    length and the squared energy spread computed from [sige[i]], [i] being
    the loop variable after its increment. *)
Lemma relaxation_update_appends ibs ddt rx ry rs i st st' :
  relaxation_update E S ibs ddt rx ry rs i st = Ok st' ->
  exists t_prev sige_new sige_i,
    vec_at (st_t st) (i - 1) = Ok t_prev /\
    st_t st' = push_back (st_t st) (t_prev + ddt)%float /\
    st_sige st' = push_back (st_sige st) sige_new /\
    vec_at (st_sige st') i = Ok sige_i /\
    st_sige2 st' = push_back (st_sige2 st) (sige_i * sige_i)%float /\
    st_sigs st'
    = push_back (st_sigs st)
        (sigsfromsige E sige_i (gamma S) (gammatr S) (omegas S)).
Proof.
  unfold relaxation_update. intros H. run_inv H. injection H as <-. simpl.
  eauto 10.
Qed.

Lemma derivative_update_appends ibs ddt aes aex aey i st st' :
  derivative_update E S ibs ddt aes aex aey i st = Ok st' ->
  exists t_prev sige_new sige_i,
    vec_at (st_t st) (i - 1) = Ok t_prev /\
    st_t st' = push_back (st_t st) (t_prev + ddt)%float /\
    st_sige st' = push_back (st_sige st) sige_new /\
    vec_at (st_sige st') i = Ok sige_i /\
    st_sige2 st' = push_back (st_sige2 st) (sige_i * sige_i)%float /\
    st_sigs st'
    = push_back (st_sigs st)
        (sigsfromsige E sige_i (gamma S) (gammatr S) (omegas S)).
Proof.
  unfold derivative_update. intros H. run_inv H. injection H as <-. simpl.
  eauto 10.
Qed.

Lemma adaptive_body_appends st st' :
  Adaptive.body E S twissdata model pnumber method st = Ok st' ->
  exists t_prev sige_new sige_i,
    vec_at (st_t st) (st_i st) = Ok t_prev /\
    st_t st' = push_back (st_t st) (t_prev + adaptive_ddt S method st)%float /\
    st_sige st' = push_back (st_sige st) sige_new /\
    vec_at (st_sige st') (st_i st + 1) = Ok sige_i /\
    st_sige2 st' = push_back (st_sige2 st) (sige_i * sige_i)%float /\
    st_sigs st'
    = push_back (st_sigs st)
        (sigsfromsige E sige_i (gamma S) (gammatr S) (omegas S)).
Proof.
  unfold Adaptive.body, adaptive_ddt. intros H.
  apply bind_Ok in H as (ibs & _ & H).
  destruct (String.eqb method "rlx");
    [apply relaxation_update_appends in H
    |apply derivative_update_appends in H];
    replace (st_i st + 1 - 1) with (st_i st) in H by lia; exact H.
Qed.

Lemma fixed_body_appends st st' :
  Fixed.body E S twissdata model pnumber method st = Ok st' ->
  exists t_prev sige_new sige_i,
    vec_at (st_t st) (st_i st) = Ok t_prev /\
    st_t st'
    = push_back (st_t st)
        (t_prev + fixed_ddt S method st (st_ibs st'))%float /\
    st_sige st' = push_back (st_sige st) sige_new /\
    vec_at (st_sige st') (st_i st + 1) = Ok sige_i /\
    st_sige2 st' = push_back (st_sige2 st) (sige_i * sige_i)%float /\
    st_sigs st'
    = push_back (st_sigs st)
        (sigsfromsige E sige_i (gamma S) (gammatr S) (omegas S)).
Proof.
  intros H. pose proof (fixed_body_Ok _ _ _ _ _ _ _ _ H) as (_ & Hd & _).
  unfold Fixed.body in H. apply bind_Ok in H as (ibs & _ & H).
  unfold fixed_ddt in *.
  destruct (String.eqb method "rlx").
  - pose proof (relaxation_update_extends _ _ _ _ _ _ _ _ _ _ H eq_refl)
      as (_ & Hibs & _).
    apply relaxation_update_appends in H.
    replace (st_i st + 1 - 1) with (st_i st) in H by lia.
    rewrite Hibs. exact H.
  - apply derivative_update_appends in H.
    replace (st_i st + 1 - 1) with (st_i st) in H by lia. exact H.
Qed.

(** The energy spread either body appends is the step from [sige[i]], [i]
    being the loop variable before its increment. *)
Lemma relaxation_update_sige ibs ddt rx ry rs i st st' :
  relaxation_update E S ibs ddt rx ry rs i st = Ok st' ->
  exists sige_prev,
    vec_at (st_sige st) (i - 1) = Ok sige_prev /\
    st_sige st'
    = push_back (st_sige st)
        (sige_prev
         + ddt * (1 / (1 - rs) * Dbl.sqrt (equi S 5%nat) - sige_prev))%float.
Proof.
  unfold relaxation_update. intros H. run_inv H. injection H as <-. simpl.
  eauto.
Qed.

Lemma derivative_update_sige ibs ddt aes aex aey i st st' :
  derivative_update E S ibs ddt aes aex aey i st = Ok st' ->
  exists sige_prev,
    vec_at (st_sige st) (i - 1) = Ok sige_prev /\
    st_sige st'
    = push_back (st_sige st) (sige_prev + ddt * dedt S sige_prev aes)%float.
Proof.
  unfold derivative_update. intros H. run_inv H. injection H as <-. simpl.
  eauto.
Qed.

Lemma adaptive_body_sige st st' :
  Adaptive.body E S twissdata model pnumber method st = Ok st' ->
  exists ddt aes sige_prev,
    vec_at (st_sige st) (st_i st) = Ok sige_prev /\
    st_sige st'
    = push_back (st_sige st) (advance_sige S method ddt aes sige_prev).
Proof.
  unfold Adaptive.body, advance_sige. intros H.
  apply bind_Ok in H as (ibs & _ & H).
  destruct (String.eqb method "rlx");
    [apply relaxation_update_sige in H | apply derivative_update_sige in H];
    replace (st_i st + 1 - 1) with (st_i st) in H by lia;
    destruct H as (sige_prev & ? & ?); eauto 10.
Qed.

Lemma fixed_body_sige st st' :
  Fixed.body E S twissdata model pnumber method st = Ok st' ->
  exists ddt aes sige_prev,
    vec_at (st_sige st) (st_i st) = Ok sige_prev /\
    st_sige st'
    = push_back (st_sige st) (advance_sige S method ddt aes sige_prev).
Proof.
  unfold Fixed.body, advance_sige. intros H.
  apply bind_Ok in H as (ibs & _ & H).
  destruct (String.eqb method "rlx");
    [apply relaxation_update_sige in H | apply derivative_update_sige in H];
    replace (st_i st + 1 - 1) with (st_i st) in H by lia;
    destruct H as (sige_prev & ? & ?); eauto 10.
Qed.

End BodyFacts.

(** ** The fixed-step loop *)

Section FixedLoop.

Context (E : Externals) (S : Setup) (twissdata : twissdata_t) (model : Z)
        (pnumber : float) (method : string) (nsteps : Z).

Let body := Fixed.body E S twissdata model pnumber method.
Let cond := Fixed.cond nsteps.

Lemma fixed_body_extends a b : body a = Ok b -> extends 1 a b.
Proof. intros H. by apply fixed_body_Ok in H as [? _]. Qed.

Lemma fixed_loop_defined fuel st :
  1 <= model <= 13 -> ready st ->
  (1 <= fuel)%nat -> (Z.to_nat (nsteps - st_i st) <= fuel)%nat ->
  exists st', do_while body cond fuel st = Ok st'.
Proof.
  intros Hm Hr H1 Hfuel.
  apply (do_while_defined body cond ready
           (fun st => Z.to_nat (nsteps - st_i st))); auto.
  clear st Hr Hfuel. intros st Hr.
  destruct (fixed_body_defined E S twissdata model pnumber method st Hm Hr)
    as [st' Hb].
  exists st', (st_i st' <? nsteps). split; [exact Hb|].
  apply fixed_body_extends in Hb. split; [reflexivity|].
  split; [by eapply extends_ready|].
  intros Hc%Z.ltb_lt. pose proof (ext_i _ _ _ Hb). lia.
Qed.

(** The loop leaves with [i = max(i0 + 1, nsteps)] after as many
    iterations: the number of steps taken depends on [nsteps] only. *)
Lemma fixed_loop_count fuel st st' :
  do_while body cond fuel st = Ok st' ->
  st_i st' = Z.max (st_i st + 1) nsteps /\
  extends (Z.to_nat (st_i st' - st_i st)) st st'.
Proof.
  intros H.
  destruct (do_while_extends body cond fixed_body_extends _ _ _ H)
    as (n & Hn & Hext & Hstop).
  pose proof (ext_i _ _ _ Hext) as Hi.
  injection Hstop as Hstop. apply Z.ltb_ge in Hstop.
  replace (Z.to_nat (st_i st' - st_i st)) with n by lia.
  split; [|exact Hext].
  destruct (Z.eq_dec (st_i st') (st_i st + 1)) as [Heq|Hne]; [lia|].
  destruct (do_while_continued body cond fixed_body_extends _ _ _
              (st_i st' - 1) H) as (mid & m & Hk & Hc & _); [lia|].
  injection Hc as Hc. apply Z.ltb_lt in Hc. lia.
Qed.

End FixedLoop.

Section FixedRun.

Context (E : Externals) (twiss : twiss_t) (twissdata : twissdata_t)
        (nrf : Z) (harmon voltages : list float) (t ex ey sigs sige : vec)
        (model : Z) (pnumber : float) (nsteps : Z) (stepsize : float)
        (couplingpercentage : Z) (method : string).

Lemma nonempty_length {A : Type} (l : list A) :
  l <> [] -> 0 < Z.of_nat (length l).
Proof. destruct l; [done | simpl; lia]. Qed.

(** With a supported model and a seed in each of [t], [ex], [ey] and
    [sigs], the fixed-step entry point returns after [max(1, nsteps)]
    iterations, each of which has appended one element to every series. *)
Lemma fixed_ODE_returns :
  1 <= model <= 13 ->
  t <> [] -> ex <> [] -> ey <> [] -> sigs <> [] ->
  exists st sige0,
    Fixed.ODE E twiss twissdata nrf harmon voltages t ex ey sigs sige model
      pnumber nsteps stepsize couplingpercentage method = Ok st /\
    st_i st = Z.max 1 nsteps /\
    appended (Z.to_nat (Z.max 1 nsteps)) t (st_t st) /\
    appended (Z.to_nat (Z.max 1 nsteps)) ex (st_ex st) /\
    appended (Z.to_nat (Z.max 1 nsteps)) ey (st_ey st) /\
    appended (Z.to_nat (Z.max 1 nsteps)) sigs (st_sigs st) /\
    appended (Z.to_nat (Z.max 1 nsteps)) (push_back sige sige0) (st_sige st).
Proof.
  intros Hm Ht Hx Hy Hs.
  apply nonempty_length in Ht, Hx, Hy, Hs.
  unfold Fixed.ODE.
  destruct (vec_at_defined sigs 0) as [sigs_0 ->]; [lia|]. simpl.
  set (S := lattice_setup _ _ _ _ _ _ _).
  set (sige0 := Fixed.seed_sige E S nrf harmon voltages sigs_0).
  assert (0 < Z.of_nat (length (push_back sige sige0))) as He
    by (unfold push_back; rewrite length_app; simpl; lia).
  destruct (vec_at_defined (push_back sige sige0) 0) as [sige_0 ->]; [lia|].
  simpl.
  destruct (growth_rates_at_defined E S twissdata model pnumber ex ey sigs
              (push_back sige sige0) 0) as [ibs ->]; try lia.
  simpl.
  match goal with
  | |- context [do_while ?b ?c ?f ?s] =>
      destruct (fixed_loop_defined E S twissdata model pnumber
                  (sanitize_method method) nsteps f s) as [st Hst];
      [exact Hm | split; simpl; lia | lia | simpl; lia |]
  end.
  exists st, sige0. split; [exact Hst|].
  apply fixed_loop_count in Hst as [Hi Hext]. simpl in Hi.
  rewrite Hi in Hext. simpl in Hext.
  replace (Z.max (0 + 1) nsteps - 0) with (Z.max 1 nsteps) in Hext by lia.
  split; [lia|]. destruct Hext; simpl in *. auto.
Qed.

End FixedRun.

(** ** The adaptive loop *)

Lemma rel_change_defined (v : vec) (i : Z) :
  1 <= i < Z.of_nat (length v) -> exists c, Adaptive.rel_change v i = Ok c.
Proof.
  intros Hi. unfold Adaptive.rel_change.
  destruct (vec_at_defined v i) as [a ->]; [lia|].
  destruct (vec_at_defined v (i - 1)) as [b ->]; [lia|].
  simpl. eauto.
Qed.

Lemma rel_change_appended (n : nat) (v w : vec) (i : Z) (c : float) :
  appended n v w -> Adaptive.rel_change v i = Ok c ->
  Adaptive.rel_change w i = Ok c.
Proof.
  intros Hvw H. unfold Adaptive.rel_change in *.
  apply bind_Ok in H as (a & Ha & H). apply bind_Ok in H as (b & Hb & H).
  rewrite (appended_vec_at _ _ _ _ _ Hvw Ha).
  rewrite (appended_vec_at _ _ _ _ _ Hvw Hb). exact H.
Qed.

Lemma exceeds_appended (n : nat) (threshold : float) (v w : vec) (k : Z) :
  appended n v w -> exceeds threshold v k -> exceeds threshold w k.
Proof.
  intros Hvw (c & Hc & Hgt). exists c. split; [|exact Hgt].
  by eapply rel_change_appended.
Qed.

Section AdaptiveLoop.

Context (E : Externals) (S : Setup) (twissdata : twissdata_t) (model : Z)
        (pnumber : float) (method : string) (ms : Z) (threshold : float).

Let body := Adaptive.body E S twissdata model pnumber method.
Let cond := Adaptive.cond ms threshold.

Lemma adaptive_body_extends a b : body a = Ok b -> extends 1 a b.
Proof. intros H. by apply adaptive_body_Ok in H as [? _]. Qed.

(** The loop goes on only below the budget and with a relative change
    above the threshold. *)
Lemma adaptive_cond_true st :
  cond st = Ok true ->
  st_i st < ms /\
  (exceeds threshold (st_ex st) (st_i st)
   \/ exceeds threshold (st_ey st) (st_i st)
   \/ exceeds threshold (st_sigs st) (st_i st)).
Proof.
  unfold cond, Adaptive.cond, exceeds.
  destruct (Z.ltb_spec (st_i st) ms) as [Hlt|Hge]; [|discriminate].
  intros H. split; [exact Hlt|].
  apply bind_Ok in H as (cx & Hx & H).
  destruct (threshold <? cx)%float eqn:Ex; [eauto|].
  apply bind_Ok in H as (cy & Hy & H).
  destruct (threshold <? cy)%float eqn:Ey; [eauto|].
  apply bind_Ok in H as (cs & Hs & H). injection H as H. eauto 6.
Qed.

(** It stops at the budget, or when no relative change is above the
    threshold. *)
Lemma adaptive_cond_false st :
  cond st = Ok false ->
  ms <= st_i st \/
  (within threshold (st_ex st) (st_i st)
   /\ within threshold (st_ey st) (st_i st)
   /\ within threshold (st_sigs st) (st_i st)).
Proof.
  unfold cond, Adaptive.cond, within.
  destruct (Z.ltb_spec (st_i st) ms) as [Hlt|Hge]; [|auto].
  intros H. right.
  apply bind_Ok in H as (cx & Hx & H).
  destruct (threshold <? cx)%float eqn:Ex; [discriminate|].
  apply bind_Ok in H as (cy & Hy & H).
  destruct (threshold <? cy)%float eqn:Ey; [discriminate|].
  apply bind_Ok in H as (cs & Hs & H). injection H as H. eauto 10.
Qed.

Lemma adaptive_cond_defined st :
  1 <= st_i st -> ready st -> exists c, cond st = Ok c.
Proof.
  intros Hi []. unfold cond, Adaptive.cond.
  destruct (st_i st <? ms); [|eauto].
  destruct (rel_change_defined (st_ex st) (st_i st)) as [cx ->]; [lia|].
  simpl. destruct (threshold <? cx)%float; [eauto|].
  destruct (rel_change_defined (st_ey st) (st_i st)) as [cy ->]; [lia|].
  simpl. destruct (threshold <? cy)%float; [eauto|].
  destruct (rel_change_defined (st_sigs st) (st_i st)) as [cs ->]; [lia|].
  simpl. eauto.
Qed.

Lemma adaptive_loop_defined fuel st :
  1 <= model <= 13 -> ready st ->
  (1 <= fuel)%nat -> (Z.to_nat (ms - st_i st) <= fuel)%nat ->
  exists st', do_while body cond fuel st = Ok st'.
Proof.
  intros Hm Hr H1 Hfuel.
  apply (do_while_defined body cond ready
           (fun st => Z.to_nat (ms - st_i st))); auto.
  clear st Hr Hfuel. intros st Hr.
  destruct (adaptive_body_defined E S twissdata model pnumber method st
              Hm Hr) as [st' Hb].
  pose proof (adaptive_body_extends _ _ Hb) as Hext.
  pose proof (ext_i _ _ _ Hext) as Hi.
  pose proof (extends_ready _ _ Hext Hr) as Hr'.
  destruct (adaptive_cond_defined st') as [c Hc];
    [destruct Hr; lia | exact Hr' |].
  exists st', c. split; [exact Hb|]. split; [exact Hc|].
  split; [exact Hr'|].
  intros ->. apply adaptive_cond_true in Hc as [Hlt _]. lia.
Qed.

(** What a returning loop has done: [n >= 1] iterations; it has stopped
    at the budget or on relative changes not above the threshold; and
    after each earlier iteration it was below the budget with a relative
    change above the threshold. *)
Lemma adaptive_loop_stops fuel st st' :
  do_while body cond fuel st = Ok st' ->
  st_i st < st_i st' /\
  extends (Z.to_nat (st_i st' - st_i st)) st st' /\
  (ms <= st_i st' \/
   (within threshold (st_ex st') (st_i st')
    /\ within threshold (st_ey st') (st_i st')
    /\ within threshold (st_sigs st') (st_i st'))) /\
  (forall k, st_i st < k < st_i st' ->
     k < ms /\
     (exceeds threshold (st_ex st') k
      \/ exceeds threshold (st_ey st') k
      \/ exceeds threshold (st_sigs st') k)).
Proof.
  intros H.
  destruct (do_while_extends body cond adaptive_body_extends _ _ _ H)
    as (n & Hn & Hext & Hstop).
  pose proof (ext_i _ _ _ Hext) as Hi.
  replace (Z.to_nat (st_i st' - st_i st)) with n by lia.
  split; [lia|]. split; [exact Hext|].
  split; [by apply adaptive_cond_false|].
  intros k Hk.
  destruct (do_while_continued body cond adaptive_body_extends _ _ _ k H Hk)
    as (mid & m & <- & Hc & Hmid).
  apply adaptive_cond_true in Hc as [Hlt Hc]. split; [exact Hlt|].
  destruct Hmid.
  destruct Hc as [Hc|[Hc|Hc]]; [left|right; left|right; right];
    eapply exceeds_appended; eassumption.
Qed.

End AdaptiveLoop.

(** With a seed in [t], the initial growth rates defined and a budget that
    is an [int], the adaptive entry point returns. *)
Lemma adaptive_ODE_returns
    (E : Externals) (twiss : twiss_t) (twissdata : twissdata_t) (nrf : Z)
    (harmon voltages : list float) (t ex ey sigs sige : vec) (model : Z)
    (pnumber : float) (couplingpercentage : Z) (threshold : float)
    (method : string) :
  t <> [] ->
  budgeted E twiss twissdata nrf harmon voltages ex ey sigs sige model
    pnumber couplingpercentage ->
  exists st,
    Adaptive.ODE E twiss twissdata nrf harmon voltages t ex ey sigs sige
      model pnumber couplingpercentage threshold method = Ok st.
Proof.
  intros Ht (ibs0 & ms & Hibs & Hms). cbv zeta in Hibs, Hms.
  unfold Adaptive.ODE.
  set (S := lattice_setup _ _ _ _ _ _ _) in *.
  set (sige' := push_back sige _) in *.
  assert (1 <= model <= 13) as Hmodel.
  { unfold growth_rates_at in Hibs. run_inv Hibs.
    by eapply growth_rates_model. }
  assert (0 < Z.of_nat (length ex) /\ 0 < Z.of_nat (length ey)
          /\ 0 < Z.of_nat (length sigs)) as (Hx & Hy & Hs).
  { unfold growth_rates_at in Hibs.
    apply bind_Ok in Hibs as (a & Ha%vec_at_range & Hibs).
    apply bind_Ok in Hibs as (b & Hb%vec_at_range & Hibs).
    apply bind_Ok in Hibs as (c & Hc%vec_at_range & Hibs). lia. }
  apply nonempty_length in Ht.
  assert (0 < Z.of_nat (length sige')) as He
    by (unfold sige', push_back; rewrite length_app; simpl; lia).
  destruct (vec_at_defined sige' 0) as [sige_0 ->]; [lia|]. simpl.
  rewrite Hibs. simpl. rewrite Hms. simpl.
  apply adaptive_loop_defined; [exact Hmodel | split; simpl; lia | lia |].
  cbn [st_i]. lia.
Qed.

(** ** The fuel of the embedding is never used up *)

Lemma bind_no_fuel {A B : Type} (m : result A) (f : A -> result B) :
  m <> OutOfFuel -> (forall a, f a <> OutOfFuel) -> bind m f <> OutOfFuel.
Proof. destruct m; simpl; auto. Qed.

(** Goes through a sequence of [do]s whose steps are lookups. *)
Ltac no_fuel :=
  repeat (apply bind_no_fuel; [try apply vec_at_no_fuel | intros ?]);
  try discriminate.

Section NoFuel.

Context (E : Externals) (S : Setup) (twissdata : twissdata_t) (model : Z)
        (pnumber : float) (method : string).

Lemma growth_rates_no_fuel ex ey sigs sige :
  growth_rates E S twissdata model pnumber ex ey sigs sige <> OutOfFuel.
Proof.
  unfold growth_rates. destruct model as [|p|p]; try discriminate.
  repeat match goal with
         | |- context [match ?q with xH => _ | _ => _ end] =>
             destruct q; try discriminate
         end.
Qed.

Lemma growth_rates_at_no_fuel ex ey sigs sige k :
  growth_rates_at E S twissdata model pnumber ex ey sigs sige k <> OutOfFuel.
Proof. unfold growth_rates_at. no_fuel; apply growth_rates_no_fuel. Qed.

Lemma relaxation_update_no_fuel ibs ddt rx ry rs i st :
  relaxation_update E S ibs ddt rx ry rs i st <> OutOfFuel.
Proof. unfold relaxation_update. no_fuel. Qed.

Lemma derivative_update_no_fuel ibs ddt aes aex aey i st :
  derivative_update E S ibs ddt aes aex aey i st <> OutOfFuel.
Proof. unfold derivative_update. no_fuel. Qed.

Lemma adaptive_body_no_fuel st :
  Adaptive.body E S twissdata model pnumber method st <> OutOfFuel.
Proof.
  unfold Adaptive.body.
  apply bind_no_fuel; [apply growth_rates_at_no_fuel | intros ibs].
  destruct (String.eqb method "rlx");
    [apply relaxation_update_no_fuel | apply derivative_update_no_fuel].
Qed.

Lemma fixed_body_no_fuel st :
  Fixed.body E S twissdata model pnumber method st <> OutOfFuel.
Proof.
  unfold Fixed.body.
  apply bind_no_fuel; [apply growth_rates_at_no_fuel | intros ibs].
  destruct (String.eqb method "rlx");
    [apply relaxation_update_no_fuel | apply derivative_update_no_fuel].
Qed.

Lemma adaptive_cond_no_fuel ms threshold st :
  Adaptive.cond ms threshold st <> OutOfFuel.
Proof.
  unfold Adaptive.cond, Adaptive.rel_change.
  destruct (st_i st <? ms); [|discriminate].
  no_fuel. destruct (threshold <? _)%float; [discriminate|].
  no_fuel. destruct (threshold <? _)%float; [discriminate|].
  no_fuel.
Qed.

End NoFuel.

Section EntryPointsNoFuel.

Context (E : Externals) (twiss : twiss_t) (twissdata : twissdata_t)
        (nrf : Z) (harmon voltages : list float) (t ex ey sigs sige : vec)
        (model : Z) (pnumber : float) (couplingpercentage : Z)
        (method : string).

(** The adaptive entry point returns or is undefined: the loop stops at
    the budget at the latest. *)
Lemma adaptive_ODE_fuel threshold :
  Adaptive.ODE E twiss twissdata nrf harmon voltages t ex ey sigs sige
    model pnumber couplingpercentage threshold method <> OutOfFuel.
Proof.
  unfold Adaptive.ODE.
  apply bind_no_fuel; [apply vec_at_no_fuel | intros sige_0].
  apply bind_no_fuel; [apply growth_rates_at_no_fuel | intros ibs].
  apply bind_no_fuel.
  { unfold Adaptive.budget, Dbl.to_int.
    destruct (Prim2SF _); simpl; try discriminate.
    destruct (_ && _); discriminate. }
  intros ms. apply (do_while_no_fuel _ _ ms).
  - intros a b Hb. apply adaptive_body_extends in Hb.
    apply (ext_i _ _ _ Hb).
  - apply adaptive_body_no_fuel.
  - apply adaptive_cond_no_fuel.
  - intros a Ha. by apply adaptive_cond_true in Ha as [? _].
  - lia.
  - simpl. lia.
Qed.

(** So does the fixed-step entry point: its loop stops at [nsteps]. *)
Lemma fixed_ODE_fuel nsteps stepsize :
  Fixed.ODE E twiss twissdata nrf harmon voltages t ex ey sigs sige
    model pnumber nsteps stepsize couplingpercentage method <> OutOfFuel.
Proof.
  unfold Fixed.ODE.
  apply bind_no_fuel; [apply vec_at_no_fuel | intros sigs_0].
  apply bind_no_fuel; [apply vec_at_no_fuel | intros sige_0].
  apply bind_no_fuel; [apply growth_rates_at_no_fuel | intros ibs].
  apply (do_while_no_fuel _ _ nsteps).
  - intros a b Hb. apply fixed_body_extends in Hb. apply (ext_i _ _ _ Hb).
  - apply fixed_body_no_fuel.
  - discriminate.
  - intros a [= Ha]. by apply Z.ltb_lt.
  - lia.
  - simpl. lia.
Qed.

(** In the relaxation scheme of the fixed-step entry point a product
    [tau * rate >= 1] halves the step size before the update. *)
Lemma fixed_relaxation_halves (S : Setup) st st' :
  Fixed.body E S twissdata model pnumber "rlx" st = Ok st' ->
  ((1 <=? tauradx S * st_ibs st' 1%nat)%float = true
   \/ (1 <=? taurady S * st_ibs st' 2%nat)%float = true
   \/ (1 <=? taurads S * st_ibs st' 0%nat)%float = true) ->
  st_ddt st' = (st_ddt st / 2)%float.
Proof.
  intros (_ & Hd & _)%fixed_body_Ok H. rewrite Hd. unfold fixed_ddt. simpl.
  destruct H as [-> | [-> | ->]]; by rewrite ?orb_true_r.
Qed.

End EntryPointsNoFuel.

(** * The claims of the specification *)

(** ** What a call leaves to its caller *)

Section Calls.

Context (E : Externals) (twiss : twiss_t) (twissdata : twissdata_t)
        (nrf : Z) (harmon voltages : list float) (model : Z)
        (pnumber : float) (couplingpercentage : Z) (method : string).

Lemma adaptive_ODE_appends t ex ey sigs sige threshold st :
  Adaptive.ODE E twiss twissdata nrf harmon voltages t ex ey sigs sige
    model pnumber couplingpercentage threshold method = Ok st ->
  exists n, (1 <= n)%nat /\ st_i st = Z.of_nat n /\
    appended n t (st_t st) /\ appended n ex (st_ex st) /\
    appended n ey (st_ey st) /\ appended n sigs (st_sigs st).
Proof.
  unfold Adaptive.ODE. intros H. run_inv H.
  apply do_while_extends in H as (n & Hn & [] & _);
    [|apply adaptive_body_extends].
  exists n. simpl in *. repeat (split; [first [lia | assumption]|]).
  assumption.
Qed.

Lemma fixed_ODE_appends t ex ey sigs sige nsteps stepsize st :
  Fixed.ODE E twiss twissdata nrf harmon voltages t ex ey sigs sige
    model pnumber nsteps stepsize couplingpercentage method = Ok st ->
  exists n, (1 <= n)%nat /\ st_i st = Z.of_nat n /\
    appended n t (st_t st) /\ appended n ex (st_ex st) /\
    appended n ey (st_ey st) /\ appended n sigs (st_sigs st).
Proof.
  unfold Fixed.ODE. intros H. run_inv H.
  apply do_while_extends in H as (n & Hn & [] & _);
    [|apply fixed_body_extends].
  exists n. simpl in *. repeat (split; [first [lia | assumption]|]).
  assumption.
Qed.

(** C1, what the code does.  [sige] is a by-value parameter of both
    overloads: a call that returns has appended the same number [n >= 1]
    of elements to the caller's [t], [ex], [ey] and [sigs] and has left
    the caller's [sige] as it was.  Five series of one common length
    before the call are therefore not of one common length after it. *)
Theorem caller_sige_is_not_extended
    (c c' : Caller) (threshold : float) (nsteps : Z) (stepsize : float) :
  Adaptive.call E twiss twissdata nrf harmon voltages c model pnumber
    couplingpercentage threshold method = Ok c'
  \/ Fixed.call E twiss twissdata nrf harmon voltages c model pnumber
       nsteps stepsize couplingpercentage method = Ok c' ->
  c_sige c' = c_sige c /\
  exists n, (1 <= n)%nat /\
    length (c_t c') = (length (c_t c) + n)%nat /\
    length (c_ex c') = (length (c_ex c) + n)%nat /\
    length (c_ey c') = (length (c_ey c) + n)%nat /\
    length (c_sigs c') = (length (c_sigs c) + n)%nat.
Proof.
  unfold Adaptive.call, Fixed.call.
  intros [H|H]; apply bind_Ok in H as (st & Hst & H); injection H as <-;
    (split; [reflexivity|]);
    [apply adaptive_ODE_appends in Hst | apply fixed_ODE_appends in Hst];
    destruct Hst as (n & Hn & _ & At & Ax & Ay & As);
    exists n; simpl;
    apply appended_length in At, Ax, Ay, As; auto.
Qed.

End Calls.

(** After three fixed steps from one seed each, the caller holds four
    points of [t], [ex], [ey] and [sigs] and still one of [sige]. *)
Lemma caller_sige_is_not_extended_witness :
  exists c',
    Fixed.call demo ∅ ∅ 1 [] [] demo_caller 1 1 3 0.125 0 "der" = Ok c' /\
    c_sige c' = [7%float] /\
    exists n, (1 <= n)%nat /\
      length (c_t c') = (1 + n)%nat /\ length (c_ex c') = (1 + n)%nat /\
      length (c_ey c') = (1 + n)%nat /\ length (c_sigs c') = (1 + n)%nat.
Proof.
  eexists. split; [vm_compute; reflexivity|].
  apply (caller_sige_is_not_extended demo ∅ ∅ 1 [] [] 1 1%float 0 "der"
           demo_caller _ 0.5%float 3 0.125%float).
  right. vm_compute. reflexivity.
Defined.

(** ** When the adaptive loop stops *)

Section AdaptiveRun.

Context (E : Externals) (twiss : twiss_t) (twissdata : twissdata_t)
        (nrf : Z) (harmon voltages : list float) (t ex ey sigs sige : vec)
        (model : Z) (pnumber : float) (couplingpercentage : Z)
        (threshold : float) (method : string).

(** C2, amended.  In the adaptive entry point, [ms = min((int)(10 * taum / ddt),
    10000)] with [taum = min(max(tauradx, taurady, taurads, 1/ibs[0],
    1/ibs[1], 1/ibs[2]), 1.0)] and [ddt] the corresponding minimum, both
    from the growth rates [ibs0] of the initial point.  The call returns
    after [i >= 1] iterations (one element appended to each series per
    iteration), and [i] is the first step index at which the budget is
    reached ([ms <= i]) or none of the relative changes of [ex], [ey] and
    [sigs] between the last two points is above the sanitized threshold
    (the test of the code is [fabs(..) > threshold]): at every earlier
    index the budget was not reached and a relative change was above the
    threshold. *)
Theorem adaptive_stops_at_budget_or_convergence (ibs0 : array) (m : Z) :
  let S :=
    lattice_setup E twiss twissdata nrf harmon voltages
      (sanitize_coupling couplingpercentage) in
  let thr := sanitize_threshold threshold in
  let ms := Z.min m 10000 in
  t <> [] ->
  growth_rates_at E S twissdata model pnumber ex ey sigs
    (push_back sige (Adaptive.seed_sige E S nrf harmon voltages)) 0
  = Ok ibs0 ->
  Dbl.to_int (10 * Dbl.min (tau_max S ibs0) 1 / tau_min S ibs0)%float
  = Ok m ->
  exists st,
    Adaptive.ODE E twiss twissdata nrf harmon voltages t ex ey sigs sige
      model pnumber couplingpercentage threshold method = Ok st /\
    1 <= st_i st /\
    appended (Z.to_nat (st_i st)) t (st_t st) /\
    appended (Z.to_nat (st_i st)) ex (st_ex st) /\
    appended (Z.to_nat (st_i st)) ey (st_ey st) /\
    appended (Z.to_nat (st_i st)) sigs (st_sigs st) /\
    (ms <= st_i st \/
     (within thr (st_ex st) (st_i st)
      /\ within thr (st_ey st) (st_i st)
      /\ within thr (st_sigs st) (st_i st))) /\
    (forall k, 1 <= k < st_i st ->
       k < ms /\
       (exceeds thr (st_ex st) k \/ exceeds thr (st_ey st) k
        \/ exceeds thr (st_sigs st) k)).
Proof.
  intros S thr ms Ht Hibs Hm.
  assert (1 <= model <= 13) as Hmodel.
  { unfold growth_rates_at in Hibs. run_inv Hibs.
    by eapply growth_rates_model. }
  assert (0 < Z.of_nat (length ex) /\ 0 < Z.of_nat (length ey)
          /\ 0 < Z.of_nat (length sigs)) as (Hx & Hy & Hs).
  { unfold growth_rates_at in Hibs.
    apply bind_Ok in Hibs as (a & Ha%vec_at_range & Hibs).
    apply bind_Ok in Hibs as (b & Hb%vec_at_range & Hibs).
    apply bind_Ok in Hibs as (c & Hc%vec_at_range & Hibs). lia. }
  apply nonempty_length in Ht.
  unfold Adaptive.ODE. fold S thr.
  set (sige' := push_back sige (Adaptive.seed_sige E S nrf harmon voltages))
    in *.
  assert (0 < Z.of_nat (length sige')) as He
    by (unfold sige', push_back; rewrite length_app; simpl; lia).
  destruct (vec_at_defined sige' 0) as [sige_0 ->]; [lia|]. simpl.
  rewrite Hibs. simpl. unfold Adaptive.budget. rewrite Hm. simpl.
  change (Z.min m Adaptive.MaxSteps) with ms.
  match goal with
  | |- context [do_while ?b ?c ?f ?s] =>
      destruct (adaptive_loop_defined E S twissdata model pnumber
                  (sanitize_method method) ms thr f s) as [st Hst];
      [exact Hmodel | split; simpl; lia | lia | cbn [st_i]; lia |]
  end.
  exists st. split; [exact Hst|].
  apply adaptive_loop_stops in Hst as (Hi & Hext & Hstop & Hgo).
  simpl in Hi, Hext, Hgo.
  replace (st_i st - 0) with (st_i st) in Hext by lia.
  destruct Hext; simpl in *.
  repeat (split; [first [lia | assumption]|]).
  intros k Hk. apply Hgo. lia.
Qed.

End AdaptiveRun.

(** On the sample ring without growth, the budget is 20 and the call returns. *)
Lemma adaptive_stops_at_budget_or_convergence_witness :
  exists st,
    Adaptive.ODE demo ∅ ∅ 1 [] [] [0%float] [1%float] [1%float] [5%float]
      [7%float] 1 1 0 0.5 "rlx" = Ok st /\
    1 <= st_i st.
Proof.
  destruct (adaptive_stops_at_budget_or_convergence demo ∅ ∅ 1 [] []
              [0%float] [1%float] [1%float] [5%float] [7%float] 1 1%float 0
              0.5%float "rlx" (rates 0 0 0) 20)
    as (st & Hst & Hi & _).
  - discriminate.
  - reflexivity.
  - vm_compute. reflexivity.
  - exists st. split; [exact Hst | exact Hi].
Defined.

(** C2 as stated fails when a relative change equals the threshold.  With
    threshold 1.0 (which the sanitizing keeps) the budget of the sample ring
    is 20, and the first step takes [ex] from 1 to 2: the loop stops at
    index 1, below the budget, with a relative change of [ex] that is 1.0
    and so not below the threshold. *)
Lemma adaptive_stops_on_equal_change_counterexample :
  exists st,
    Adaptive.ODE demo ∅ ∅ 1 [] [] [0%float] [1%float] [1%float] [5%float]
      [7%float] 1 1 0 1 "der" = Ok st /\
    sanitize_threshold 1 = 1%float /\
    Adaptive.budget (lattice_setup demo ∅ ∅ 1 [] [] 0) (rates 0 0 0) = Ok 20 /\
    st_i st = 1 /\
    st_ex st = [1%float; 2%float] /\
    Adaptive.rel_change (st_ex st) 1 = Ok 1%float /\
    (1 <? 1)%float = false.
Proof.
  eexists. split; [vm_compute; reflexivity|].
  repeat split; vm_compute; reflexivity.
Qed.

(** ** Which energy spread the bunch length is computed from *)

Section BunchLength.

Context (E : Externals) (S : Setup) (method : string)
        (body : State -> result State) (cond : State -> result bool).

Hypothesis body_extends : forall a b, body a = Ok b -> extends 1 a b.
Hypothesis body_sige :
  forall a b, body a = Ok b ->
  exists ddt aes sige_prev,
    vec_at (st_sige a) (st_i a) = Ok sige_prev /\
    st_sige b
    = push_back (st_sige a) (advance_sige S method ddt aes sige_prev).
Hypothesis body_appends :
  forall a b, body a = Ok b ->
  exists sige_i,
    vec_at (st_sige b) (st_i a + 1) = Ok sige_i /\
    st_sige2 b = push_back (st_sige2 a) (sige_i * sige_i)%float /\
    st_sigs b
    = push_back (st_sigs a)
        (sigsfromsige E sige_i (gamma S) (gammatr S) (omegas S)).

Lemma loop_bunch_length fuel st0 st k :
  do_while body cond fuel st0 = Ok st ->
  st_i st0 <= k < st_i st ->
  exists ddt aes sige_prev sige_i,
    vec_at (st_sige st) k = Ok sige_prev /\
    vec_at (st_sige st) (Z.of_nat (length (st_sige st0)) + (k - st_i st0))
    = Ok (advance_sige S method ddt aes sige_prev) /\
    vec_at (st_sige st) (k + 1) = Ok sige_i /\
    vec_at (st_sigs st) (Z.of_nat (length (st_sigs st0)) + (k - st_i st0))
    = Ok (sigsfromsige E sige_i (gamma S) (gammatr S) (omegas S)) /\
    vec_at (st_sige2 st) (Z.of_nat (length (st_sige2 st0)) + (k - st_i st0))
    = Ok (sige_i * sige_i)%float.
Proof.
  intros H Hk.
  destruct (do_while_steps body cond (fun _ => True) body_extends
              (fun _ _ _ _ => I) fuel st0 st k I H Hk)
    as (a & b & n & m & Ha & _ & Hia & Hb & Hbst).
  destruct (body_sige _ _ Hb) as (ddt & aes & sige_prev & Hp & He).
  destruct (body_appends _ _ Hb) as (sige_i & Hi & He2 & Hs).
  exists ddt, aes, sige_prev, sige_i.
  pose proof (body_extends _ _ Hb) as Hab.
  pose proof (ext_i _ _ _ Ha) as Hn.
  pose proof (appended_length _ _ _ (ext_sige _ _ _ Ha)) as Le.
  pose proof (appended_length _ _ _ (ext_sigs _ _ _ Ha)) as Ls.
  pose proof (appended_length _ _ _ (ext_sige2 _ _ _ Ha)) as Le2.
  replace (k - st_i st0) with (Z.of_nat n) by lia.
  rewrite Hia in Hi, Hp.
  split; [|split; [|split; [|split]]].
  - eapply appended_vec_at; [apply (ext_sige _ _ _ Hbst)|].
    eapply appended_vec_at; [apply (ext_sige _ _ _ Hab) | exact Hp].
  - eapply appended_vec_at; [apply (ext_sige _ _ _ Hbst)|].
    rewrite He.
    replace (Z.of_nat (length (st_sige st0)) + Z.of_nat n)
      with (Z.of_nat (length (st_sige a))) by lia.
    apply vec_at_push_back_new.
  - eapply appended_vec_at; [apply (ext_sige _ _ _ Hbst) | exact Hi].
  - eapply appended_vec_at; [apply (ext_sigs _ _ _ Hbst)|].
    rewrite Hs.
    replace (Z.of_nat (length (st_sigs st0)) + Z.of_nat n)
      with (Z.of_nat (length (st_sigs a))) by lia.
    apply vec_at_push_back_new.
  - eapply appended_vec_at; [apply (ext_sige2 _ _ _ Hbst)|].
    rewrite He2.
    replace (Z.of_nat (length (st_sige2 st0)) + Z.of_nat n)
      with (Z.of_nat (length (st_sige2 a))) by lia.
    apply vec_at_push_back_new.
Qed.

End BunchLength.

Section BunchLengthOfTheRuns.

Context (E : Externals) (twiss : twiss_t) (twissdata : twissdata_t)
        (nrf : Z) (harmon voltages : list float) (t ex ey sigs sige : vec)
        (model : Z) (pnumber : float) (couplingpercentage : Z)
        (method : string).

(** C3, what the code does.  In the iteration that starts with loop
    variable [k], of either scheme and either entry point, the energy
    spread is advanced from [sige[k]] and the new value is appended to
    [sige], behind the caller's entries and the seed: it is
    [sige[length sige + 1 + k]].  The bunch length and the squared energy
    spread appended in that iteration are computed from [sige[k + 1]].  For
    a caller's [sige] with one entry that is not the new value
    [sige[k + 2]] but the element before it: the seed [sige0] in the first
    iteration, the value advanced one iteration earlier afterwards. *)
Theorem bunch_length_from_sige_at_loop_variable
    (threshold : float) (nsteps : Z) (stepsize : float) (st : State) :
  Adaptive.ODE E twiss twissdata nrf harmon voltages t ex ey sigs sige
    model pnumber couplingpercentage threshold method = Ok st
  \/ Fixed.ODE E twiss twissdata nrf harmon voltages t ex ey sigs sige
       model pnumber nsteps stepsize couplingpercentage method = Ok st ->
  let S :=
    lattice_setup E twiss twissdata nrf harmon voltages
      (sanitize_coupling couplingpercentage) in
  forall k, 0 <= k < st_i st ->
  exists ddt aes sige_prev sige_i,
    vec_at (st_sige st) k = Ok sige_prev /\
    vec_at (st_sige st) (Z.of_nat (length sige) + 1 + k)
    = Ok (advance_sige S (sanitize_method method) ddt aes sige_prev) /\
    vec_at (st_sige st) (k + 1) = Ok sige_i /\
    vec_at (st_sigs st) (Z.of_nat (length sigs) + k)
    = Ok (sigsfromsige E sige_i (gamma S) (gammatr S) (omegas S)) /\
    vec_at (st_sige2 st) (1 + k) = Ok (sige_i * sige_i)%float.
Proof.
  intros H S k Hk. destruct H as [H|H].
  - unfold Adaptive.ODE in H. fold S in H. run_inv H.
    eapply (loop_bunch_length E S (sanitize_method method)) in H
      as (ddt & aes & sp & si & H0 & H1 & H2 & H3 & H4);
      [| apply adaptive_body_extends
       | intros a b Hb; by apply adaptive_body_sige in Hb
       | intros a b Hb; apply adaptive_body_appends in Hb
           as (? & ? & si & _ & _ & _ & ? & ? & ?); eauto 10
       | simpl; exact Hk].
    simpl in H1, H3, H4. unfold push_back in H1. rewrite length_app in H1.
    simpl in H1.
    exists ddt, aes, sp, si. replace (k - 0) with k in * by lia.
    change (Z.of_nat 1) with 1 in H4.
    replace (Z.of_nat (length sige) + 1 + k)
      with (Z.of_nat (length sige + 1) + k) by lia. auto 10.
  - unfold Fixed.ODE in H. fold S in H. run_inv H.
    eapply (loop_bunch_length E S (sanitize_method method)) in H
      as (ddt & aes & sp & si & H0 & H1 & H2 & H3 & H4);
      [| apply fixed_body_extends
       | intros a b Hb; by apply fixed_body_sige in Hb
       | intros a b Hb; apply fixed_body_appends in Hb
           as (? & ? & si & _ & _ & _ & ? & ? & ?); eauto 10
       | simpl; exact Hk].
    simpl in H1, H3, H4. unfold push_back in H1. rewrite length_app in H1.
    simpl in H1.
    exists ddt, aes, sp, si. replace (k - 0) with k in * by lia.
    change (Z.of_nat 1) with 1 in H4.
    replace (Z.of_nat (length sige) + 1 + k)
      with (Z.of_nat (length sige + 1) + k) by lia. auto 10.
Qed.

End BunchLengthOfTheRuns.

(** One fixed step from the caller's single energy spread 7 (the bunch
    length is 5, and the sample [sigsfromsige] returns the energy spread it
    is given): the new energy spread is 5.75, at [sige[2]]; the bunch length
    and the square appended are those of the seed 5, at [sige[1]]. *)
Lemma bunch_length_from_sige_at_loop_variable_witness :
  exists st,
    Fixed.ODE demo ∅ ∅ 1 [] [] [0%float] [1%float] [1%float] [5%float]
      [7%float] 1 1 1 0.125 0 "der" = Ok st /\
    vec_at (st_sige st) 0 = Ok 7%float /\
    vec_at (st_sige st) 2 = Ok 5.75%float /\
    vec_at (st_sige st) 1 = Ok 5%float /\
    vec_at (st_sigs st) 1 = Ok 5%float /\
    vec_at (st_sige2 st) 1 = Ok 25%float.
Proof.
  eexists.
  match goal with
  | |- ?run = Ok ?st /\ _ =>
      assert (run = Ok st) as Hrun by (vm_compute; reflexivity);
      pose proof (bunch_length_from_sige_at_loop_variable demo ∅ ∅ 1 [] []
                    [0%float] [1%float] [1%float] [5%float] [7%float] 1
                    1%float 0 "der" 0.5%float 1 0.125%float st
                    (or_intror Hrun) 0) as Hstep
  end.
  assert (0 <= 0 < 1) as Hk by lia. specialize (Hstep Hk).
  destruct Hstep as (ddt & aes & sige_prev & sige_i & Hprev & Hnew & Hi
                     & Hsigs & Hsq).
  split; [exact Hrun|].
  vm_compute in Hprev. injection Hprev as <-.
  vm_compute in Hi. injection Hi as <-.
  split; [reflexivity|]. split; [reflexivity|]. split; [reflexivity|].
  split; [exact Hsigs | exact Hsq].
Defined.

(** ** The length of the fixed-step series *)

(** C4, amended. No convergence test is made in fixed mode: with a supported
    model and one seed in each of [t], [ex], [ey] and [sigs], the call
    returns, and for a step count [nsteps >= 1] the caller's series [t],
    [ex], [ey] and [sigs] have length exactly [nsteps + 1] whatever the
    trajectory does; for [nsteps <= 0] the body of the do-while loop still
    runs once and the series have length 2. *)
Theorem fixed_series_length
    (E : Externals) (twiss : twiss_t) (twissdata : twissdata_t) (nrf : Z)
    (harmon voltages : list float) (c : Caller) (model : Z) (pnumber : float)
    (nsteps : Z) (stepsize : float) (couplingpercentage : Z)
    (method : string) :
  1 <= model <= 13 ->
  length (c_t c) = 1%nat -> length (c_ex c) = 1%nat ->
  length (c_ey c) = 1%nat -> length (c_sigs c) = 1%nat ->
  exists c',
    Fixed.call E twiss twissdata nrf harmon voltages c model pnumber nsteps
      stepsize couplingpercentage method = Ok c' /\
    (1 <= nsteps ->
     length (c_t c') = (Z.to_nat nsteps + 1)%nat /\
     length (c_ex c') = (Z.to_nat nsteps + 1)%nat /\
     length (c_ey c') = (Z.to_nat nsteps + 1)%nat /\
     length (c_sigs c') = (Z.to_nat nsteps + 1)%nat) /\
    (nsteps <= 0 ->
     length (c_t c') = 2%nat /\ length (c_ex c') = 2%nat /\
     length (c_ey c') = 2%nat /\ length (c_sigs c') = 2%nat).
Proof.
  intros Hm Ht Hx Hy Hs.
  destruct (fixed_ODE_returns E twiss twissdata nrf harmon voltages
              (c_t c) (c_ex c) (c_ey c) (c_sigs c) (c_sige c) model pnumber
              nsteps stepsize couplingpercentage method Hm)
    as (st & sige0 & Hst & Hi & At & Ax & Ay & As & _);
    try (intros Hnil; rewrite Hnil in *; discriminate).
  exists (after_call c st). unfold Fixed.call. rewrite Hst. simpl.
  split; [reflexivity|].
  apply appended_length in At, Ax, Ay, As.
  rewrite At, Ax, Ay, As, Ht, Hx, Hy, Hs. split; intros Hn.
  - replace (Z.max 1 nsteps) with nsteps by lia. lia.
  - replace (Z.max 1 nsteps) with 1 by lia. auto.
Qed.

(** Three steps from one seed give four points; no step gives two. *)
Lemma fixed_series_length_witness :
  exists c',
    Fixed.call demo ∅ ∅ 1 [] [] demo_caller 1 1 3 0.125 0 "der" = Ok c' /\
    (1 <= 3 ->
     length (c_t c') = (Z.to_nat 3 + 1)%nat /\
     length (c_ex c') = (Z.to_nat 3 + 1)%nat /\
     length (c_ey c') = (Z.to_nat 3 + 1)%nat /\
     length (c_sigs c') = (Z.to_nat 3 + 1)%nat) /\
    (3 <= 0 ->
     length (c_t c') = 2%nat /\ length (c_ex c') = 2%nat /\
     length (c_ey c') = 2%nat /\ length (c_sigs c') = 2%nat).
Proof.
  apply (fixed_series_length demo ∅ ∅ 1 [] [] demo_caller 1 1%float 3
           0.125%float 0 "der"); [lia | reflexivity..].
Defined.

(** C4 as stated fails for the step count 0: the series then have length 2,
    not 0 + 1. *)
Lemma fixed_zero_steps_counterexample :
  exists c',
    Fixed.call demo ∅ ∅ 1 [] [] demo_caller 1 1 0 0.125 0 "der" = Ok c' /\
    length (c_t c') = 2%nat /\ length (c_ex c') = 2%nat /\
    length (c_ey c') = 2%nat /\ length (c_sigs c') = 2%nat /\
    length (c_t c') <> (Z.to_nat 0 + 1)%nat.
Proof.
  eexists. split; [vm_compute; reflexivity|]. simpl. repeat split; lia.
Qed.

(** ** The step size of the adaptive entry point *)

Section StepSize.

Context (E : Externals) (twiss : twiss_t) (twissdata : twissdata_t)
        (nrf : Z) (harmon voltages : list float) (t ex ey sigs sige : vec)
        (model : Z) (pnumber : float) (couplingpercentage : Z)
        (threshold : float) (method : string).

(** C5, amended.  The iteration of the adaptive loop that starts with loop
    variable [k] appends [t[k] + dt] to [t], where [dt] is
    [min(tauradx, taurady, taurads, 1/ibs[0], 1/ibs[1], 1/ibs[2]) / 2],
    times 4 in the relaxation scheme; [ibs] holds the growth rates returned
    by the last evaluation of the model before the iteration, which was made
    at the point of index [k - 1] (at the initial point for [k = 0]): the
    rates of the point [k] itself are evaluated after [dt] is computed and
    enter the next iteration's [dt]. *)
Theorem adaptive_step_size_from_last_rates st :
  Adaptive.ODE E twiss twissdata nrf harmon voltages t ex ey sigs sige
    model pnumber couplingpercentage threshold method = Ok st ->
  let S :=
    lattice_setup E twiss twissdata nrf harmon voltages
      (sanitize_coupling couplingpercentage) in
  let rlx := String.eqb (sanitize_method method) "rlx" in
  forall k, 0 <= k < st_i st ->
  exists ibs t_k,
    growth_rates_at E S twissdata model pnumber
      (st_ex st) (st_ey st) (st_sigs st) (st_sige st) (Z.max 0 (k - 1))
    = Ok ibs /\
    vec_at (st_t st) k = Ok t_k /\
    vec_at (st_t st) (Z.of_nat (length t) + k)
    = Ok (t_k + (if rlx then tau_min S ibs / 2 * 4 else tau_min S ibs / 2))%float.
Proof.
  intros H S rlx k Hk. unfold Adaptive.ODE in H. fold S in H. run_inv H.
  set (J := fun a : State =>
         0 <= st_i a /\
         growth_rates_at E S twissdata model pnumber (st_ex a) (st_ey a)
           (st_sigs a) (st_sige a) (Z.max 0 (st_i a - 1)) = Ok (st_ibs a)).
  assert (forall a b, J a ->
            Adaptive.body E S twissdata model pnumber (sanitize_method method)
              a = Ok b -> J b) as HJstep.
  { intros a b [Hi HJ] Hb. apply adaptive_body_Ok in Hb as (Hext & _ & Hibs).
    pose proof (ext_i _ _ _ Hext). split; [lia|].
    replace (Z.max 0 (st_i b - 1)) with (st_i a) by lia.
    by eapply growth_rates_at_extends. }
  match type of H with
  | do_while ?body ?cond ?fuel ?st0 = _ =>
      destruct (do_while_steps body cond J
                  (adaptive_body_extends E S twissdata model pnumber
                     (sanitize_method method)) HJstep fuel st0 st k)
        as (a & b & n & m & Ha & [_ HJ] & Hia & Hb & Hbst);
      [split; [simpl; lia | exact Hx0] | exact H | simpl; lia |]
  end.
  pose proof (adaptive_body_extends _ _ _ _ _ _ _ _ Hb) as Hab.
  pose proof (extends_trans _ _ _ _ _ Hab Hbst) as Hast.
  apply adaptive_body_appends in Hb
    as (t_k & _ & _ & Htk & Htb & _).
  exists (st_ibs a), t_k. rewrite Hia in *.
  split; [by eapply growth_rates_at_extends|].
  split; [eapply appended_vec_at; [apply (ext_t _ _ _ Hast) | exact Htk]|].
  eapply appended_vec_at; [apply (ext_t _ _ _ Hbst)|].
  rewrite Htb.
  pose proof (appended_length _ _ _ (ext_t _ _ _ Ha)) as Hlen.
  pose proof (ext_i _ _ _ Ha) as Hn. simpl in Hlen, Hn.
  replace (Z.of_nat (length t) + k) with (Z.of_nat (length (st_t a))) by lia.
  apply vec_at_push_back_new.
Qed.

End StepSize.

(** On the sample ring without growth, relaxation scheme: every iteration
    steps by [0.5 / 2 * 4 = 1]. *)
Lemma adaptive_step_size_from_last_rates_witness :
  exists st ibs,
    Adaptive.ODE demo ∅ ∅ 1 [] [] [0%float] [1%float] [1%float]
      [5%float] [7%float] 1 1 0 0.5 "rlx" = Ok st /\
    growth_rates_at demo (lattice_setup demo ∅ ∅ 1 [] [] 0)
      ∅ 1 1 (st_ex st) (st_ey st) (st_sigs st) (st_sige st) 0 = Ok ibs /\
    (tau_min (lattice_setup demo ∅ ∅ 1 [] [] 0) ibs / 2 * 4)%float
    = 1%float /\
    vec_at (st_t st) 2 = Ok (1 + 1)%float.
Proof.
  eexists.
  match goal with
  | |- exists ibs, ?run = Ok ?st /\ _ =>
      assert (run = Ok st) as Hrun by (vm_compute; reflexivity);
      pose proof (adaptive_step_size_from_last_rates demo ∅ ∅ 1 [] []
                    [0%float] [1%float] [1%float] [5%float] [7%float] 1
                    1%float 0 0.5%float "rlx" st Hrun 1) as Hstep
  end.
  assert (0 <= 1 < 3) as Hk by lia. specialize (Hstep Hk).
  destruct Hstep as (ibs & t_k & Hibs & Htk & Ht).
  exists ibs. split; [exact Hrun|]. split; [exact Hibs|].
  vm_compute in Hibs. injection Hibs as <-.
  vm_compute in Htk. injection Htk as <-.
  split; [vm_compute; reflexivity | exact Ht].
Defined.

(** C5 as stated fails when the growth rates follow the beam.  With
    [aex = ex] and [ex[0] = 2], the first step takes [ex] to 4.  At the
    second iteration the growth rates of the current point ([ex = 4]) give
    [min(0.5, 0.5, 0.5, 1/0, 1/4, 1/0) / 2 = 0.125], but the time appended
    is [t[1] + 0.25 = 0.5], not [t[1] + 0.125 = 0.375]. *)
Lemma adaptive_step_size_counterexample :
  exists st ibs,
    Adaptive.ODE demo_growing ∅ ∅ 1 [] [] [0%float] [2%float] [1%float]
      [5%float] [7%float] 1 1 0 0.5 "der" = Ok st /\
    2 <= st_i st /\
    vec_at (st_ex st) 1 = Ok 4%float /\
    growth_rates_at demo_growing (lattice_setup demo_growing ∅ ∅ 1 [] [] 0)
      ∅ 1 1 (st_ex st) (st_ey st) (st_sigs st) (st_sige st) 1 = Ok ibs /\
    (tau_min (lattice_setup demo_growing ∅ ∅ 1 [] [] 0) ibs / 2)%float
    = 0.125%float /\
    vec_at (st_t st) 1 = Ok 0.25%float /\
    vec_at (st_t st) 2 = Ok 0.5%float /\
    (0.25 + 0.125 =? 0.5)%float = false.
Proof.
  eexists. eexists. split; [vm_compute; reflexivity|].
  split; [vm_compute; discriminate|].
  split; [vm_compute; reflexivity|].
  split; [vm_compute; reflexivity|].
  repeat split; vm_compute; reflexivity.
Qed.

(** ** The halving guard of the fixed-step relaxation scheme *)

(** C6, what the code does.  With [tauradx * aex = 0.5 * 2 = 1] the step
    size 0.125 is halved to 0.0625, and [xfactor = 1 / (1 - 1)] is still
    computed: the emittance appended is infinite (and the vertical one is
    not a number).  With [tauradx * aex = 0.5 * 4 = 2] the step size 2 is
    halved to 1, [xfactor] is -1 and the emittance appended is negative. *)
Theorem halving_keeps_the_nonpositive_denominator :
  (exists st,
     Fixed.ODE demo_resonant ∅ ∅ 1 [] [] [0%float] [1%float] [1%float]
       [5%float] [7%float] 1 1 1 0.125 0 "rlx" = Ok st /\
     st_ddt st = 0.0625%float /\
     st_ex st = [1%float; infinity] /\
     (exists ey_1, vec_at (st_ey st) 1 = Ok ey_1 /\ Dbl.is_nan ey_1 = true))
  /\
  (exists st,
     Fixed.ODE demo_unstable ∅ ∅ 1 [] [] [0%float] [1%float] [1%float]
       [5%float] [7%float] 1 1 1 2 0 "rlx" = Ok st /\
     st_ddt st = 1%float /\
     st_ex st = [1%float; (-2)%float]).
Proof.
  split.
  - eexists. split; [vm_compute; reflexivity|].
    split; [reflexivity|]. split; [reflexivity|].
    eexists. split; [vm_compute; reflexivity | vm_compute; reflexivity].
  - eexists. split; [vm_compute; reflexivity|].
    split; reflexivity.
Qed.

(** ** The seed of the energy spread *)

Section Seeds.

Context (E : Externals) (twiss : twiss_t) (twissdata : twissdata_t)
        (nrf : Z) (harmon voltages : list float) (model : Z)
        (pnumber : float) (couplingpercentage : Z) (method : string).

Lemma adaptive_ODE_seed t ex ey sigs sige threshold st :
  Adaptive.ODE E twiss twissdata nrf harmon voltages t ex ey sigs sige
    model pnumber couplingpercentage threshold method = Ok st ->
  let S :=
    lattice_setup E twiss twissdata nrf harmon voltages
      (sanitize_coupling couplingpercentage) in
  vec_at (st_sige st) (Z.of_nat (length sige))
  = Ok (Adaptive.seed_sige E S nrf harmon voltages).
Proof.
  intros H S. unfold Adaptive.ODE in H. fold S in H. run_inv H.
  apply do_while_extends in H as (n & Hn & [] & _);
    [|apply adaptive_body_extends].
  simpl in *. eapply appended_vec_at; [eassumption|].
  apply vec_at_push_back_new.
Qed.

Lemma fixed_ODE_seed t ex ey sigs sige nsteps stepsize st :
  Fixed.ODE E twiss twissdata nrf harmon voltages t ex ey sigs sige
    model pnumber nsteps stepsize couplingpercentage method = Ok st ->
  let S :=
    lattice_setup E twiss twissdata nrf harmon voltages
      (sanitize_coupling couplingpercentage) in
  exists sigs_0,
    vec_at sigs 0 = Ok sigs_0 /\
    vec_at (st_sige st) (Z.of_nat (length sige))
    = Ok (Fixed.seed_sige E S nrf harmon voltages sigs_0).
Proof.
  intros H S. unfold Fixed.ODE in H. fold S in H.
  apply bind_Ok in H as (sigs_0 & Hs & H). run_inv H.
  apply do_while_extends in H as (n & Hn & [] & _);
    [|apply fixed_body_extends].
  exists sigs_0. split; [exact Hs|].
  simpl in *. eapply appended_vec_at; [eassumption|].
  apply vec_at_push_back_new.
Qed.

(** C7. The seed that the adaptive entry point appends to [sige] before
    its loop is [SigeFromRFAndSigs(equi[6], ...)]: the same for every
    caller-supplied [sigs] and [sige] (and [t], [ex], [ey]).  The seed of
    the fixed-step entry point is [SigeFromRFAndSigs(sigs[0], ...)].  On
    the same inputs the two seeds differ as soon as [SigeFromRFAndSigs]
    separates [equi[6]] from [sigs[0]]. *)
Theorem seed_energy_spread_of_the_entry_points
    t ex ey sigs sige threshold nsteps stepsize sta stf :
  Adaptive.ODE E twiss twissdata nrf harmon voltages t ex ey sigs sige
    model pnumber couplingpercentage threshold method = Ok sta ->
  Fixed.ODE E twiss twissdata nrf harmon voltages t ex ey sigs sige
    model pnumber nsteps stepsize couplingpercentage method = Ok stf ->
  let S :=
    lattice_setup E twiss twissdata nrf harmon voltages
      (sanitize_coupling couplingpercentage) in
  let seed_from (x : float) : float :=
    SigeFromRFAndSigs E x (U0 S) (charge S) nrf harmon voltages (gamma S)
      (gammatr S) (pc S) (len S) (phis S) false in
  vec_at (st_sige sta) (Z.of_nat (length sige))
  = Ok (seed_from (equi S 6%nat)) /\
  (forall t' ex' ey' sigs' sige' sta',
     Adaptive.ODE E twiss twissdata nrf harmon voltages t' ex' ey' sigs'
       sige' model pnumber couplingpercentage threshold method = Ok sta' ->
     vec_at (st_sige sta') (Z.of_nat (length sige'))
     = Ok (seed_from (equi S 6%nat))) /\
  exists sigs_0,
    vec_at sigs 0 = Ok sigs_0 /\
    vec_at (st_sige stf) (Z.of_nat (length sige)) = Ok (seed_from sigs_0) /\
    (seed_from (equi S 6%nat) <> seed_from sigs_0 ->
     vec_at (st_sige sta) (Z.of_nat (length sige))
     <> vec_at (st_sige stf) (Z.of_nat (length sige))).
Proof.
  intros Ha Hf S seed_from.
  pose proof (adaptive_ODE_seed _ _ _ _ _ _ _ Ha) as Hsa.
  destruct (fixed_ODE_seed _ _ _ _ _ _ _ _ Hf) as (sigs_0 & Hs0 & Hsf).
  split; [exact Hsa|]. split.
  - intros t' ex' ey' sigs' sige' sta' Ha'.
    exact (adaptive_ODE_seed _ _ _ _ _ _ _ Ha').
  - exists sigs_0. split; [exact Hs0|]. split; [exact Hsf|].
    intros Hne. rewrite Hsa, Hsf. intros [= Heq]. by apply Hne.
Qed.

End Seeds.

(** On the sample ring the equilibrium bunch length is 3 and the caller's
    is 5: the adaptive entry point seeds the energy spread with 3, the
    fixed-step entry point with 5. *)
Lemma seed_energy_spread_of_the_entry_points_witness :
  exists sta stf,
    Adaptive.ODE demo ∅ ∅ 1 [] [] [0%float] [1%float] [1%float] [5%float]
      [7%float] 1 1 0 0.5 "der" = Ok sta /\
    Fixed.ODE demo ∅ ∅ 1 [] [] [0%float] [1%float] [1%float] [5%float]
      [7%float] 1 1 3 0.125 0 "der" = Ok stf /\
    vec_at (st_sige sta) 1 = Ok 3%float /\
    vec_at (st_sige stf) 1 = Ok 5%float /\
    vec_at (st_sige sta) 1 <> vec_at (st_sige stf) 1.
Proof.
  eexists. eexists.
  split; [vm_compute; reflexivity|]. split; [vm_compute; reflexivity|].
  match goal with
  | |- vec_at (st_sige ?a) _ = _ /\ vec_at (st_sige ?f) _ = _ /\ _ =>
      destruct (seed_energy_spread_of_the_entry_points demo ∅ ∅ 1 [] [] 1
                  1%float 0 "der" [0%float] [1%float] [1%float] [5%float]
                  [7%float] 0.5%float 3 0.125%float a f)
        as (Hsa & _ & sigs_0 & Hs0 & Hsf & Hne);
      [vm_compute; reflexivity | vm_compute; reflexivity |]
  end.
  injection Hs0 as <-.
  split; [exact Hsa|]. split; [exact Hsf|].
  apply Hne. simpl. intros H. apply (f_equal Prim2SF) in H.
  vm_compute in H. discriminate.
Defined.

(** ** Doubles at an equilibrium *)

Section DoubleFacts.

Local Open Scope float_scope.


Lemma is_number_inv x :
  Dbl.is_number x = true -> exists s m e, Prim2SF x = S754_finite s m e.
Proof. unfold Dbl.is_number. destruct (Prim2SF x); try discriminate. eauto. Qed.


(** [x - x] is [+0] for a finite [x]. *)
Lemma sub_diag_zero x :
  Dbl.is_number x = true -> Prim2SF (x - x) = S754_zero false.
Proof.
  intros (s & m & e & Hx)%is_number_inv. rewrite FloatAxioms.sub_spec, Hx.
  unfold SF64sub, SFsub. cbv zeta. rewrite Z.sub_diag. reflexivity.
Qed.






End DoubleFacts.

Section Equilibrium.

Context (E : Externals) (S : Setup) (twissdata : twissdata_t) (model : Z)
        (pnumber : float).







End Equilibrium.



(** ** The iterations of the derivative scheme *)

Section DerivativeSteps.

Context (E : Externals) (S : Setup) (twissdata : twissdata_t) (model : Z)
        (pnumber : float).

Lemma derivative_update_step ibs ddt st st' :
  growth_rates_at E S twissdata model pnumber
    (st_ex st) (st_ey st) (st_sigs st) (st_sige st) (st_i st) = Ok ibs ->
  derivative_update E S ibs ddt (ibs 0%nat) (ibs 1%nat) (ibs 2%nat)
    (st_i st + 1) st = Ok st' ->
  derivative_step E S twissdata model pnumber ddt st st'.
Proof.
  intros Hibs H. unfold derivative_update in H.
  replace (st_i st + 1 - 1) with (st_i st) in H by lia.
  run_inv H. injection H as <-. simpl.
  exists ibs. eauto 15.
Qed.

(** With a method that is not "rlx" the fixed-step body makes a derivative
    step with the step size in force, and leaves that step size as it
    is. *)
Lemma fixed_body_derivative method a b :
  String.eqb method "rlx" = false ->
  Fixed.body E S twissdata model pnumber method a = Ok b ->
  derivative_step E S twissdata model pnumber (st_ddt a) a b
  /\ st_ddt b = st_ddt a.
Proof.
  intros Hm H. unfold Fixed.body in H. rewrite Hm in H.
  apply bind_Ok in H as (ibs & Hibs & H).
  pose proof (derivative_update_extends _ _ _ _ _ _ _ _ _ _ H eq_refl)
    as (_ & _ & Hd).
  split; [by eapply derivative_update_step | exact Hd].
Qed.

(** With a method that is not "rlx" the adaptive body makes a derivative
    step with step size [min(...) / 2], not multiplied by 4. *)
Lemma adaptive_body_derivative method a b :
  String.eqb method "rlx" = false ->
  Adaptive.body E S twissdata model pnumber method a = Ok b ->
  derivative_step E S twissdata model pnumber
    (tau_min S (st_ibs a) / 2)%float a b.
Proof.
  intros Hm H. unfold Adaptive.body in H. rewrite Hm in H.
  apply bind_Ok in H as (ibs & Hibs & H).
  by eapply derivative_update_step.
Qed.

Context (body : State -> result State) (cond : State -> result bool)
        (J : State -> Prop) (d : State -> float).

Hypothesis body_extends : forall a b, body a = Ok b -> extends 1 a b.
Hypothesis J_step : forall a b, J a -> body a = Ok b -> J b.
Hypothesis body_derivative :
  forall a b, J a -> body a = Ok b ->
  derivative_step E S twissdata model pnumber (d a) a b.

(** In a loop of such bodies entered with loop variable 0, the iteration
    with loop variable [k] is a derivative step, to be read off the final
    state. *)
Lemma loop_derivative_steps fuel st0 st k :
  st_i st0 = 0 -> J st0 ->
  do_while body cond fuel st0 = Ok st ->
  0 <= k < st_i st ->
  exists a n,
    extends n a st /\ J a /\ st_i a = k /\
    takes_derivative_step E S twissdata model pnumber
      (length (st_t st0)) (length (st_ex st0)) (length (st_ey st0))
      (length (st_sige st0)) st k (d a).
Proof.
  intros H0 HJ H Hk.
  destruct (do_while_steps body cond J body_extends J_step fuel st0 st k
              HJ H)
    as (a & b & n & m & Ha & HJa & Hia & Hb & Hbst); [lia|].
  pose proof (body_extends _ _ Hb) as Hab.
  pose proof (extends_trans _ _ _ _ _ Hab Hbst) as Hast.
  exists a, (1 + m)%nat. split; [exact Hast|]. split; [exact HJa|].
  split; [exact Hia|].
  destruct (body_derivative _ _ HJa Hb)
    as (ibs & tk & x & y & s & Hibs & Htk & Hx & Hy & Hs
        & Et & Ex & Ey & Ee).
  pose proof (ext_i _ _ _ Ha) as Hn.
  pose proof (appended_length _ _ _ (ext_t _ _ _ Ha)) as Lt.
  pose proof (appended_length _ _ _ (ext_ex _ _ _ Ha)) as Lx.
  pose proof (appended_length _ _ _ (ext_ey _ _ _ Ha)) as Ly.
  pose proof (appended_length _ _ _ (ext_sige _ _ _ Ha)) as Le.
  rewrite Hia in Hibs, Htk, Hx, Hy, Hs.
  exists ibs, tk, x, y, s.
  split; [by eapply growth_rates_at_extends|].
  split; [eapply appended_vec_at; [apply (ext_t _ _ _ Hast) | exact Htk]|].
  split; [eapply appended_vec_at; [apply (ext_ex _ _ _ Hast) | exact Hx]|].
  split; [eapply appended_vec_at; [apply (ext_ey _ _ _ Hast) | exact Hy]|].
  split; [eapply appended_vec_at; [apply (ext_sige _ _ _ Hast) | exact Hs]|].
  split; [|split; [|split]].
  - eapply appended_vec_at; [apply (ext_t _ _ _ Hbst)|]. rewrite Et.
    replace (Z.of_nat (length (st_t st0)) + k)
      with (Z.of_nat (length (st_t a))) by lia.
    apply vec_at_push_back_new.
  - eapply appended_vec_at; [apply (ext_ex _ _ _ Hbst)|]. rewrite Ex.
    replace (Z.of_nat (length (st_ex st0)) + k)
      with (Z.of_nat (length (st_ex a))) by lia.
    apply vec_at_push_back_new.
  - eapply appended_vec_at; [apply (ext_ey _ _ _ Hbst)|]. rewrite Ey.
    replace (Z.of_nat (length (st_ey st0)) + k)
      with (Z.of_nat (length (st_ey a))) by lia.
    apply vec_at_push_back_new.
  - eapply appended_vec_at; [apply (ext_sige _ _ _ Hbst)|]. rewrite Ee.
    replace (Z.of_nat (length (st_sige st0)) + k)
      with (Z.of_nat (length (st_sige a))) by lia.
    apply vec_at_push_back_new.
Qed.

End DerivativeSteps.

(** ** Out-of-range settings *)

Section Settings.

Context (E : Externals) (twiss : twiss_t) (twissdata : twissdata_t)
        (nrf : Z) (harmon voltages : list float) (t ex ey sigs sige : vec)
        (model : Z) (pnumber : float).

Lemma sanitize_method_invalid method :
  method <> "rlx" -> method <> "der" -> sanitize_method method = "der".
Proof.
  intros H1 H2. unfold sanitize_method.
  apply String.eqb_neq in H1, H2. by rewrite H1, H2.
Qed.

Lemma sanitize_method_der : sanitize_method "der" = "der".
Proof. reflexivity. Qed.

Lemma sanitize_coupling_invalid cp :
  cp > 100 \/ cp < 0 -> sanitize_coupling cp = sanitize_coupling 0.
Proof.
  intros H. unfold sanitize_coupling.
  destruct (Z.gtb_spec cp 100), (Z.ltb_spec cp 0); simpl; auto; lia.
Qed.

Lemma fixed_ODE_returns_seeded nsteps stepsize couplingpercentage method :
  seeded model t ex ey sigs ->
  exists st,
    Fixed.ODE E twiss twissdata nrf harmon voltages t ex ey sigs sige model
      pnumber nsteps stepsize couplingpercentage method = Ok st.
Proof.
  intros (Hm & Ht & Hx & Hy & Hs).
  destruct (fixed_ODE_returns E twiss twissdata nrf harmon voltages t ex ey
              sigs sige model pnumber nsteps stepsize couplingpercentage
              method Hm Ht Hx Hy Hs) as (st & _ & Hst & _).
  eauto.
Qed.

(** C9. A method that is neither "rlx" nor "der" makes both entry points
    proceed with the derivative scheme: the run is the run with "der", it
    makes at least one iteration, and every iteration is a derivative step,
    which advances [ex], [ey] and [sige] by the step size times [dxdt],
    [dydt] and [dedt]; the step size is the caller's [stepsize] in the
    fixed-step entry point and [min(...) / 2] of the last growth rates,
    not multiplied by 4, in the adaptive one.  A threshold above 1.0 or
    below 1e-6 makes the adaptive entry point proceed with 1e-4
    (0x1.a36e2eb1c432dp-14 is the double 1e-4, 0x1.0c6f7a0b5ed8dp-20 the
    double 1e-6): the run is the run with 1e-4, and it stops at the first
    index at which the budget is reached or no relative change is above
    1e-4.  Nothing aborts on these settings: whatever the method and the
    threshold are, both entry points return on inputs they can run on. *)
Theorem invalid_settings_default
    (couplingpercentage : Z) (threshold : float) (nsteps : Z)
    (stepsize : float) (method : string) :
  let S :=
    lattice_setup E twiss twissdata nrf harmon voltages
      (sanitize_coupling couplingpercentage) in
  (method <> "rlx" -> method <> "der" ->
   (Adaptive.ODE E twiss twissdata nrf harmon voltages t ex ey sigs sige
      model pnumber couplingpercentage threshold method
    = Adaptive.ODE E twiss twissdata nrf harmon voltages t ex ey sigs sige
        model pnumber couplingpercentage threshold "der"
    /\ Fixed.ODE E twiss twissdata nrf harmon voltages t ex ey sigs sige
         model pnumber nsteps stepsize couplingpercentage method
       = Fixed.ODE E twiss twissdata nrf harmon voltages t ex ey sigs sige
           model pnumber nsteps stepsize couplingpercentage "der")
   /\ (forall st,
         Adaptive.ODE E twiss twissdata nrf harmon voltages t ex ey sigs
           sige model pnumber couplingpercentage threshold method = Ok st ->
         1 <= st_i st /\
         forall k, 0 <= k < st_i st ->
         exists ibs,
           growth_rates_at E S twissdata model pnumber (st_ex st)
             (st_ey st) (st_sigs st) (st_sige st) (Z.max 0 (k - 1))
           = Ok ibs /\
           takes_derivative_step E S twissdata model pnumber
             (length t) (length ex) (length ey) (length sige + 1) st k
             (tau_min S ibs / 2)%float)
   /\ (forall st,
         Fixed.ODE E twiss twissdata nrf harmon voltages t ex ey sigs sige
           model pnumber nsteps stepsize couplingpercentage method = Ok st ->
         1 <= st_i st /\
         forall k, 0 <= k < st_i st ->
         takes_derivative_step E S twissdata model pnumber
           (length t) (length ex) (length ey) (length sige + 1) st k
           stepsize))
  /\ ((1 <? threshold)%float = true
      \/ (threshold <? 0x1.0c6f7a0b5ed8dp-20)%float = true ->
      Adaptive.ODE E twiss twissdata nrf harmon voltages t ex ey sigs sige
        model pnumber couplingpercentage threshold method
      = Adaptive.ODE E twiss twissdata nrf harmon voltages t ex ey sigs sige
          model pnumber couplingpercentage 0x1.a36e2eb1c432dp-14 method
      /\ (forall st,
            Adaptive.ODE E twiss twissdata nrf harmon voltages t ex ey sigs
              sige model pnumber couplingpercentage threshold method
            = Ok st ->
            exists ibs0 ms,
              growth_rates_at E S twissdata model pnumber ex ey sigs
                (push_back sige (Adaptive.seed_sige E S nrf harmon voltages))
                0 = Ok ibs0 /\
              Adaptive.budget S ibs0 = Ok ms /\
              (ms <= st_i st \/
               (within 0x1.a36e2eb1c432dp-14 (st_ex st) (st_i st)
                /\ within 0x1.a36e2eb1c432dp-14 (st_ey st) (st_i st)
                /\ within 0x1.a36e2eb1c432dp-14 (st_sigs st) (st_i st))) /\
              (forall k, 1 <= k < st_i st ->
                 k < ms /\
                 (exceeds 0x1.a36e2eb1c432dp-14 (st_ex st) k
                  \/ exceeds 0x1.a36e2eb1c432dp-14 (st_ey st) k
                  \/ exceeds 0x1.a36e2eb1c432dp-14 (st_sigs st) k))))
  /\ (t <> [] ->
      budgeted E twiss twissdata nrf harmon voltages ex ey sigs sige model
        pnumber couplingpercentage ->
      exists st,
        Adaptive.ODE E twiss twissdata nrf harmon voltages t ex ey sigs sige
          model pnumber couplingpercentage threshold method = Ok st)
  /\ (seeded model t ex ey sigs ->
      exists st,
        Fixed.ODE E twiss twissdata nrf harmon voltages t ex ey sigs sige
          model pnumber nsteps stepsize couplingpercentage method = Ok st).
Proof.
  intros S.
  assert (forall v x, length (push_back v x) = (length v + 1)%nat) as Hlen
    by (intros v x; unfold push_back; rewrite length_app; reflexivity).
  split; [|split; [|split]].
  - intros H1 H2. split; [|split].
    + unfold Adaptive.ODE, Fixed.ODE.
      by rewrite (sanitize_method_invalid _ H1 H2), sanitize_method_der.
    + intros st H. unfold Adaptive.ODE in H. fold S in H.
      rewrite (sanitize_method_invalid _ H1 H2) in H. run_inv H.
      split.
      { apply do_while_extends in H as (n & Hn & Hext & _);
          [|apply adaptive_body_extends].
        pose proof (ext_i _ _ _ Hext) as Hi. simpl in Hi. lia. }
      intros k Hk.
      set (J := fun a : State =>
             0 <= st_i a /\
             growth_rates_at E S twissdata model pnumber (st_ex a) (st_ey a)
               (st_sigs a) (st_sige a) (Z.max 0 (st_i a - 1))
             = Ok (st_ibs a)).
      assert (forall a b, J a ->
                Adaptive.body E S twissdata model pnumber "der" a = Ok b ->
                J b) as HJstep.
      { intros a b [Hi HJ] Hb.
        apply adaptive_body_Ok in Hb as (Hext & _ & Hibs).
        pose proof (ext_i _ _ _ Hext). split; [lia|].
        replace (Z.max 0 (st_i b - 1)) with (st_i a) by lia.
        by eapply growth_rates_at_extends. }
      eapply (loop_derivative_steps E S twissdata model pnumber _ _ J
                (fun a => (tau_min S (st_ibs a) / 2)%float)
                (adaptive_body_extends E S twissdata model pnumber "der")
                HJstep) in H as (a & n & Hast & [_ HJa] & Hia & Hstep);
        [| intros a b _ Hb; by apply adaptive_body_derivative in Hb
         | reflexivity
         | split; [simpl; lia | simpl; eassumption]
         | exact Hk].
      simpl in Hstep. rewrite Hlen in Hstep.
      exists (st_ibs a). split; [|exact Hstep].
      rewrite Hia in HJa. by eapply growth_rates_at_extends.
    + intros st H. unfold Fixed.ODE in H. fold S in H.
      rewrite (sanitize_method_invalid _ H1 H2) in H. run_inv H.
      split.
      { apply do_while_extends in H as (n & Hn & Hext & _);
          [|apply fixed_body_extends].
        pose proof (ext_i _ _ _ Hext) as Hi. simpl in Hi. lia. }
      intros k Hk.
      eapply (loop_derivative_steps E S twissdata model pnumber _ _
                (fun a => st_ddt a = stepsize) st_ddt
                (fixed_body_extends E S twissdata model pnumber "der"))
        in H as (a & n & Hast & HJa & Hia & Hstep);
        [| intros a b Ha Hb; apply fixed_body_derivative in Hb as [_ Hd];
           [congruence | reflexivity]
         | intros a b _ Hb; by apply fixed_body_derivative in Hb as [Hs _]
         | reflexivity
         | reflexivity
         | exact Hk].
      simpl in Hstep. rewrite Hlen, HJa in Hstep. exact Hstep.
  - intros H.
    assert (sanitize_threshold threshold = 0x1.a36e2eb1c432dp-14%float)
      as Hthr.
    { unfold sanitize_threshold.
      destruct H as [-> | ->]; [reflexivity|]. by rewrite orb_true_r. }
    split.
    + unfold Adaptive.ODE. rewrite Hthr. reflexivity.
    + intros st Hst. unfold Adaptive.ODE in Hst. fold S in Hst.
      rewrite Hthr in Hst. run_inv Hst.
      apply adaptive_loop_stops in Hst as (_ & _ & Hstop & Hgo).
      simpl in Hgo. eexists _, _.
      split; [eassumption|]. split; [eassumption|].
      split; [exact Hstop|].
      intros k Hk. apply Hgo. lia.
  - apply adaptive_ODE_returns.
  - apply fixed_ODE_returns_seeded.
Qed.

(** C10. In both entry points a coupling percentage above 100 or below 0
    is replaced by 0 before the coupling fraction is computed: the run with
    such a percentage is the run with percentage 0, with the same outcome
    and the same series, and it returns on inputs that the run with
    percentage 0 can run on. *)
Theorem coupling_out_of_range_is_zero
    (couplingpercentage : Z) (threshold : float) (nsteps : Z)
    (stepsize : float) (method : string) :
  couplingpercentage > 100 \/ couplingpercentage < 0 ->
  (Adaptive.ODE E twiss twissdata nrf harmon voltages t ex ey sigs sige
     model pnumber couplingpercentage threshold method
   = Adaptive.ODE E twiss twissdata nrf harmon voltages t ex ey sigs sige
       model pnumber 0 threshold method
   /\ Fixed.ODE E twiss twissdata nrf harmon voltages t ex ey sigs sige
        model pnumber nsteps stepsize couplingpercentage method
      = Fixed.ODE E twiss twissdata nrf harmon voltages t ex ey sigs sige
          model pnumber nsteps stepsize 0 method)
  /\ (t <> [] ->
      budgeted E twiss twissdata nrf harmon voltages ex ey sigs sige model
        pnumber 0 ->
      exists st,
        Adaptive.ODE E twiss twissdata nrf harmon voltages t ex ey sigs sige
          model pnumber couplingpercentage threshold method = Ok st)
  /\ (seeded model t ex ey sigs ->
      exists st,
        Fixed.ODE E twiss twissdata nrf harmon voltages t ex ey sigs sige
          model pnumber nsteps stepsize couplingpercentage method = Ok st).
Proof.
  intros H.
  assert (Adaptive.ODE E twiss twissdata nrf harmon voltages t ex ey sigs
            sige model pnumber couplingpercentage threshold method
          = Adaptive.ODE E twiss twissdata nrf harmon voltages t ex ey sigs
              sige model pnumber 0 threshold method) as Ha.
  { unfold Adaptive.ODE. by rewrite (sanitize_coupling_invalid _ H). }
  split; [split; [exact Ha|]|split].
  - unfold Fixed.ODE. by rewrite (sanitize_coupling_invalid _ H).
  - rewrite Ha. apply adaptive_ODE_returns.
  - apply fixed_ODE_returns_seeded.
Qed.

End Settings.

(** The method "euler" runs as "der": the first of three fixed steps of
    0.125 takes [ex] from 1 to [1 + 0.125 * dxdt].  The thresholds 2 and
    2^-30 run as 1e-4: the run with threshold 2 stops at the budget of 20
    iterations or on relative changes that are not above 1e-4.  The runs
    return. *)
Lemma invalid_settings_default_witness :
  (Adaptive.ODE demo ∅ ∅ 1 [] [] [0%float] [1%float] [1%float] [5%float]
     [7%float] 1 1 0 0.5 "euler"
   = Adaptive.ODE demo ∅ ∅ 1 [] [] [0%float] [1%float] [1%float] [5%float]
       [7%float] 1 1 0 0.5 "der"
   /\ Fixed.ODE demo ∅ ∅ 1 [] [] [0%float] [1%float] [1%float] [5%float]
        [7%float] 1 1 3 0.125 0 "euler"
      = Fixed.ODE demo ∅ ∅ 1 [] [] [0%float] [1%float] [1%float] [5%float]
          [7%float] 1 1 3 0.125 0 "der")
  /\ (exists st,
        Fixed.ODE demo ∅ ∅ 1 [] [] [0%float] [1%float] [1%float] [5%float]
          [7%float] 1 1 3 0.125 0 "euler" = Ok st /\
        1 <= st_i st /\
        vec_at (st_t st) 1 = Ok (0 + 0.125)%float /\
        vec_at (st_ex st) 1 = Ok (1 + 0.125 * dxdt demo_setup 1 0)%float /\
        vec_at (st_ey st) 1 = Ok (1 + 0.125 * dydt demo_setup 1 0)%float /\
        vec_at (st_sige st) 2 = Ok (7 + 0.125 * dedt demo_setup 7 0)%float)
  /\ Adaptive.ODE demo ∅ ∅ 1 [] [] [0%float] [1%float] [1%float] [5%float]
       [7%float] 1 1 0 2 "rlx"
     = Adaptive.ODE demo ∅ ∅ 1 [] [] [0%float] [1%float] [1%float] [5%float]
         [7%float] 1 1 0 0x1.a36e2eb1c432dp-14 "rlx"
  /\ Adaptive.ODE demo ∅ ∅ 1 [] [] [0%float] [1%float] [1%float] [5%float]
       [7%float] 1 1 0 0x1p-30 "rlx"
     = Adaptive.ODE demo ∅ ∅ 1 [] [] [0%float] [1%float] [1%float] [5%float]
         [7%float] 1 1 0 0x1.a36e2eb1c432dp-14 "rlx"
  /\ (exists st,
        Adaptive.ODE demo ∅ ∅ 1 [] [] [0%float] [1%float] [1%float]
          [5%float] [7%float] 1 1 0 2 "euler" = Ok st /\
        (20 <= st_i st \/
         (within 0x1.a36e2eb1c432dp-14 (st_ex st) (st_i st)
          /\ within 0x1.a36e2eb1c432dp-14 (st_ey st) (st_i st)
          /\ within 0x1.a36e2eb1c432dp-14 (st_sigs st) (st_i st))))
  /\ (exists st,
        Fixed.ODE demo ∅ ∅ 1 [] [] [0%float] [1%float] [1%float] [5%float]
          [7%float] 1 1 3 0.125 0 "euler" = Ok st).
Proof.
  pose proof (invalid_settings_default demo ∅ ∅ 1 [] [] [0%float] [1%float]
                [1%float] [5%float] [7%float] 1 1%float 0 0.5%float 3
                0.125%float "euler") as Heuler.
  cbv zeta in Heuler. destruct Heuler as (Hmethod & _ & _ & Hfixed).
  destruct Hmethod as (Hsame & _ & Hsteps); [discriminate | discriminate |].
  pose proof (invalid_settings_default demo ∅ ∅ 1 [] [] [0%float] [1%float]
                [1%float] [5%float] [7%float] 1 1%float 0 2%float 3
                0.125%float "rlx") as Habove.
  cbv zeta in Habove. destruct Habove as (_ & Habove & _).
  destruct Habove as [Habove _]; [left; reflexivity|].
  pose proof (invalid_settings_default demo ∅ ∅ 1 [] [] [0%float] [1%float]
                [1%float] [5%float] [7%float] 1 1%float 0 0x1p-30%float 3
                0.125%float "rlx") as Hbelow.
  cbv zeta in Hbelow. destruct Hbelow as (_ & Hbelow & _).
  destruct Hbelow as [Hbelow _]; [right; reflexivity|].
  pose proof (invalid_settings_default demo ∅ ∅ 1 [] [] [0%float] [1%float]
                [1%float] [5%float] [7%float] 1 1%float 0 2%float 3
                0.125%float "euler") as Hboth.
  cbv zeta in Hboth. destruct Hboth as (_ & Hstop & Hadaptive & _).
  destruct Hstop as [_ Hstop]; [left; reflexivity|].
  destruct Hfixed as [stf Hstf]; [repeat split; first [lia | discriminate]|].
  destruct Hadaptive as [sta Hsta];
    [discriminate
    |exists (rates 0 0 0), 20;
     split; [reflexivity | vm_compute; reflexivity]|].
  split; [exact Hsame|]. split; [|split; [exact Habove|split; [exact Hbelow|]]].
  - exists stf. split; [exact Hstf|].
    destruct (Hsteps stf Hstf) as [Hi Hstep]. split; [exact Hi|].
    assert (0 <= 0 < st_i stf) as Hk by lia. specialize (Hstep 0 Hk).
    destruct Hstep as (ibs & tk & x & y & s & Hibs & Htk & Hx & Hy & Hs
                       & Et & Ex & Ey & Ee).
    revert Hibs Htk Hx Hy Hs Et Ex Ey Ee.
    assert (exists st0,
              Fixed.ODE demo ∅ ∅ 1 [] [] [0%float] [1%float] [1%float]
                [5%float] [7%float] 1 1 3 0.125 0 "euler" = Ok st0)
      as [st0 Hst0] by (eexists; vm_compute; reflexivity).
    assert (stf = st0) as -> by congruence.
    vm_compute in Hst0. injection Hst0 as <-.
    intros Hibs Htk Hx Hy Hs Et Ex Ey Ee.
    vm_compute in Hibs. injection Hibs as <-.
    vm_compute in Htk. injection Htk as <-.
    vm_compute in Hx. injection Hx as <-.
    vm_compute in Hy. injection Hy as <-.
    vm_compute in Hs. injection Hs as <-.
    split; [exact Et|]. split; [exact Ex|]. split; [exact Ey | exact Ee].
  - split.
    + exists sta. split; [exact Hsta|].
      destruct (Hstop sta Hsta) as (ibs0 & ms & Hibs0 & Hms & Hend & _).
      vm_compute in Hibs0. injection Hibs0 as <-.
      vm_compute in Hms. injection Hms as <-. exact Hend.
    + exists stf. exact Hstf.
Defined.

(** The runs with coupling percentages 150 and -5 are the run with 0, and
    they return. *)
Lemma coupling_out_of_range_is_zero_witness :
  ((Adaptive.ODE demo ∅ ∅ 1 [] [] [0%float] [1%float] [1%float] [5%float]
      [7%float] 1 1 150 0.5 "rlx"
    = Adaptive.ODE demo ∅ ∅ 1 [] [] [0%float] [1%float] [1%float] [5%float]
        [7%float] 1 1 0 0.5 "rlx"
    /\ Fixed.ODE demo ∅ ∅ 1 [] [] [0%float] [1%float] [1%float] [5%float]
         [7%float] 1 1 3 0.125 150 "rlx"
       = Fixed.ODE demo ∅ ∅ 1 [] [] [0%float] [1%float] [1%float] [5%float]
           [7%float] 1 1 3 0.125 0 "rlx")
   /\ (exists st,
         Adaptive.ODE demo ∅ ∅ 1 [] [] [0%float] [1%float] [1%float]
           [5%float] [7%float] 1 1 150 0.5 "rlx" = Ok st)
   /\ (exists st,
         Fixed.ODE demo ∅ ∅ 1 [] [] [0%float] [1%float] [1%float] [5%float]
           [7%float] 1 1 3 0.125 150 "rlx" = Ok st))
  /\ (Adaptive.ODE demo ∅ ∅ 1 [] [] [0%float] [1%float] [1%float] [5%float]
        [7%float] 1 1 (-5) 0.5 "der"
      = Adaptive.ODE demo ∅ ∅ 1 [] [] [0%float] [1%float] [1%float]
          [5%float] [7%float] 1 1 0 0.5 "der"
      /\ Fixed.ODE demo ∅ ∅ 1 [] [] [0%float] [1%float] [1%float] [5%float]
           [7%float] 1 1 3 0.125 (-5) "der"
         = Fixed.ODE demo ∅ ∅ 1 [] [] [0%float] [1%float] [1%float]
             [5%float] [7%float] 1 1 3 0.125 0 "der").
Proof.
  split.
  - destruct (coupling_out_of_range_is_zero demo ∅ ∅ 1 [] [] [0%float]
                [1%float] [1%float] [5%float] [7%float] 1 1%float 150
                0.5%float 3 0.125%float "rlx") as (Heq & Ha & Hf);
      [left; lia|].
    split; [exact Heq|]. split.
    + apply Ha; [discriminate|].
      exists (rates 0 0 0), 20. split; [reflexivity | vm_compute; reflexivity].
    + apply Hf. repeat split; first [lia | discriminate].
  - destruct (coupling_out_of_range_is_zero demo ∅ ∅ 1 [] [] [0%float]
                [1%float] [1%float] [5%float] [7%float] 1 1%float (-5)
                0.5%float 3 0.125%float "der") as (Heq & _);
      [right; lia | exact Heq].
Defined.

(** * Further properties of the code *)

(** ** The history is append-only *)

Lemma appended_prefix (n : nat) (v w : vec) : appended n v w -> v `prefix_of` w.
Proof. intros (l & -> & _). by exists l. Qed.

(** X1. Whatever either entry point appends, it leaves the points it was
    given where they were: the caller's [t], [ex], [ey] and [sigs] before
    the call are prefixes of the ones after it. *)
Theorem history_is_append_only
    (E : Externals) (twiss : twiss_t) (twissdata : twissdata_t) (nrf : Z)
    (harmon voltages : list float) (model : Z) (pnumber : float)
    (couplingpercentage : Z) (method : string)
    (c c' : Caller) (threshold : float) (nsteps : Z) (stepsize : float) :
  Adaptive.call E twiss twissdata nrf harmon voltages c model pnumber
    couplingpercentage threshold method = Ok c'
  \/ Fixed.call E twiss twissdata nrf harmon voltages c model pnumber
       nsteps stepsize couplingpercentage method = Ok c' ->
  c_t c `prefix_of` c_t c' /\ c_ex c `prefix_of` c_ex c' /\
  c_ey c `prefix_of` c_ey c' /\ c_sigs c `prefix_of` c_sigs c'.
Proof.
  unfold Adaptive.call, Fixed.call.
  intros [H|H]; apply bind_Ok in H as (st & Hst & H); injection H as <-;
    [apply adaptive_ODE_appends in Hst | apply fixed_ODE_appends in Hst];
    destruct Hst as (n & _ & _ & At & Ax & Ay & As); simpl;
    repeat split; eapply appended_prefix; eassumption.
Qed.

Lemma history_is_append_only_witness :
  exists c',
    Fixed.call demo ∅ ∅ 1 [] [] demo_caller 1 1 3 0.125 0 "der" = Ok c' /\
    [0%float] `prefix_of` c_t c' /\ [1%float] `prefix_of` c_ex c' /\
    [1%float] `prefix_of` c_ey c' /\ [5%float] `prefix_of` c_sigs c'.
Proof.
  eexists. split; [vm_compute; reflexivity|].
  apply (history_is_append_only demo ∅ ∅ 1 [] [] 1 1%float 0 "der"
           demo_caller _ 0.5%float 3 0.125%float).
  right. vm_compute. reflexivity.
Defined.

(** ** On which inputs the entry points return *)

Section Returns.

Context (E : Externals) (twiss : twiss_t) (twissdata : twissdata_t)
        (nrf : Z) (harmon voltages : list float) (t ex ey sigs sige : vec)
        (model : Z) (pnumber : float) (couplingpercentage : Z)
        (method : string).

Lemma vec_at_nonempty (v : vec) (i : Z) (x : float) :
  vec_at v i = Ok x -> v <> [].
Proof. intros H%vec_at_range ->. simpl in H. lia. Qed.

Lemma growth_rates_at_seeded S ex' ey' sigs' sige' k ibs :
  growth_rates_at E S twissdata model pnumber ex' ey' sigs' sige' k = Ok ibs ->
  1 <= model <= 13 /\ ex' <> [] /\ ey' <> [] /\ sigs' <> [].
Proof.
  unfold growth_rates_at. intros H.
  apply bind_Ok in H as (a & Ha%vec_at_nonempty & H).
  apply bind_Ok in H as (b & Hb%vec_at_nonempty & H).
  apply bind_Ok in H as (c & Hc%vec_at_nonempty & H).
  apply bind_Ok in H as (d & _ & H).
  apply growth_rates_model in H. auto.
Qed.

(** X2. The fixed-step entry point returns exactly on a supported model
    (1 to 13) with at least one element in each of [t], [ex], [ey] and
    [sigs]; on every other input the C++ run is undefined (an element or
    the growth rates are read that do not exist).  The caller's [sige] may
    be empty. *)
Theorem fixed_ODE_returns_iff_seeded (nsteps : Z) (stepsize : float) :
  ((exists st,
      Fixed.ODE E twiss twissdata nrf harmon voltages t ex ey sigs sige
        model pnumber nsteps stepsize couplingpercentage method = Ok st)
   <-> seeded model t ex ey sigs)
  /\ (~ seeded model t ex ey sigs ->
      Fixed.ODE E twiss twissdata nrf harmon voltages t ex ey sigs sige
        model pnumber nsteps stepsize couplingpercentage method = Undefined).
Proof.
  assert ((exists st,
      Fixed.ODE E twiss twissdata nrf harmon voltages t ex ey sigs sige
        model pnumber nsteps stepsize couplingpercentage method = Ok st)
   <-> seeded model t ex ey sigs) as Hiff.
  { split.
    - intros [st H]. unfold Fixed.ODE in H. run_inv H.
      match goal with
      | G : growth_rates_at _ _ _ _ _ _ _ _ _ _ = Ok _ |- _ =>
          apply growth_rates_at_seeded in G as (Gm & Gx & Gy & Gs)
      end.
      apply do_while_first in H as [st1 H1].
      apply fixed_body_appends in H1 as (t0 & _ & _ & Gt%vec_at_nonempty & _).
      simpl in Gt. unfold seeded. auto.
    - intros (Hm & Ht & Hx & Hy & Hs).
      destruct (fixed_ODE_returns E twiss twissdata nrf harmon voltages t ex
                  ey sigs sige model pnumber nsteps stepsize
                  couplingpercentage method Hm Ht Hx Hy Hs)
        as (st & _ & Hst & _). eauto. }
  split; [exact Hiff|]. intros Hn.
  destruct (Fixed.ODE E twiss twissdata nrf harmon voltages t ex ey sigs sige
              model pnumber nsteps stepsize couplingpercentage method)
    as [st| |] eqn:Hrun; [|reflexivity|].
  - exfalso. apply Hn, Hiff. eauto.
  - by apply fixed_ODE_fuel in Hrun.
Qed.

(** X3. The adaptive entry point returns exactly when, moreover, the step
    budget [(int)(10 * taum / ddt)] computed from the initial growth rates
    is an [int]; on every other input the C++ run is undefined. *)
Theorem adaptive_ODE_returns_iff_budgeted (threshold : float) :
  ((exists st,
      Adaptive.ODE E twiss twissdata nrf harmon voltages t ex ey sigs sige
        model pnumber couplingpercentage threshold method = Ok st)
   <-> seeded model t ex ey sigs
       /\ budgeted E twiss twissdata nrf harmon voltages ex ey sigs sige
            model pnumber couplingpercentage)
  /\ (~ (seeded model t ex ey sigs
         /\ budgeted E twiss twissdata nrf harmon voltages ex ey sigs sige
              model pnumber couplingpercentage) ->
      Adaptive.ODE E twiss twissdata nrf harmon voltages t ex ey sigs sige
        model pnumber couplingpercentage threshold method = Undefined).
Proof.
  assert ((exists st,
      Adaptive.ODE E twiss twissdata nrf harmon voltages t ex ey sigs sige
        model pnumber couplingpercentage threshold method = Ok st)
   <-> seeded model t ex ey sigs
       /\ budgeted E twiss twissdata nrf harmon voltages ex ey sigs sige
            model pnumber couplingpercentage) as Hiff.
  { split.
    - intros [st H]. unfold Adaptive.ODE in H. run_inv H.
      match goal with
      | G : growth_rates_at _ _ _ _ _ _ _ _ _ _ = Ok _ |- _ =>
          pose proof (growth_rates_at_seeded _ _ _ _ _ _ _ G)
            as (Gm & Gx & Gy & Gs)
      end.
      apply do_while_first in H as [st1 H1].
      apply adaptive_body_appends in H1
        as (t0 & _ & _ & Gt%vec_at_nonempty & _).
      simpl in Gt. split; [unfold seeded; auto|].
      eexists _, _. split; eassumption.
    - intros ((_ & Ht & _) & Hb). by apply adaptive_ODE_returns. }
  split; [exact Hiff|]. intros Hn.
  destruct (Adaptive.ODE E twiss twissdata nrf harmon voltages t ex ey sigs
              sige model pnumber couplingpercentage threshold method)
    as [st| |] eqn:Hrun; [|reflexivity|].
  - exfalso. apply Hn, Hiff. eauto.
  - by apply adaptive_ODE_fuel in Hrun.
Qed.

(** X4. The safety cap: an adaptive run that returns has made at least one
    and at most 10000 iterations, and not more than the budget [ms] when
    that is at least 1. *)
Theorem adaptive_iterations_are_capped (threshold : float) (st : State) :
  Adaptive.ODE E twiss twissdata nrf harmon voltages t ex ey sigs sige
    model pnumber couplingpercentage threshold method = Ok st ->
  let S :=
    lattice_setup E twiss twissdata nrf harmon voltages
      (sanitize_coupling couplingpercentage) in
  exists ibs0 ms,
    growth_rates_at E S twissdata model pnumber ex ey sigs
      (push_back sige (Adaptive.seed_sige E S nrf harmon voltages)) 0
    = Ok ibs0 /\
    Adaptive.budget S ibs0 = Ok ms /\
    1 <= st_i st <= Z.max 1 ms /\ st_i st <= 10000 /\
    Z.of_nat (length (st_t st)) <= Z.of_nat (length t) + 10000 /\
    Z.of_nat (length (st_ex st)) <= Z.of_nat (length ex) + 10000 /\
    Z.of_nat (length (st_ey st)) <= Z.of_nat (length ey) + 10000 /\
    Z.of_nat (length (st_sigs st)) <= Z.of_nat (length sigs) + 10000.
Proof.
  intros H S. unfold Adaptive.ODE in H. fold S in H. run_inv H.
  match goal with
  | G : growth_rates_at _ _ _ _ _ _ _ _ _ _ = Ok ?a,
    B : Adaptive.budget _ ?a = Ok ?b |- _ =>
      exists a, b; split; [exact G|]; split; [exact B|];
      assert (b <= 10000) as Hcap;
      [ unfold Adaptive.budget in B; apply bind_Ok in B as (m & _ & B);
        injection B as <-; unfold Adaptive.MaxSteps; lia |];
      rename b into ms
  end.
  apply adaptive_loop_stops in H as (Hi & Hext & _ & Hgo). simpl in Hi, Hext.
  assert (st_i st <= Z.max 1 ms) as Hle.
  { destruct (Z.eq_dec (st_i st) 1) as [->|Hne]; [lia|].
    destruct (Hgo (st_i st - 1)) as [Hlt _]; [simpl; lia | lia]. }
  destruct Hext as [_ At Ax Ay As _ _]. simpl in *.
  apply appended_length in At, Ax, Ay, As.
  repeat split; lia.
Qed.

End Returns.

(** Model 14 is not one of the switch: the run is undefined. *)
Lemma fixed_ODE_returns_iff_seeded_witness :
  Fixed.ODE demo ∅ ∅ 1 [] [] [0%float] [1%float] [1%float] [5%float]
    [7%float] 14 1 3 0.125 0 "der" = Undefined.
Proof.
  pose proof (fixed_ODE_returns_iff_seeded demo ∅ ∅ 1 [] [] [0%float]
                [1%float] [1%float] [5%float] [7%float] 14 1%float 0 "der"
                3 0.125%float) as [_ Hundef].
  apply Hundef. unfold seeded. lia.
Defined.

(** An empty [ex]: the run is undefined. *)
Lemma adaptive_ODE_returns_iff_budgeted_witness :
  Adaptive.ODE demo ∅ ∅ 1 [] [] [0%float] [] [1%float] [5%float]
    [7%float] 1 1 0 0.5 "der" = Undefined.
Proof.
  pose proof (adaptive_ODE_returns_iff_budgeted demo ∅ ∅ 1 [] [] [0%float]
                [] [1%float] [5%float] [7%float] 1 1%float 0 "der"
                0.5%float) as [_ Hundef].
  apply Hundef. unfold seeded. intros [(_ & _ & Hx & _) _]. by apply Hx.
Defined.

Lemma adaptive_iterations_are_capped_witness :
  exists st,
    Adaptive.ODE demo ∅ ∅ 1 [] [] [0%float] [1%float] [1%float] [5%float]
      [7%float] 1 1 0 0.5 "rlx" = Ok st /\
    1 <= st_i st <= 20.
Proof.
  eexists.
  match goal with
  | |- ?run = Ok ?st /\ _ =>
      assert (run = Ok st) as Hrun by (vm_compute; reflexivity);
      pose proof (adaptive_iterations_are_capped demo ∅ ∅ 1 [] []
                    [0%float] [1%float] [1%float] [5%float] [7%float] 1
                    1%float 0 "rlx" 0.5%float st Hrun) as Hcap
  end.
  destruct Hcap as (ibs0 & ms & Hibs & Hms & Hi & _).
  split; [exact Hrun|].
  vm_compute in Hibs. injection Hibs as <-.
  vm_compute in Hms. injection Hms as <-. exact Hi.
Defined.

(** ** The time grid of a fixed-step run *)

Section FixedTimeGrid.

Context (E : Externals) (S : Setup) (twissdata : twissdata_t) (model : Z)
        (pnumber : float) (method : string) (nsteps : Z) (stepsize : float).

Lemma fixed_body_halves a b :
  halved_so_far method stepsize a ->
  Fixed.body E S twissdata model pnumber method a = Ok b ->
  halved_so_far method stepsize b
  /\ exists h : nat,
       Z.of_nat h <= st_i a + 1 /\
       fixed_ddt S method a (st_ibs b) = halved h stepsize /\
       (method <> "rlx" -> h = 0%nat).
Proof.
  intros (Hi & h & Hh & Hd & Hder) Hb.
  pose proof (fixed_body_Ok _ _ _ _ _ _ _ _ Hb) as (Hext & Hddt & _).
  pose proof (ext_i _ _ _ Hext) as Hi'.
  assert (exists h' : nat,
            Z.of_nat h' <= st_i a + 1 /\
            fixed_ddt S method a (st_ibs b) = halved h' stepsize /\
            (method <> "rlx" -> h' = 0%nat)) as (h' & Hh' & Hd' & Hder').
  { unfold fixed_ddt. destruct (String.eqb method "rlx") eqn:Hm.
    - apply String.eqb_eq in Hm.
      destruct (_ || _).
      + exists (Datatypes.S h). rewrite Hd. simpl.
        split; [lia|]. split; [reflexivity | congruence].
      + exists h. split; [lia|]. split; [exact Hd | congruence].
    - exists h. split; [lia|]. auto. }
  split; [|by exists h'].
  split; [lia|]. exists h'. rewrite Hddt. split; [lia|]. auto.
Qed.

Lemma fixed_loop_time_grid fuel st0 st k :
  halved_so_far method stepsize st0 ->
  do_while (Fixed.body E S twissdata model pnumber method)
    (Fixed.cond nsteps) fuel st0 = Ok st ->
  st_i st0 <= k < st_i st ->
  exists (tk : float) (h : nat),
    vec_at (st_t st) k = Ok tk /\
    vec_at (st_t st) (Z.of_nat (length (st_t st0)) + (k - st_i st0))
    = Ok (tk + halved h stepsize)%float /\
    Z.of_nat h <= k + 1 /\
    (method <> "rlx" -> h = 0%nat).
Proof.
  intros HJ H Hk.
  destruct (do_while_steps _ _ (halved_so_far method stepsize)
              (fixed_body_extends E S twissdata model pnumber method)
              (fun a b Ha Hb => proj1 (fixed_body_halves a b Ha Hb))
              fuel st0 st k HJ H Hk)
    as (a & b & n & m & Ha & HJa & Hia & Hb & Hbst).
  destruct (fixed_body_halves _ _ HJa Hb) as (_ & h & Hh & Hd & Hder).
  destruct (fixed_body_appends _ _ _ _ _ _ _ _ Hb)
    as (tk & _ & _ & Htk & Ht & _).
  pose proof (fixed_body_extends _ _ _ _ _ _ _ _ Hb) as Hab.
  pose proof (ext_i _ _ _ Ha) as Hn.
  pose proof (appended_length _ _ _ (ext_t _ _ _ Ha)) as Lt.
  exists tk, h. rewrite Hia in Htk, Hh.
  split; [|split; [|auto]].
  - eapply appended_vec_at; [apply (ext_t _ _ _ Hbst)|].
    eapply appended_vec_at; [apply (ext_t _ _ _ Hab) | exact Htk].
  - eapply appended_vec_at; [apply (ext_t _ _ _ Hbst)|].
    rewrite Ht, Hd.
    replace (Z.of_nat (length (st_t st0)) + (k - st_i st0))
      with (Z.of_nat (length (st_t a))) by lia.
    apply vec_at_push_back_new.
Qed.

End FixedTimeGrid.

(** X5. The time grid of the fixed-step entry point.  The iteration with
    loop variable [k] appends the time [t[k] + ddt], where [ddt] is the
    caller's [stepsize] halved [h <= k + 1] times; in the derivative scheme
    (the method is not "rlx") it is never halved, so the appended times are
    [t[k] + stepsize].  The new time is counted from [t[k]], which is the
    last time of the history only when the caller passes a single time. *)
Theorem fixed_time_grid
    (E : Externals) (twiss : twiss_t) (twissdata : twissdata_t) (nrf : Z)
    (harmon voltages : list float) (t ex ey sigs sige : vec) (model : Z)
    (pnumber : float) (nsteps : Z) (stepsize : float)
    (couplingpercentage : Z) (method : string) (st : State) :
  Fixed.ODE E twiss twissdata nrf harmon voltages t ex ey sigs sige model
    pnumber nsteps stepsize couplingpercentage method = Ok st ->
  forall k, 0 <= k < st_i st ->
  exists (tk : float) (h : nat),
    vec_at (st_t st) k = Ok tk /\
    vec_at (st_t st) (Z.of_nat (length t) + k)
    = Ok (tk + halved h stepsize)%float /\
    Z.of_nat h <= k + 1 /\
    (method <> "rlx" -> h = 0%nat).
Proof.
  intros H k Hk. unfold Fixed.ODE in H. run_inv H.
  eapply (fixed_loop_time_grid _ _ _ _ _ _ _ stepsize) in H
    as (tk & h & H0 & H1 & Hh & Hder); [| |simpl; exact Hk].
  - simpl in H1. replace (k - 0) with k in H1 by lia.
    exists tk, h. split; [exact H0|]. split; [exact H1|].
    split; [exact Hh|]. intros Hm. apply Hder.
    unfold sanitize_method.
    destruct (String.eqb method "rlx") eqn:Hrlx;
      [by apply String.eqb_eq in Hrlx|].
    simpl. by destruct (String.eqb method "der").
  - split; [simpl; lia|]. exists 0%nat. simpl. split; [lia|]. auto.
Qed.

(** Three steps of 0.125 in the derivative scheme: the times are 0.125,
    0.25 and 0.375. *)
Lemma fixed_time_grid_witness :
  exists st,
    Fixed.ODE demo ∅ ∅ 1 [] [] [0%float] [1%float] [1%float] [5%float]
      [7%float] 1 1 3 0.125 0 "der" = Ok st /\
    vec_at (st_t st) 1 = Ok 0.125%float /\
    vec_at (st_t st) 2 = Ok 0.25%float.
Proof.
  eexists.
  match goal with
  | |- ?run = Ok ?st /\ _ =>
      assert (run = Ok st) as Hrun by (vm_compute; reflexivity);
      pose proof (fixed_time_grid demo ∅ ∅ 1 [] [] [0%float] [1%float]
                    [1%float] [5%float] [7%float] 1 1%float 3 0.125%float
                    0 "der" st Hrun 1) as Hstep
  end.
  assert (0 <= 1 < 3) as Hk by lia. specialize (Hstep Hk).
  destruct Hstep as (tk & h & Htk & Hnew & _ & Hder).
  split; [exact Hrun|]. split; [reflexivity|].
  rewrite (Hder ltac:(discriminate)) in Hnew.
  vm_compute in Htk. injection Htk as <-. exact Hnew.
Defined.

(** ** The CSV file *)

Lemma append_nil_r (s : string) : String.append s EmptyString = s.
Proof.
  induction s as [|a s IH]; [reflexivity|].
  change (String a (String.append s EmptyString) = String a s).
  by rewrite IH.
Qed.

Lemma append_assoc (a b c : string) :
  String.append (String.append a b) c = String.append a (String.append b c).
Proof.
  induction a as [|x a IH]; [reflexivity|].
  change (String x (String.append (String.append a b) c)
          = String x (String.append a (String.append b c))).
  by rewrite IH.
Qed.

(** The [int] a size is converted to is never above the size. *)
Lemma int_of_size_le (s : nat) : int_of_size s <= Z.of_nat s.
Proof.
  unfold int_of_size.
  pose proof (Z.mod_le (Z.of_nat s) (2 ^ 32)) as Hle.
  pose proof (Z.mod_pos_bound (Z.of_nat s) (2 ^ 32)) as Hb.
  destruct (Z.ltb_spec (Z.of_nat s mod 2 ^ 32) (2 ^ 31)); lia.
Qed.

Lemma int_of_size_small (s : nat) :
  Z.of_nat s < 2 ^ 31 -> int_of_size s = Z.of_nat s.
Proof.
  intros Hs. unfold int_of_size.
  rewrite Z.mod_small by lia.
  destruct (Z.ltb_spec (Z.of_nat s) (2 ^ 31)); lia.
Qed.

Section CsvFacts.

Context (put_double : float -> string).

Lemma csv_rows_length (t ex ey sigs : vec) :
  length (csv_rows put_double t ex ey sigs)
  = Nat.min (length t)
      (Nat.min (length ex) (Nat.min (length ey) (length sigs))).
Proof.
  revert ex ey sigs.
  induction t as [|ti t IH]; intros [|exi ex] [|eyi ey] [|sigsi sigs];
    simpl; try reflexivity.
  by rewrite IH.
Qed.

Lemma csv_rows_lookup (t ex ey sigs : vec) (k : nat) (r : string) :
  csv_rows put_double t ex ey sigs !! k = Some r <->
  exists tk exk eyk sigsk,
    t !! k = Some tk /\ ex !! k = Some exk /\ ey !! k = Some eyk /\
    sigs !! k = Some sigsk /\ r = csv_row put_double tk exk eyk sigsk.
Proof.
  revert ex ey sigs k.
  induction t as [|ti t IH]; intros [|exi ex] [|eyi ey] [|sigsi sigs] k;
    simpl; try (split; [discriminate|];
                intros (? & ? & ? & ? & ? & ? & ? & ? & _); discriminate).
  destruct k as [|k]; simpl.
  - split.
    + intros [= <-]. eauto 10.
    + intros (? & ? & ? & ? & [= <-] & [= <-] & [= <-] & [= <-] & ->).
      reflexivity.
  - apply IH.
Qed.

(** The loop, entered at row [i] with enough fuel for the rows that are
    left, writes the rows [i] to [num_of_rows - 1] and reads no element that
    does not exist, as long as [num_of_rows] is not above the common
    length. *)
Lemma write_rows_csv_rows (t ex ey sigs : vec) (num_of_rows : Z) :
  forall (fuel i : nat) (csv : string),
  (Z.to_nat num_of_rows
   <= Nat.min (length t)
        (Nat.min (length ex) (Nat.min (length ey) (length sigs))))%nat ->
  (Z.to_nat num_of_rows - i <= fuel)%nat ->
  write_rows put_double t ex ey sigs num_of_rows fuel (Z.of_nat i) csv
  = Ok (String.append csv
          (join (take (Z.to_nat num_of_rows - i)
                   (csv_rows put_double (drop i t) (drop i ex) (drop i ey)
                      (drop i sigs))))).
Proof.
  induction fuel as [|fuel IH]; intros i csv Hn Hfuel.
  - replace (Z.to_nat num_of_rows - i)%nat with 0%nat by lia.
    simpl. destruct (Z.ltb_spec (Z.of_nat i) num_of_rows); [lia|].
    by rewrite append_nil_r.
  - simpl. destruct (Z.ltb_spec (Z.of_nat i) num_of_rows) as [Hi|Hi].
    + destruct (lookup_lt_is_Some_2 t i) as [ti Hti]; [lia|].
      destruct (lookup_lt_is_Some_2 ex i) as [exi Hexi]; [lia|].
      destruct (lookup_lt_is_Some_2 ey i) as [eyi Heyi]; [lia|].
      destruct (lookup_lt_is_Some_2 sigs i) as [sigsi Hsigsi]; [lia|].
      assert (forall v x, v !! i = Some x -> vec_at v (Z.of_nat i) = Ok x)
        as Hat.
      { intros v x Hx. apply vec_at_Some. rewrite Nat2Z.id.
        split; [lia | exact Hx]. }
      rewrite (Hat _ _ Hti), (Hat _ _ Hexi), (Hat _ _ Heyi),
        (Hat _ _ Hsigsi). simpl.
      replace (Z.of_nat i + 1) with (Z.of_nat (Datatypes.S i)) by lia.
      rewrite IH by lia.
      rewrite (drop_S _ _ _ Hti), (drop_S _ _ _ Hexi), (drop_S _ _ _ Heyi),
        (drop_S _ _ _ Hsigsi).
      replace (Z.to_nat num_of_rows - i)%nat
        with (Datatypes.S (Z.to_nat num_of_rows - Datatypes.S i)) by lia.
      simpl. by rewrite append_assoc.
    + replace (Z.to_nat num_of_rows - i)%nat with 0%nat by lia.
      simpl. by rewrite append_nil_r.
Qed.

(** When the smallest length is an [int], every row is written. *)
Lemma WriteToFile_all_rows (t ex ey sigs : vec) :
  Z.of_nat (Nat.min (length t)
              (Nat.min (length ex) (Nat.min (length ey) (length sigs))))
  < 2 ^ 31 ->
  WriteToFile put_double true t ex ey sigs
  = Ok {| csvfile :=
            Some (String.append (String.append "t,ex,ey,sigs" endl)
                    (join (csv_rows put_double t ex ey sigs)));
          cout := "" |}.
Proof.
  intros Hs. unfold WriteToFile.
  rewrite int_of_size_small by exact Hs. rewrite Nat2Z.id.
  change 0 with (Z.of_nat 0).
  rewrite write_rows_csv_rows; [|by rewrite Nat2Z.id|lia].
  simpl. rewrite Nat2Z.id, Nat.sub_0_r, take_ge; [reflexivity|].
  by rewrite csv_rows_length.
Qed.

(** X6. [WriteToFile] on an open stream writes the header line and then the
    rows of the four series side by side, and reads no element that does
    not exist, whatever the lengths of the four vectors are: the number of
    rows is the [int] that the smallest length is converted to, which is
    never above that length.  When the smallest length is an [int] the file
    has exactly that many rows, row [k] being
    [t[k],ex[k],ey[k],sigs[k]]: elements behind the end of the shortest
    vector are dropped without a message. *)
Theorem WriteToFile_rows (t ex ey sigs : vec) :
  let size :=
    Nat.min (length t)
      (Nat.min (length ex) (Nat.min (length ey) (length sigs))) in
  let rows := csv_rows put_double t ex ey sigs in
  WriteToFile put_double true t ex ey sigs
  = Ok {| csvfile :=
            Some (String.append (String.append "t,ex,ey,sigs" endl)
                    (join (take (Z.to_nat (int_of_size size)) rows)));
          cout := "" |}
  /\ length rows = size
  /\ (Z.of_nat size < 2 ^ 31 -> take (Z.to_nat (int_of_size size)) rows = rows)
  /\ (forall (k : nat) (tk exk eyk sigsk : float),
        t !! k = Some tk -> ex !! k = Some exk -> ey !! k = Some eyk ->
        sigs !! k = Some sigsk ->
        rows !! k = Some (csv_row put_double tk exk eyk sigsk)).
Proof.
  intros size rows.
  pose proof (csv_rows_length t ex ey sigs) as Hlen.
  pose proof (int_of_size_le size) as Hle.
  split; [|split; [exact Hlen|split]].
  - unfold WriteToFile. fold size.
    change 0 with (Z.of_nat 0).
    rewrite write_rows_csv_rows; [|fold size; lia|lia].
    simpl. by rewrite Nat.sub_0_r.
  - intros Hs. rewrite int_of_size_small by exact Hs.
    rewrite Nat2Z.id. apply take_ge. fold rows in Hlen. lia.
  - intros k tk exk eyk sigsk Ht Hx Hy Hs.
    apply csv_rows_lookup. eauto 10.
Qed.

End CsvFacts.

(** Three times, two values of [ex]: the file has the header and two
    rows. *)
Lemma WriteToFile_rows_witness :
  csvfile <$>
    (match WriteToFile demo_put_double true [0%float; 1%float; 2%float]
             [1%float; 3%float] [1%float; 1%float] [5%float; 5%float]
     with Ok w => Some w | _ => None end)
  = Some (Some (String.append "t,ex,ey,sigs"
                  (String.append endl
                     (String.append "a,a,a,b"
                        (String.append endl
                           (String.append "a,b,a,b" endl))))))
  /\ take 2 (csv_rows demo_put_double [0%float; 1%float; 2%float]
               [1%float; 3%float] [1%float; 1%float] [5%float; 5%float])
     = csv_rows demo_put_double [0%float; 1%float; 2%float]
         [1%float; 3%float] [1%float; 1%float] [5%float; 5%float].
Proof.
  pose proof (WriteToFile_rows demo_put_double [0%float; 1%float; 2%float]
                [1%float; 3%float] [1%float; 1%float] [5%float; 5%float])
    as (Hw & _ & Hall & _).
  split; [by rewrite Hw|].
  apply Hall. simpl. lia.
Defined.

(** X7. A fixed-step run written to a file.  After a call of the fixed-step
    entry point with one seed in each series and [nsteps >= 1] steps,
    [WriteToFile] on the caller's four series writes the header and
    [nsteps + 1] rows: the seed and every step, none dropped. *)
Theorem fixed_run_csv
    (put_double : float -> string)
    (E : Externals) (twiss : twiss_t) (twissdata : twissdata_t) (nrf : Z)
    (harmon voltages : list float) (c : Caller) (model : Z) (pnumber : float)
    (nsteps : Z) (stepsize : float) (couplingpercentage : Z)
    (method : string) :
  1 <= model <= 13 ->
  length (c_t c) = 1%nat -> length (c_ex c) = 1%nat ->
  length (c_ey c) = 1%nat -> length (c_sigs c) = 1%nat ->
  1 <= nsteps < 2 ^ 31 - 1 ->
  exists c' rows,
    Fixed.call E twiss twissdata nrf harmon voltages c model pnumber nsteps
      stepsize couplingpercentage method = Ok c' /\
    WriteToFile put_double true (c_t c') (c_ex c') (c_ey c') (c_sigs c')
    = Ok {| csvfile :=
              Some (String.append (String.append "t,ex,ey,sigs" endl)
                      (join rows));
            cout := "" |} /\
    rows = csv_rows put_double (c_t c') (c_ex c') (c_ey c') (c_sigs c') /\
    Z.of_nat (length rows) = nsteps + 1.
Proof.
  intros Hm Ht Hx Hy Hs Hn.
  destruct (fixed_ODE_returns E twiss twissdata nrf harmon voltages
              (c_t c) (c_ex c) (c_ey c) (c_sigs c) (c_sige c) model pnumber
              nsteps stepsize couplingpercentage method Hm)
    as (st & sige0 & Hst & Hi & At & Ax & Ay & As & _);
    try (intros Hnil; rewrite Hnil in *; discriminate).
  exists (after_call c st),
    (csv_rows put_double (st_t st) (st_ex st) (st_ey st) (st_sigs st)).
  unfold Fixed.call. rewrite Hst. simpl.
  split; [reflexivity|].
  apply appended_length in At, Ax, Ay, As.
  split; [|split; [reflexivity|]].
  - apply WriteToFile_all_rows.
    rewrite At, Ax, Ay, As, Ht, Hx, Hy, Hs, !Nat.min_id. lia.
  - rewrite csv_rows_length.
    rewrite At, Ax, Ay, As, Ht, Hx, Hy, Hs, !Nat.min_id. lia.
Qed.

Lemma fixed_run_csv_witness :
  exists c' rows,
    Fixed.call demo ∅ ∅ 1 [] [] demo_caller 1 1 3 0.125 0 "der" = Ok c' /\
    WriteToFile demo_put_double true (c_t c') (c_ex c') (c_ey c') (c_sigs c')
    = Ok {| csvfile :=
              Some (String.append (String.append "t,ex,ey,sigs" endl)
                      (join rows));
            cout := "" |} /\
    rows = csv_rows demo_put_double (c_t c') (c_ex c') (c_ey c') (c_sigs c')
    /\ Z.of_nat (length rows) = 3 + 1.
Proof.
  apply (fixed_run_csv demo_put_double demo ∅ ∅ 1 [] [] demo_caller 1
           1%float 3 0.125%float 0 "der");
    first [reflexivity | lia].
Defined.

(** ** The lattice summary after a call *)

Lemma map_index_inv (m : twiss_t) (k : string) (v : float) (m' : twiss_t) :
  map_index m k = (v, m') ->
  v = default 0%float (m !! k) /\ m' = <[k := v]> m.
Proof.
  unfold map_index. destruct (m !! k) as [x|] eqn:Hk; intros [= <- <-].
  - split; [reflexivity|]. by rewrite insert_id.
  - auto.
Qed.

(** The seven reads [twiss["GAMMA"]], ..., [twiss["LENGTH"]], one after the
    other, and the map they leave. *)
Lemma lattice_setup_twiss (E : Externals) (twiss : twiss_t)
    (twissdata : twissdata_t) (nrf : Z) (harmon voltages : list float)
    (couplingpercentage : Z) :
  let S :=
    lattice_setup E twiss twissdata nrf harmon voltages couplingpercentage in
  gamma S = default 0%float (twiss !! "GAMMA") /\
  pc S = default 0%float (twiss !! "PC") /\
  gammatr S = default 0%float (twiss !! "GAMMATR") /\
  mass S = default 0%float (twiss !! "MASS") /\
  charge S = default 0%float (twiss !! "CHARGE") /\
  q1 S = default 0%float (twiss !! "Q1") /\
  len S = default 0%float (twiss !! "LENGTH") /\
  twiss' S
  = <["LENGTH" := len S]>
      (<["Q1" := q1 S]>
         (<["CHARGE" := charge S]>
            (<["MASS" := mass S]>
               (<["GAMMATR" := gammatr S]>
                  (<["PC" := pc S]> (<["GAMMA" := gamma S]> twiss)))))).
Proof.
  intros S. unfold lattice_setup in S.
  destruct (map_index twiss "GAMMA") as [v1 m1] eqn:H1.
  destruct (map_index m1 "PC") as [v2 m2] eqn:H2.
  destruct (map_index m2 "GAMMATR") as [v3 m3] eqn:H3.
  destruct (map_index m3 "MASS") as [v4 m4] eqn:H4.
  destruct (map_index m4 "CHARGE") as [v5 m5] eqn:H5.
  destruct (map_index m5 "Q1") as [v6 m6] eqn:H6.
  destruct (map_index m6 "LENGTH") as [v7 m7] eqn:H7.
  apply map_index_inv in H1 as [E1 ->], H2 as [E2 ->], H3 as [E3 ->],
    H4 as [E4 ->], H5 as [E5 ->], H6 as [E6 ->], H7 as [E7 ->].
  rewrite !lookup_insert_ne in E2 by done.
  rewrite !lookup_insert_ne in E3 by done.
  rewrite !lookup_insert_ne in E4 by done.
  rewrite !lookup_insert_ne in E5 by done.
  rewrite !lookup_insert_ne in E6 by done.
  rewrite !lookup_insert_ne in E7 by done.
  subst S. simpl. repeat (split; [assumption|]). reflexivity.
Qed.

(** X8. The lattice summary is read with [twiss[key]], on a map that the
    entry points take by reference.  Both entry points therefore run on
    the value 0.0 for each of GAMMA, PC, GAMMATR, MASS, CHARGE, Q1 and
    LENGTH that the caller's map lacks, without a message, and leave that
    key in the map with value 0.0; the entries the map had are kept as they
    were and no other key is added. *)
Theorem missing_twiss_keys_are_zero (E : Externals) (twiss : twiss_t)
    (twissdata : twissdata_t) (nrf : Z) (harmon voltages : list float)
    (couplingpercentage : Z) :
  let S :=
    lattice_setup E twiss twissdata nrf harmon voltages couplingpercentage in
  (forall k v, twiss !! k = Some v -> twiss' S !! k = Some v) /\
  (forall k, k ∈ twiss_keys -> twiss !! k = None ->
     twiss' S !! k = Some 0%float) /\
  (forall k, k ∉ twiss_keys -> twiss' S !! k = twiss !! k) /\
  [gamma S; pc S; gammatr S; mass S; charge S; q1 S; len S]
  = (fun k => default 0%float (twiss !! k)) <$> twiss_keys.
Proof.
  intros S.
  pose proof (lattice_setup_twiss E twiss twissdata nrf harmon voltages
                couplingpercentage) as Hs.
  cbv zeta in Hs. fold S in Hs.
  destruct Hs as (E1 & E2 & E3 & E4 & E5 & E6 & E7 & Hm).
  assert (forall k,
            twiss' S !! k
            = if decide (k ∈ twiss_keys)
              then Some (default 0%float (twiss !! k)) else twiss !! k)
    as Hlookup.
  { intros k. rewrite Hm, E1, E2, E3, E4, E5, E6, E7.
    rewrite !lookup_insert. unfold twiss_keys.
    repeat match goal with
           | |- context [decide (?a = k)] =>
               destruct (decide (a = k)) as [<-|?]
           end;
      try (rewrite decide_True by (repeat constructor); reflexivity).
    rewrite decide_False; [reflexivity|]. intros Hin.
    repeat (apply elem_of_cons in Hin as [->|Hin]; [congruence|]).
    by apply elem_of_nil in Hin. }
  split; [|split; [|split]].
  - intros k v Hk. rewrite Hlookup, Hk. by destruct (decide _).
  - intros k Hin Hk. rewrite Hlookup, Hk. by rewrite decide_True.
  - intros k Hin. rewrite Hlookup. by rewrite decide_False.
  - simpl. by rewrite E1, E2, E3, E4, E5, E6, E7.
Qed.

(** A map with GAMMA only: the six other keys are added with 0.0. *)
Lemma missing_twiss_keys_are_zero_witness :
  twiss' (lattice_setup demo (<["GAMMA" := 2%float]> ∅) ∅ 1 [] [] 0)
    !! "GAMMA" = Some 2%float /\
  twiss' (lattice_setup demo (<["GAMMA" := 2%float]> ∅) ∅ 1 [] [] 0)
    !! "LENGTH" = Some 0%float /\
  twiss' (lattice_setup demo (<["GAMMA" := 2%float]> ∅) ∅ 1 [] [] 0)
    !! "BETX" = None.
Proof.
  pose proof (missing_twiss_keys_are_zero demo (<["GAMMA" := 2%float]> ∅)
                ∅ 1 [] [] 0) as Hs.
  cbv zeta in Hs. destruct Hs as (Hkept & Hzero & Hother & _).
  split; [apply Hkept; reflexivity|].
  split; [apply Hzero; [unfold twiss_keys; repeat constructor
                       | reflexivity]|].
  rewrite Hother; [reflexivity|]. unfold twiss_keys. intros Hin.
  repeat (apply elem_of_cons in Hin as [Hin|Hin]; [discriminate|]).
  by apply elem_of_nil in Hin.
Defined.

(** ** The coupling the integrator runs on *)

Lemma lattice_setup_coupling (E : Externals) (twiss : twiss_t)
    (twissdata : twissdata_t) (nrf : Z) (harmon voltages : list float)
    (couplingpercentage : Z) :
  coupling (lattice_setup E twiss twissdata nrf harmon voltages
              couplingpercentage)
  = (Dbl.of_int couplingpercentage / 100)%float.
Proof.
  unfold lattice_setup.
  repeat match goal with
         | |- context [map_index ?m ?k] => destruct (map_index m k)
         end.
  reflexivity.
Qed.

Lemma percent_is_a_fraction (z : Z) :
  0 <= z <= 100 ->
  (0 <=? Dbl.of_int z / 100)%float = true
  /\ (Dbl.of_int z / 100 <=? 1)%float = true.
Proof.
  intros Hz.
  assert (forallb
            (fun n : nat =>
               (0 <=? Dbl.of_int (Z.of_nat n) / 100)%float
               && (Dbl.of_int (Z.of_nat n) / 100 <=? 1)%float)
            (seq 0 101) = true) as Hall by (vm_compute; reflexivity).
  rewrite forallb_forall in Hall.
  specialize (Hall (Z.to_nat z)). rewrite Z2Nat.id in Hall by lia.
  apply andb_prop, Hall, in_seq. lia.
Qed.

(** X9. Whatever [int] the caller passes as coupling percentage, the
    coupling that both entry points run on, [(double)couplingpercentage /
    100.0] after the range check, is a fraction between 0 and 1. *)
Theorem coupling_is_a_fraction (E : Externals) (twiss : twiss_t)
    (twissdata : twissdata_t) (nrf : Z) (harmon voltages : list float)
    (couplingpercentage : Z) :
  let S :=
    lattice_setup E twiss twissdata nrf harmon voltages
      (sanitize_coupling couplingpercentage) in
  (0 <=? coupling S)%float = true /\ (coupling S <=? 1)%float = true.
Proof.
  intros S. subst S. rewrite lattice_setup_coupling.
  apply percent_is_a_fraction. unfold sanitize_coupling.
  destruct (Z.gtb_spec couplingpercentage 100);
    destruct (Z.ltb_spec couplingpercentage 0); simpl; lia.
Qed.

(** ** The convergence test on NaN and on a step that changes nothing *)

Section Comparisons.

Local Open Scope float_scope.

(** A comparison with NaN is false. *)
Lemma ltb_nan_l x c : Dbl.is_nan x = true -> (x <? c) = false.
Proof.
  unfold Dbl.is_nan. rewrite FloatAxioms.ltb_spec.
  by destruct (Prim2SF x).
Qed.

Lemma ltb_nan_r x c : Dbl.is_nan c = true -> (x <? c) = false.
Proof.
  unfold Dbl.is_nan. rewrite FloatAxioms.ltb_spec.
  destruct (Prim2SF c); try discriminate. by destruct (Prim2SF x).
Qed.

(** The range check lets NaN through. *)
Lemma sanitize_threshold_nan thr :
  Dbl.is_nan thr = true -> sanitize_threshold thr = thr.
Proof.
  intros Hn. unfold sanitize_threshold.
  by rewrite (ltb_nan_r 1 thr Hn), (ltb_nan_l thr _ Hn).
Qed.

(** The threshold after the range check is not below [1e-6]. *)
Lemma sanitize_threshold_low thr :
  (sanitize_threshold thr <? 0x1.0c6f7a0b5ed8dp-20) = false.
Proof.
  unfold sanitize_threshold.
  destruct (1 <? thr); simpl; [reflexivity|].
  by destruct (thr <? 0x1.0c6f7a0b5ed8dp-20) eqn:Hlow.
Qed.

(** A double that is not below [1e-6] is not below [+0]. *)
Lemma not_below_zero s c :
  (s <? 0x1.0c6f7a0b5ed8dp-20) = false ->
  Prim2SF c = S754_zero false \/ Prim2SF c = S754_nan ->
  (s <? c) = false.
Proof.
  rewrite !FloatAxioms.ltb_spec. intros Hs [-> | ->].
  - destruct (Prim2SF s) as [sg|sg| |sg m e]; try reflexivity;
      destruct sg; try reflexivity; vm_compute in Hs; discriminate.
  - by destruct (Prim2SF s).
Qed.

(** [fabs((a - a) / a)] is [+0] or NaN, whatever the double [a] is. *)
Lemma unchanged_rel_change a :
  Prim2SF (Dbl.fabs ((a - a) / a)) = S754_zero false
  \/ Prim2SF (Dbl.fabs ((a - a) / a)) = S754_nan.
Proof.
  unfold Dbl.fabs.
  rewrite FloatAxioms.abs_spec, FloatAxioms.div_spec.
  destruct (Prim2SF a) as [sg|sg| |sg m e] eqn:Ha.
  - rewrite FloatAxioms.sub_spec, Ha. right. by destruct sg.
  - rewrite FloatAxioms.sub_spec, Ha. right. by destruct sg.
  - rewrite FloatAxioms.sub_spec, Ha. by right.
  - rewrite sub_diag_zero by (unfold Dbl.is_number; by rewrite Ha).
    left. reflexivity.
Qed.

End Comparisons.

Lemma do_while_once (body : State -> result State)
    (cond : State -> result bool) (fuel : nat) (st st' : State) :
  (forall s b, cond s = Ok b -> b = false) ->
  do_while body cond fuel st = Ok st' -> body st = Ok st'.
Proof.
  intros Hc H. destruct fuel as [|fuel]; [discriminate|]. simpl in H.
  apply bind_Ok in H as (st1 & H1 & H).
  apply bind_Ok in H as (c & Hcond & H).
  rewrite (Hc _ _ Hcond) in H. by injection H as <-.
Qed.

Lemma adaptive_cond_nan (ms : Z) (threshold : float) (s : State) (b : bool) :
  Dbl.is_nan threshold = true ->
  Adaptive.cond ms threshold s = Ok b -> b = false.
Proof.
  intros Hn. unfold Adaptive.cond.
  destruct (st_i s <? ms); [|by intros [= <-]].
  intros H. apply bind_Ok in H as (cx & _ & H).
  rewrite (ltb_nan_l _ cx Hn) in H.
  apply bind_Ok in H as (cy & _ & H).
  rewrite (ltb_nan_l _ cy Hn) in H.
  apply bind_Ok in H as (cs & _ & H).
  rewrite (ltb_nan_l _ cs Hn) in H. by injection H as <-.
Qed.

Section ConvergenceTest.

Context (E : Externals) (twiss : twiss_t) (twissdata : twissdata_t)
        (nrf : Z) (harmon voltages : list float) (t ex ey sigs sige : vec)
        (model : Z) (pnumber : float) (couplingpercentage : Z)
        (method : string).

(** X10. The range check of the threshold lets NaN through, and no
    relative change is above NaN: an adaptive run with a NaN threshold
    that returns has made exactly one step, whatever the budget and the
    trajectory are. *)
Theorem nan_threshold_takes_one_step (threshold : float) (st : State) :
  Dbl.is_nan threshold = true ->
  Adaptive.ODE E twiss twissdata nrf harmon voltages t ex ey sigs sige
    model pnumber couplingpercentage threshold method = Ok st ->
  st_i st = 1 /\
  appended 1 t (st_t st) /\ appended 1 ex (st_ex st) /\
  appended 1 ey (st_ey st) /\ appended 1 sigs (st_sigs st).
Proof.
  intros Hn H. unfold Adaptive.ODE in H. run_inv H.
  rewrite (sanitize_threshold_nan _ Hn) in H.
  apply do_while_once in H; [|intros s b; by apply adaptive_cond_nan].
  apply adaptive_body_extends in H as [Hi At Ax Ay As _ _].
  simpl in *. auto.
Qed.

(** X11. The adaptive loop never goes on after a step that changed
    nothing: if the run made another iteration after the loop variable was
    [k], then [ex[k]], [ey[k]] and [sigs[k]] are not all three the very
    doubles [ex[k - 1]], [ey[k - 1]] and [sigs[k - 1]].  For a repeated
    value the relative change [fabs((a - a) / a)] is [+0] or NaN (for [a]
    zero, infinite or NaN), and neither is above the threshold. *)
Theorem adaptive_stops_on_unchanged_step
    (threshold : float) (st : State) (k : Z) (x y s : float) :
  Adaptive.ODE E twiss twissdata nrf harmon voltages t ex ey sigs sige
    model pnumber couplingpercentage threshold method = Ok st ->
  1 <= k < st_i st ->
  vec_at (st_ex st) (k - 1) = Ok x ->
  vec_at (st_ey st) (k - 1) = Ok y ->
  vec_at (st_sigs st) (k - 1) = Ok s ->
  ~ (vec_at (st_ex st) k = Ok x /\ vec_at (st_ey st) k = Ok y
     /\ vec_at (st_sigs st) k = Ok s).
Proof.
  intros H Hk Hx Hy Hs (Hx' & Hy' & Hs').
  unfold Adaptive.ODE in H. run_inv H.
  apply adaptive_loop_stops in H as (_ & _ & _ & Hgo).
  destruct (Hgo k) as [_ Hex]; [simpl; lia|].
  assert (forall v a,
            vec_at v (k - 1) = Ok a -> vec_at v k = Ok a ->
            ~ exceeds (sanitize_threshold threshold) v k) as Hsame.
  { intros v a Ha Ha' (c & Hc & Habove). unfold Adaptive.rel_change in Hc.
    rewrite Ha', Ha in Hc. simpl in Hc. injection Hc as <-.
    rewrite (not_below_zero _ _ (sanitize_threshold_low threshold)
               (unchanged_rel_change a)) in Habove.
    discriminate. }
  destruct Hex as [Hex|[Hex|Hex]]; eapply Hsame in Hex; eauto.
Qed.

End ConvergenceTest.

(** The sample ring with a NaN threshold and a budget of 20 iterations. *)
Lemma nan_threshold_takes_one_step_witness :
  exists st,
    Adaptive.ODE demo ∅ ∅ 1 [] [] [0%float] [1%float] [1%float] [5%float]
      [7%float] 1 1 0 nan "rlx" = Ok st /\
    st_i st = 1 /\ length (st_ex st) = 2%nat.
Proof.
  eexists.
  match goal with
  | |- ?run = Ok ?st /\ _ =>
      assert (run = Ok st) as Hrun by (vm_compute; reflexivity);
      pose proof (nan_threshold_takes_one_step demo ∅ ∅ 1 [] []
                    [0%float] [1%float] [1%float] [5%float] [7%float] 1
                    1%float 0 "rlx" nan st eq_refl Hrun)
        as (Hi & _ & Ax & _)
  end.
  split; [exact Hrun|]. split; [exact Hi|].
  by rewrite (appended_length _ _ _ Ax).
Defined.

(** The sample ring with threshold 0.5 makes three iterations; the first
    step has changed the seeds [ex = 1], [ey = 1], [sigs = 5]. *)
Lemma adaptive_stops_on_unchanged_step_witness :
  exists st,
    Adaptive.ODE demo ∅ ∅ 1 [] [] [0%float] [1%float] [1%float] [5%float]
      [7%float] 1 1 0 0.5 "rlx" = Ok st /\
    ~ (vec_at (st_ex st) 1 = Ok 1%float /\ vec_at (st_ey st) 1 = Ok 1%float
       /\ vec_at (st_sigs st) 1 = Ok 5%float).
Proof.
  eexists.
  match goal with
  | |- ?run = Ok ?st /\ _ =>
      assert (run = Ok st) as Hrun by (vm_compute; reflexivity);
      pose proof (adaptive_stops_on_unchanged_step demo ∅ ∅ 1 [] []
                    [0%float] [1%float] [1%float] [5%float] [7%float] 1
                    1%float 0 "rlx" 0.5%float st 1 1%float 1%float 5%float
                    Hrun) as Hstep
  end.
  assert (1 <= 1 < 3) as Hk by lia. specialize (Hstep Hk).
  split; [exact Hrun|].
  apply Hstep; reflexivity.
Defined.

(** ** The emittances, step by step *)

Section EmittanceSteps.

Context (E : Externals) (S : Setup) (twissdata : twissdata_t) (model : Z)
        (pnumber : float) (method : string).

Lemma relaxation_update_emittances ibs ddt rx ry rs i st st' :
  relaxation_update E S ibs ddt rx ry rs i st = Ok st' ->
  exists t_prev ex_prev ey_prev,
    vec_at (st_t st) (i - 1) = Ok t_prev /\
    vec_at (st_ex st) (i - 1) = Ok ex_prev /\
    vec_at (st_ey st) (i - 1) = Ok ey_prev /\
    st_t st' = push_back (st_t st) (t_prev + ddt)%float /\
    st_ex st'
    = push_back (st_ex st)
        (ex_prev + ddt * (1 / (1 - rx) * equi S 3%nat - ex_prev))%float /\
    st_ey st'
    = push_back (st_ey st)
        (ey_prev
         + ddt * (((1 - coupling S) * (1 / (1 - ry))
                   + coupling S * (1 / (1 - rx)))
                  * ey0_coupled S - ey_prev))%float.
Proof.
  unfold relaxation_update. intros H. run_inv H. injection H as <-. simpl.
  eauto 10.
Qed.

Lemma derivative_update_emittances ibs ddt aes aex aey i st st' :
  derivative_update E S ibs ddt aes aex aey i st = Ok st' ->
  exists t_prev ex_prev ey_prev,
    vec_at (st_t st) (i - 1) = Ok t_prev /\
    vec_at (st_ex st) (i - 1) = Ok ex_prev /\
    vec_at (st_ey st) (i - 1) = Ok ey_prev /\
    st_t st' = push_back (st_t st) (t_prev + ddt)%float /\
    st_ex st'
    = push_back (st_ex st) (ex_prev + ddt * dxdt S ex_prev aex)%float /\
    st_ey st'
    = push_back (st_ey st) (ey_prev + ddt * dydt S ey_prev aey)%float.
Proof.
  unfold derivative_update. intros H. run_inv H. injection H as <-. simpl.
  eauto 10.
Qed.

Lemma adaptive_body_emittances a b :
  Adaptive.body E S twissdata model pnumber method a = Ok b ->
  emittance_step E S twissdata model pnumber method a b.
Proof.
  unfold Adaptive.body, emittance_step, advance_ex, advance_ey. intros H.
  apply bind_Ok in H as (ibs & Hibs & H). exists ibs.
  destruct (String.eqb method "rlx");
    [apply relaxation_update_emittances in H
    |apply derivative_update_emittances in H];
    replace (st_i a + 1 - 1) with (st_i a) in H by lia;
    destruct H as (tp & xp & yp & H); eexists _, tp, xp, yp;
    (split; [exact Hibs | exact H]).
Qed.

Lemma fixed_body_emittances a b :
  Fixed.body E S twissdata model pnumber method a = Ok b ->
  emittance_step E S twissdata model pnumber method a b.
Proof.
  unfold Fixed.body, emittance_step, advance_ex, advance_ey. intros H.
  apply bind_Ok in H as (ibs & Hibs & H). exists ibs.
  destruct (String.eqb method "rlx");
    [apply relaxation_update_emittances in H
    |apply derivative_update_emittances in H];
    replace (st_i a + 1 - 1) with (st_i a) in H by lia;
    destruct H as (tp & xp & yp & H); eexists _, tp, xp, yp;
    (split; [exact Hibs | exact H]).
Qed.

Context (body : State -> result State) (cond : State -> result bool).

Hypothesis body_extends : forall a b, body a = Ok b -> extends 1 a b.
Hypothesis body_emittances :
  forall a b, body a = Ok b ->
  emittance_step E S twissdata model pnumber method a b.

Lemma loop_emittances fuel st0 st k :
  do_while body cond fuel st0 = Ok st ->
  st_i st0 <= k < st_i st ->
  exists ibs ddt tk exk eyk,
    growth_rates_at E S twissdata model pnumber
      (st_ex st) (st_ey st) (st_sigs st) (st_sige st) k = Ok ibs /\
    vec_at (st_t st) k = Ok tk /\
    vec_at (st_ex st) k = Ok exk /\
    vec_at (st_ey st) k = Ok eyk /\
    vec_at (st_t st) (Z.of_nat (length (st_t st0)) + (k - st_i st0))
    = Ok (tk + ddt)%float /\
    vec_at (st_ex st) (Z.of_nat (length (st_ex st0)) + (k - st_i st0))
    = Ok (advance_ex S method ddt (ibs 1%nat) exk) /\
    vec_at (st_ey st) (Z.of_nat (length (st_ey st0)) + (k - st_i st0))
    = Ok (advance_ey S method ddt (ibs 1%nat) (ibs 2%nat) eyk).
Proof.
  intros H Hk.
  destruct (do_while_steps body cond (fun _ => True) body_extends
              (fun _ _ _ _ => I) fuel st0 st k I H Hk)
    as (a & b & n & m & Ha & _ & Hia & Hb & Hbst).
  destruct (body_emittances _ _ Hb)
    as (ibs & ddt & tk & exk & eyk & Hibs & Htk & Hxk & Hyk & Ht & Hx & Hy).
  pose proof (body_extends _ _ Hb) as Hab.
  pose proof (ext_i _ _ _ Ha) as Hn.
  pose proof (appended_length _ _ _ (ext_t _ _ _ Ha)) as Lt.
  pose proof (appended_length _ _ _ (ext_ex _ _ _ Ha)) as Lx.
  pose proof (appended_length _ _ _ (ext_ey _ _ _ Ha)) as Ly.
  exists ibs, ddt, tk, exk, eyk.
  replace (k - st_i st0) with (Z.of_nat n) by lia.
  rewrite Hia in Hibs, Htk, Hxk, Hyk.
  split; [|split; [|split; [|split; [|split; [|split]]]]].
  - eapply growth_rates_at_extends; [exact Hbst|].
    eapply growth_rates_at_extends; [exact Hab | exact Hibs].
  - eapply appended_vec_at; [apply (ext_t _ _ _ Hbst)|].
    eapply appended_vec_at; [apply (ext_t _ _ _ Hab) | exact Htk].
  - eapply appended_vec_at; [apply (ext_ex _ _ _ Hbst)|].
    eapply appended_vec_at; [apply (ext_ex _ _ _ Hab) | exact Hxk].
  - eapply appended_vec_at; [apply (ext_ey _ _ _ Hbst)|].
    eapply appended_vec_at; [apply (ext_ey _ _ _ Hab) | exact Hyk].
  - eapply appended_vec_at; [apply (ext_t _ _ _ Hbst)|]. rewrite Ht.
    replace (Z.of_nat (length (st_t st0)) + Z.of_nat n)
      with (Z.of_nat (length (st_t a))) by lia.
    apply vec_at_push_back_new.
  - eapply appended_vec_at; [apply (ext_ex _ _ _ Hbst)|]. rewrite Hx.
    replace (Z.of_nat (length (st_ex st0)) + Z.of_nat n)
      with (Z.of_nat (length (st_ex a))) by lia.
    apply vec_at_push_back_new.
  - eapply appended_vec_at; [apply (ext_ey _ _ _ Hbst)|]. rewrite Hy.
    replace (Z.of_nat (length (st_ey st0)) + Z.of_nat n)
      with (Z.of_nat (length (st_ey a))) by lia.
    apply vec_at_push_back_new.
Qed.

End EmittanceSteps.

(** X12. How the emittances advance.  In the iteration that starts with
    loop variable [k], of either entry point, the growth rates are those of
    the point [ex[k]], [ey[k]], [sigs[k]], [sige[k]], and the emittances
    appended are the step of the scheme from [ex[k]] and [ey[k]] with these
    rates: [ex[k] + ddt * dxdt] and [ey[k] + ddt * dydt] in the derivative
    scheme, the relaxation towards [xfactor * equi[3]] and the coupled
    vertical equilibrium in the relaxation scheme.  [ddt] is the step by
    which the time of that iteration advances from [t[k]].  The run starts
    from element 0 of the caller's series, not from their last element. *)
Theorem emittances_advance_from_loop_variable
    (E : Externals) (twiss : twiss_t) (twissdata : twissdata_t) (nrf : Z)
    (harmon voltages : list float) (t ex ey sigs sige : vec) (model : Z)
    (pnumber : float) (couplingpercentage : Z) (method : string)
    (threshold : float) (nsteps : Z) (stepsize : float) (st : State) :
  Adaptive.ODE E twiss twissdata nrf harmon voltages t ex ey sigs sige
    model pnumber couplingpercentage threshold method = Ok st
  \/ Fixed.ODE E twiss twissdata nrf harmon voltages t ex ey sigs sige
       model pnumber nsteps stepsize couplingpercentage method = Ok st ->
  let S :=
    lattice_setup E twiss twissdata nrf harmon voltages
      (sanitize_coupling couplingpercentage) in
  forall k, 0 <= k < st_i st ->
  exists ibs ddt tk exk eyk,
    growth_rates_at E S twissdata model pnumber
      (st_ex st) (st_ey st) (st_sigs st) (st_sige st) k = Ok ibs /\
    vec_at (st_t st) k = Ok tk /\
    vec_at (st_ex st) k = Ok exk /\
    vec_at (st_ey st) k = Ok eyk /\
    vec_at (st_t st) (Z.of_nat (length t) + k) = Ok (tk + ddt)%float /\
    vec_at (st_ex st) (Z.of_nat (length ex) + k)
    = Ok (advance_ex S (sanitize_method method) ddt (ibs 1%nat) exk) /\
    vec_at (st_ey st) (Z.of_nat (length ey) + k)
    = Ok (advance_ey S (sanitize_method method) ddt (ibs 1%nat)
            (ibs 2%nat) eyk).
Proof.
  intros H S k Hk. destruct H as [H|H].
  - unfold Adaptive.ODE in H. fold S in H. run_inv H.
    eapply (loop_emittances E S twissdata model pnumber
              (sanitize_method method)) in H;
      [| apply adaptive_body_extends
       | apply adaptive_body_emittances
       | simpl; exact Hk].
    simpl in H. replace (k - 0) with k in H by lia. exact H.
  - unfold Fixed.ODE in H. fold S in H. run_inv H.
    eapply (loop_emittances E S twissdata model pnumber
              (sanitize_method method)) in H;
      [| apply fixed_body_extends
       | apply fixed_body_emittances
       | simpl; exact Hk].
    simpl in H. replace (k - 0) with k in H by lia. exact H.
Qed.

(** Two fixed steps in the derivative scheme on the sample ring, whose
    growth rates are zero: the first step takes the time from 0 to
    [0 + ddt] and [ex] from 1 to the derivative step of 1 with that
    [ddt]. *)
Lemma emittances_advance_from_loop_variable_witness :
  exists st ddt,
    Fixed.ODE demo ∅ ∅ 1 [] [] [0%float] [1%float] [1%float] [5%float]
      [7%float] 1 1 2 0.125 0 "der" = Ok st /\
    vec_at (st_t st) 1 = Ok (0 + ddt)%float /\
    vec_at (st_ex st) 1 = Ok (advance_ex demo_setup "der" ddt 0 1).
Proof.
  eexists.
  match goal with
  | |- exists ddt, ?run = Ok ?st /\ _ =>
      assert (run = Ok st) as Hrun by (vm_compute; reflexivity);
      pose proof (emittances_advance_from_loop_variable demo ∅ ∅ 1 [] []
                    [0%float] [1%float] [1%float] [5%float] [7%float] 1
                    1%float 0 "der" 0.5%float 2 0.125%float st
                    (or_intror Hrun)) as Hstep
  end.
  cbv zeta in Hstep. specialize (Hstep 0).
  assert (0 <= 0 < 2) as Hk by lia. specialize (Hstep Hk).
  destruct Hstep as (ibs & ddt & tk & exk & eyk & Hibs & Htk & Hxk & _
                     & Ht & Hx & _).
  exists ddt. split; [exact Hrun|].
  vm_compute in Hibs. injection Hibs as <-.
  vm_compute in Htk. injection Htk as <-.
  vm_compute in Hxk. injection Hxk as <-.
  split; [exact Ht | exact Hx].
Defined.

(** ** The adaptive step size under a negative growth rate *)

Section NegativeRates.

Local Open Scope float_scope.

Lemma ltb_zero_inv x :
  (x <? 0) = true ->
  Prim2SF x = S754_infinity true
  \/ exists m e, Prim2SF x = S754_finite true m e.
Proof.
  rewrite FloatAxioms.ltb_spec.
  change (Prim2SF 0) with (S754_zero false).
  destruct (Prim2SF x) as [s|s| |s m e]; try discriminate;
    destruct s; try discriminate; eauto.
Qed.

Lemma ltb_zero_intro x :
  Prim2SF x = S754_infinity true
  \/ (exists m e, Prim2SF x = S754_finite true m e) ->
  (x <? 0) = true.
Proof.
  rewrite FloatAxioms.ltb_spec.
  change (Prim2SF 0) with (S754_zero false).
  by intros [-> | (m & e & ->)].
Qed.

(** Below a negative double there are only negative doubles. *)
Lemma ltb_below_negative c d :
  (d <? 0) = true -> (c <? d) = true -> (c <? 0) = true.
Proof.
  intros Hd Hc. apply ltb_zero_intro.
  rewrite FloatAxioms.ltb_spec in Hc.
  destruct (ltb_zero_inv d Hd) as [Hd' | (m & e & Hd')]; rewrite Hd' in Hc;
    destruct (Prim2SF c) as [s|s| |s m' e']; try discriminate;
    destruct s; try discriminate; eauto.
Qed.

(** A double that a negative one is not below is negative or NaN. *)
Lemma ltb_not_above_negative c d :
  (c <? 0) = true -> Dbl.is_nan d = false -> (c <? d) = false ->
  (d <? 0) = true.
Proof.
  intros Hc Hn Hd. apply ltb_zero_intro.
  rewrite FloatAxioms.ltb_spec in Hd. unfold Dbl.is_nan in Hn.
  destruct (ltb_zero_inv c Hc) as [Hc' | (m & e & Hc')]; rewrite Hc' in Hd;
    destruct (Prim2SF d) as [s|s| |s m' e']; try discriminate;
    destruct s; try discriminate; eauto.
Qed.

Lemma min_negative_l d c : (d <? 0) = true -> (Dbl.min d c <? 0) = true.
Proof.
  intros Hd. unfold Dbl.min. destruct (c <? d) eqn:Hc; [|exact Hd].
  by apply ltb_below_negative with d.
Qed.

Lemma min_negative_r d c :
  (c <? 0) = true -> Dbl.is_nan d = false -> (Dbl.min d c <? 0) = true.
Proof.
  intros Hc Hn. unfold Dbl.min. destruct (c <? d) eqn:Hd; [exact Hc|].
  by apply ltb_not_above_negative with c.
Qed.

Lemma min_not_nan d c :
  Dbl.is_nan d = false -> Dbl.is_nan c = false ->
  Dbl.is_nan (Dbl.min d c) = false.
Proof. intros Hd Hc. unfold Dbl.min. by destruct (c <? d). Qed.

(** X13. The step size of the adaptive entry point is not protected
    against a negative growth rate.  [min(tauradx, taurady, taurads,
    1/ibs[0], 1/ibs[1], 1/ibs[2])], from which the budget and the step size
    of every iteration are computed, is negative as soon as one of the
    three [1/ibs[k]] is, none of the six candidates being NaN. *)
Theorem negative_rate_gives_negative_tau_min (S : Setup) (ibs : array) :
  Dbl.is_nan (tauradx S) = false -> Dbl.is_nan (taurady S) = false ->
  Dbl.is_nan (taurads S) = false ->
  Dbl.is_nan (1 / ibs 0%nat) = false -> Dbl.is_nan (1 / ibs 1%nat) = false ->
  Dbl.is_nan (1 / ibs 2%nat) = false ->
  (1 / ibs 0%nat <? 0) = true \/ (1 / ibs 1%nat <? 0) = true
  \/ (1 / ibs 2%nat <? 0) = true ->
  (tau_min S ibs <? 0) = true.
Proof.
  intros Nx Ny Ns N0 N1 N2 Hneg. unfold tau_min.
  pose proof (min_not_nan _ _ (min_not_nan _ _ Nx Ny) Ns) as N3.
  pose proof (min_not_nan _ _ N3 N0) as N4.
  pose proof (min_not_nan _ _ N4 N1) as N5.
  destruct Hneg as [H0 | [H1 | H2]].
  - apply min_negative_l, min_negative_l. by apply min_negative_r.
  - apply min_negative_l. by apply min_negative_r.
  - by apply min_negative_r.
Qed.

End NegativeRates.

(** The sample ring (damping times 0.5) with a horizontal growth rate of
    -2: the smallest time scale is [1 / -2 = -0.5]. *)
Lemma negative_rate_gives_negative_tau_min_witness :
  (tau_min demo_setup (rates 0 (-2) 0) <? 0)%float = true.
Proof.
  apply negative_rate_gives_negative_tau_min;
    try reflexivity.
  right. left. reflexivity.
Defined.
